(** * edgedb-go: codec engine and query execution flow

    A shallow embedding of the execution flow of [edgedb/granular_flow.go],
    of the script flow of [internal/client/scriptflow.go] and of the object
    decoder of package [codecs], with the properties of the driver's
    specification stated and proved over them.

    Conventions.  A byte is a [Z] in [0, 256); a Go slice of bytes is a
    [list Z].  A Go run-time panic (index out of range, failed type
    assertion, explicit [panic]) is the [Panic] outcome, or [None] for the
    wire primitives.  Loops over a shrinking buffer are written with fuel
    and the fuel the callers supply is shown to be enough. *)

From Stdlib Require Import ZArith List String Ascii Lia.
From stdpp Require Import base option list gmap strings pretty.
Import ListNotations.

Open Scope Z_scope.
Set Warnings "-register-all".

Abbreviation bytes := (list Z).

(** How a call ends: it returns, it panics, or the model's loop ran out of
    fuel (which the callers' fuel excludes, see the [_total] lemmas). *)
Inductive outcome (A : Type) :=
| Return (a : A)
| Panic
| OutOfFuel.
Arguments Return {A} a.
Arguments Panic {A}.
Arguments OutOfFuel {A}.

Definition bind {A B} (x : outcome A) (f : A -> outcome B) : outcome B :=
  match x with
  | Return a => f a
  | Panic => Panic
  | OutOfFuel => OutOfFuel
  end.

Definition orPanic {A} (x : option A) : outcome A :=
  match x with
  | Some a => Return a
  | None => Panic
  end.

(** ** Wire buffer (package [protocol]) *)

Module protocol.

(** Modelled from the spec: the push and pop primitives of package
    [protocol], which is not under src/.  Section 4.1: unsigned 8/16/32-bit
    integers in network byte order, length-prefixed byte blobs and strings,
    16-byte type identifiers, and messages framed as
    [type:1][length:4][payload] whose length counts itself but not the
    type byte.  A pop from a buffer that is too short panics. *)
Definition uint8 (n : Z) : Z := n mod 256.

Definition encode_u16 (n : Z) : bytes :=
  [uint8 (n / 256); uint8 n].

Definition encode_u32 (n : Z) : bytes :=
  [uint8 (n / 16777216); uint8 (n / 65536); uint8 (n / 256); uint8 n].

Definition decode_u16 (b1 b0 : Z) : Z := b1 * 256 + b0.

Definition decode_u32 (b3 b2 b1 b0 : Z) : Z :=
  b3 * 16777216 + b2 * 65536 + b1 * 256 + b0.

Definition PopUint8 (buf : bytes) : option (Z * bytes) :=
  match buf with
  | b :: rest => Some (b, rest)
  | _ => None
  end.

Definition PopUint16 (buf : bytes) : option (Z * bytes) :=
  match buf with
  | b1 :: b0 :: rest => Some (decode_u16 b1 b0, rest)
  | _ => None
  end.

Definition PopUint32 (buf : bytes) : option (Z * bytes) :=
  match buf with
  | b3 :: b2 :: b1 :: b0 :: rest => Some (decode_u32 b3 b2 b1 b0, rest)
  | _ => None
  end.

(** [buf[:n]] and [buf[n:]] together; out of range panics. *)
Definition split_at (n : Z) (buf : bytes) : option (bytes * bytes) :=
  if (0 <=? n) && (n <=? Z.of_nat (length buf))
  then Some (take (Z.to_nat n) buf, drop (Z.to_nat n) buf)
  else None.

Definition PopBytes (buf : bytes) : option (bytes * bytes) :=
  '(n, rest) ← PopUint32 buf;
  split_at n rest.

Definition PopUUID (buf : bytes) : option (bytes * bytes) :=
  split_at 16 buf.

Definition bytes_of_string (s : string) : bytes :=
  map (fun a => Z.of_N (N_of_ascii a)) (list_ascii_of_string s).

Definition string_of_bytes (b : bytes) : string :=
  string_of_list_ascii (map (fun z => ascii_of_N (Z.to_N z)) b).

Definition PopString (buf : bytes) : option (string * bytes) :=
  '(b, rest) ← PopBytes buf;
  Some (string_of_bytes b, rest).

Definition PushUint8 (buf : bytes) (n : Z) : bytes := buf ++ [uint8 n].

Definition PushUint16 (buf : bytes) (n : Z) : bytes := buf ++ encode_u16 n.

Definition PushUint32 (buf : bytes) (n : Z) : bytes := buf ++ encode_u32 n.

Definition PushBytes (buf : bytes) (b : bytes) : bytes :=
  buf ++ encode_u32 (Z.of_nat (length b)) ++ b.

Definition PushString (buf : bytes) (s : string) : bytes :=
  PushBytes buf (bytes_of_string s).

(** [PutMsgLength] writes [len(buf) - 1] into the four bytes that follow
    the type byte; a buffer shorter than five bytes panics. *)
Definition PutMsgLength (buf : bytes) : option bytes :=
  match buf with
  | t :: _ :: _ :: _ :: _ :: payload =>
      Some (t :: encode_u32 (Z.of_nat (length buf) - 1) ++ payload)
  | _ => None
  end.

(** [PopMessage] scrolls the buffer past the next message and returns the
    message, type byte and length included. *)
Definition PopMessage (buf : bytes) : option (bytes * bytes) :=
  match buf with
  | _ :: b3 :: b2 :: b1 :: b0 :: _ =>
      split_at (decode_u32 b3 b2 b1 b0 + 1) buf
  | _ => None
  end.

(** One framed message, as the peer writes it. *)
Definition frame (mType : Z) (payload : bytes) : bytes :=
  mType :: encode_u32 (Z.of_nat (length payload) + 4) ++ payload.

Definition stream (ms : list (Z * bytes)) : bytes :=
  concat (map (fun m => frame (fst m) (snd m)) ms).

End protocol.

(** Modelled from the spec: the message tags of package [message], which is
    not under src/.  The table of section 6 names the messages; the byte
    values are those of the server's binary protocol. *)
Module message.
Definition Prepare : Z := 0x50.
Definition PrepareComplete : Z := 0x31.
Definition DescribeStatement : Z := 0x44.
Definition CommandDataDescription : Z := 0x54.
Definition Execute : Z := 0x45.
Definition OptimisticExecute : Z := 0x4f.
Definition Data : Z := 0x44.
Definition CommandComplete : Z := 0x43.
Definition ReadyForCommand : Z := 0x5a.
Definition ErrorResponse : Z := 0x45.
Definition Sync : Z := 0x53.
Definition ExecuteScript : Z := 0x51.
End message.

(** Modelled from the spec: the constants of packages [cardinality],
    [format] and [aspect], which are not under src/. *)
Module cardinality.
Definition One : Z := 0x6f.
Definition Many : Z := 0x6d.
End cardinality.

Module format.
Definition Binary : Z := 0x62.
Definition JSON : Z := 0x6a.
End format.

Module aspect.
Definition DataDescription : Z := 0x54.
End aspect.

(** ** Execution flow ([edgedb/granular_flow.go]) *)

Module granular.

(** [reflect.Type], as far as the flow looks at it: a type is named or is a
    slice of another type. *)
Inductive rtype :=
| TNamed (name : string)
| TSlice (elem : rtype).

(** [tp.Elem()] panics on a type that has no element type. *)
Definition Elem (tp : rtype) : option rtype :=
  match tp with
  | TSlice e => Some e
  | TNamed _ => None
  end.

Fixpoint rtype_depth (tp : rtype) : nat :=
  match tp with
  | TNamed _ => O
  | TSlice e => S (rtype_depth e)
  end.

Fixpoint rtype_base (tp : rtype) : string :=
  match tp with
  | TNamed s => s
  | TSlice e => rtype_base e
  end.

Fixpoint rtype_make (n : nat) (s : string) : rtype :=
  match n with
  | O => TNamed s
  | S k => TSlice (rtype_make k s)
  end.

#[global] Instance rtype_eq_dec : EqDecision rtype.
Proof. solve_decision. Defined.

#[global] Program Instance rtype_countable : Countable rtype :=
  inj_countable' (fun t => (rtype_depth t, rtype_base t))
                 (fun p => rtype_make (fst p) (snd p)) _.
Next Obligation.
  intros t; cbn [fst snd]; induction t as [n | e IH]; cbn; [ reflexivity | now rewrite IH ].
Qed.

(** The values a query works on: scalars of the caller's types, the
    argument list, and the zero value of a named type. *)
Class Values := {
  V : Type;
  Args : Type;
  zeroScalar : string -> V
}.

Section Flow.
Context `{Values}.

(** What a [reflect.Value] holds: a scalar or a slice of values. *)
Inductive rvalue :=
| Scalar (v : V)
| Slice (l : list rvalue).

(** [reflect.New(tp).Elem()]: the zero value of [tp]; a nil slice for a
    slice type. *)
Definition zero (tp : rtype) : rvalue :=
  match tp with
  | TNamed s => Scalar (zeroScalar s)
  | TSlice _ => Slice []
  end.

(** Modelled from the spec: the errors of the flow.  [ErrorZeroResults] is
    the sentinel of the result policy (section 4.6); a server error is the
    decoded [ErrorResponse] (section 7: severity, numeric code, message);
    any other failure carries its text. *)
Inductive error :=
| ErrorZeroResults
| ServerError (severity code : Z) (message : string)
| OtherError (message : string).

(** Modelled from the spec: [decodeError] is not under src/.  It reads the
    fields of an [ErrorResponse] the way the older connection code does
    inline: message length, severity, code, message text. *)
Definition decodeError (msg : bytes) : option error :=
  '(_, msg) ← protocol.PopUint32 msg;
  '(severity, msg) ← protocol.PopUint8 msg;
  '(code, msg) ← protocol.PopUint32 msg;
  '(message, _) ← protocol.PopString msg;
  Some (ServerError severity code message).

(** The codec interfaces of this version of the driver: [Encode] pushes the
    arguments onto the buffer, [Decode] reads one value from the message
    into the destination; either may panic. *)
Record Encoder := {
  enc_ID : bytes;
  Encode : bytes -> Args -> option bytes
}.

Record Decoder := {
  dec_ID : bytes;
  Decode : bytes -> rvalue -> option rvalue
}.

Record codecPair := {
  codecIn : Encoder;
  codecOut : Decoder
}.

Record query := {
  cmd : string;
  fmt : Z;
  expCard : Z;
  args : Args
}.

(** Modelled from the spec: [query.flat] is not under src/.  A query is
    flat when a single result is written straight into the destination,
    that is when its expected cardinality is not "many" (section 4.6). *)
Definition flat (q : query) : bool :=
  negb (expCard q =? cardinality.Many).

Record idPair := {
  id_in : bytes;
  id_out : bytes
}.

Record descPair := {
  desc_in : bytes;
  desc_out : bytes
}.

(** Modelled from the spec: the connection, handed to the core as an
    ordered reliable byte stream (section 1).  [sent] logs every batch
    written; [replies] holds what each coming round trip reads back, a
    whole response or a transport error. *)
Record conn := {
  sent : list bytes;
  replies : list (error + bytes)
}.

(** Modelled from the spec: [writeAndRead] writes the batch in one call and
    replaces the buffer by the whole response. *)
Definition writeAndRead (c : conn) (buf : bytes) : conn * (error + bytes) :=
  match replies c with
  | [] => ({| sent := sent c ++ [buf]; replies := [] |},
           inl (OtherError "EOF"))
  | r :: rs => ({| sent := sent c ++ [buf]; replies := rs |}, r)
  end.

(** Modelled from the spec: the codec builder and the process-wide caches
    (section 4.5) are not under src/.  The builder is a parameter.  The
    codec cache is keyed by query text, cardinality, format and output
    type; the descriptor caches by the query and by the pair of descriptor
    ids.  Entries are never invalidated. *)
Class CodecBuilder := buildCodecs : query -> rtype -> descPair -> codecPair + error.

Record caches := {
  codecCache : gmap (string * Z * Z * rtype) codecPair;
  descCache : gmap (string * Z * Z) descPair;
  descIDCache : gmap (bytes * bytes) descPair
}.

Definition getCodecs (w : caches) (q : query) (tp : rtype) : option codecPair :=
  codecCache w !! (cmd q, expCard q, fmt q, tp).

Definition putCodecs (w : caches) (q : query) (tp : rtype) (cdcs : codecPair) : caches :=
  {| codecCache := <[(cmd q, expCard q, fmt q, tp) := cdcs]> (codecCache w);
     descCache := descCache w;
     descIDCache := descIDCache w |}.

Definition getDescriptors (w : caches) (q : query) : option descPair :=
  descCache w !! (cmd q, expCard q, fmt q).

Definition putDescriptors (w : caches) (q : query) (descs : descPair) : caches :=
  {| codecCache := codecCache w;
     descCache := <[(cmd q, expCard q, fmt q) := descs]> (descCache w);
     descIDCache := descIDCache w |}.

Definition getDescriptorsByID (w : caches) (ids : idPair) : option descPair :=
  descIDCache w !! (id_in ids, id_out ids).

Definition putDescriptorsByID (w : caches) (ids : idPair) (descs : descPair) : caches :=
  {| codecCache := codecCache w;
     descCache := descCache w;
     descIDCache := <[(id_in ids, id_out ids) := descs]> (descIDCache w) |}.

Definition syncMsg : bytes := [message.Sync; 0; 0; 0; 4].

(** *** prepare *)

Definition prepareRequest (q : query) : option bytes :=
  let buf := [message.Prepare; 0; 0; 0; 0] in
  let buf := protocol.PushUint16 buf 0 in
  let buf := protocol.PushUint8 buf (fmt q) in
  let buf := protocol.PushUint8 buf (expCard q) in
  let buf := protocol.PushBytes buf [] in
  let buf := protocol.PushString buf (cmd q) in
  buf ← protocol.PutMsgLength buf;
  Some (buf ++ syncMsg).

(** The loop [for len(buf) > 4] of [prepare]; [inr] is a return from inside
    the loop. *)
Fixpoint prepare_loop (fuel : nat) (buf : bytes) (ids : idPair)
  : outcome (idPair + idPair * error) :=
  if negb (4 <? Z.of_nat (length buf)) then Return (inl ids) else
  match fuel with
  | O => OutOfFuel
  | S fuel =>
    bind (orPanic (protocol.PopMessage buf)) (fun '(msg, buf) =>
    bind (orPanic (protocol.PopUint8 msg)) (fun '(mType, msg) =>
    if mType =? message.PrepareComplete then
      bind (orPanic (protocol.PopUint32 msg)) (fun '(_, msg) =>
      bind (orPanic (protocol.PopUint16 msg)) (fun '(_, msg) =>
      bind (orPanic (protocol.PopUint8 msg)) (fun '(_, msg) =>
      bind (orPanic (protocol.PopUUID msg)) (fun '(i, msg) =>
      bind (orPanic (protocol.PopUUID msg)) (fun '(o, msg) =>
      prepare_loop fuel buf {| id_in := i; id_out := o |})))))
    else if mType =? message.ReadyForCommand then
      prepare_loop fuel buf ids
    else if mType =? message.ErrorResponse then
      bind (orPanic (decodeError msg)) (fun e => Return (inr (ids, e)))
    else Panic))
  end.

Definition zeroIDs : idPair :=
  {| id_in := replicate 16 0; id_out := replicate 16 0 |}.

Definition prepare (c : conn) (q : query) : outcome (conn * idPair * option error) :=
  bind (orPanic (prepareRequest q)) (fun buf =>
  let '(c, r) := writeAndRead c buf in
  match r with
  | inl e => Return (c, zeroIDs, Some e)
  | inr buf =>
    bind (prepare_loop (length buf) buf zeroIDs) (fun r =>
    match r with
    | inl ids => Return (c, ids, None)
    | inr (ids, e) => Return (c, ids, Some e)
    end)
  end).

(** *** describe *)

Definition describeRequest : option bytes :=
  let buf := [message.DescribeStatement; 0; 0; 0; 0] in
  let buf := protocol.PushUint16 buf 0 in
  let buf := protocol.PushUint8 buf aspect.DataDescription in
  let buf := protocol.PushUint32 buf 0 in
  buf ← protocol.PutMsgLength buf;
  Some (buf ++ syncMsg).

Fixpoint describe_loop (fuel : nat) (buf : bytes) (descs : descPair)
  : outcome (descPair + descPair * error) :=
  if negb (4 <? Z.of_nat (length buf)) then Return (inl descs) else
  match fuel with
  | O => OutOfFuel
  | S fuel =>
    bind (orPanic (protocol.PopMessage buf)) (fun '(msg, buf) =>
    bind (orPanic (protocol.PopUint8 msg)) (fun '(mType, msg) =>
    if mType =? message.CommandDataDescription then
      bind (orPanic (protocol.PopUint32 msg)) (fun '(_, msg) =>
      bind (orPanic (protocol.PopUint16 msg)) (fun '(_, msg) =>
      bind (orPanic (protocol.PopUint8 msg)) (fun '(_, msg) =>
      bind (orPanic (protocol.PopUUID msg)) (fun '(_, msg) =>
      bind (orPanic (protocol.PopBytes msg)) (fun '(din, msg) =>
      bind (orPanic (protocol.PopUUID msg)) (fun '(_, msg) =>
      bind (orPanic (protocol.PopBytes msg)) (fun '(dout, msg) =>
      describe_loop fuel buf
        {| desc_in := desc_in descs ++ din;
           desc_out := desc_out descs ++ dout |})))))))
    else if mType =? message.ReadyForCommand then
      describe_loop fuel buf descs
    else if mType =? message.ErrorResponse then
      bind (orPanic (decodeError msg)) (fun e => Return (inr (descs, e)))
    else Panic))
  end.

Definition zeroDescs : descPair := {| desc_in := []; desc_out := [] |}.

Definition describe (c : conn) : outcome (conn * descPair * option error) :=
  bind (orPanic describeRequest) (fun buf =>
  let '(c, r) := writeAndRead c buf in
  match r with
  | inl e => Return (c, zeroDescs, Some e)
  | inr buf =>
    bind (describe_loop (length buf) buf zeroDescs) (fun r =>
    match r with
    | inl descs => Return (c, descs, None)
    | inr (descs, e) => Return (c, descs, Some e)
    end)
  end).

(** How [pesimistic] gets the descriptors once [prepare] gave [ids]: from
    the cache by id, or from [describe], whose answer it caches. *)
Definition obtained (w : caches) (c1 : conn) (ids : idPair)
    (w1 : caches) (c2 : conn) (descs : descPair) : Prop :=
  (getDescriptorsByID w ids = Some descs /\ c2 = c1 /\ w1 = w) \/
  (getDescriptorsByID w ids = None /\
   describe c1 = Return (c2, descs, None) /\
   w1 = putDescriptorsByID w ids descs).

(** *** execute and optimistic *)

(** The variables of the response loop.  [out] is the caller's destination;
    [o] starts as a copy of the [reflect.Value] [out], which refers to the
    same slice ([None]: [o] still is [out]), and becomes a slice value of
    its own at the first [reflect.Append] ([Some]). *)
Record loopState := {
  buf : bytes;
  out : rvalue;
  o : option (list rvalue);
  err : option error
}.

(** [out.SetLen(0)] panics on anything but a slice. *)
Definition SetLen0 (v : rvalue) : option rvalue :=
  match v with
  | Slice l => Some (Slice (take 0 l))
  | Scalar _ => None
  end.

(** The elements [reflect.Append(o, val)] starts from. *)
Definition elemsOf (s : loopState) : option (list rvalue) :=
  match o s with
  | Some l => Some l
  | None => match out s with
            | Slice l => Some l
            | Scalar _ => None
            end
  end.

(** [out.Set(o)]. *)
Definition SetOut (s : loopState) : rvalue :=
  match o s with
  | Some l => Slice l
  | None => out s
  end.

(** The [Data] case, once the fields before the value are skipped. *)
Definition onData (q : query) (tp : rtype) (cdcs : codecPair)
    (msg rest : bytes) (s : loopState) : outcome loopState :=
  if negb (flat q) then
    bind (orPanic (Decode (codecOut cdcs) msg (zero tp))) (fun val =>
    bind (orPanic (elemsOf s)) (fun l =>
    Return {| buf := rest; out := out s; o := Some (l ++ [val]); err := None |}))
  else
    bind (orPanic (Decode (codecOut cdcs) msg (out s))) (fun v =>
    Return {| buf := rest; out := v; o := o s; err := None |}).

(** The loop [for len(buf) > 0] of [execute]; [inr] is the return from the
    [ErrorResponse] case, with the variables as they are at that point. *)
Fixpoint execute_loop (fuel : nat) (q : query) (tp : rtype) (cdcs : codecPair)
    (s : loopState) : outcome (loopState + loopState * error) :=
  if negb (0 <? Z.of_nat (length (buf s))) then Return (inl s) else
  match fuel with
  | O => OutOfFuel
  | S fuel =>
    bind (orPanic (protocol.PopMessage (buf s))) (fun '(msg, rest) =>
    bind (orPanic (protocol.PopUint8 msg)) (fun '(mType, msg) =>
    if mType =? message.Data then
      bind (orPanic (protocol.PopUint32 msg)) (fun '(_, msg) =>
      bind (orPanic (protocol.PopUint16 msg)) (fun '(_, msg) =>
      bind (onData q tp cdcs msg rest s) (execute_loop fuel q tp cdcs)))
    else if mType =? message.CommandComplete then
      execute_loop fuel q tp cdcs
        {| buf := rest; out := out s; o := o s; err := err s |}
    else if mType =? message.ReadyForCommand then
      execute_loop fuel q tp cdcs
        {| buf := rest; out := out s; o := o s; err := err s |}
    else if mType =? message.ErrorResponse then
      bind (orPanic (decodeError msg)) (fun e =>
      Return (inr ({| buf := rest; out := out s; o := o s; err := err s |}, e)))
    else Panic))
  end.

(** The loop of [optimistic]: the same, with [msg = msg[6:]] in the [Data]
    case. *)
Fixpoint optimistic_loop (fuel : nat) (q : query) (tp : rtype) (cdcs : codecPair)
    (s : loopState) : outcome (loopState + loopState * error) :=
  if negb (0 <? Z.of_nat (length (buf s))) then Return (inl s) else
  match fuel with
  | O => OutOfFuel
  | S fuel =>
    bind (orPanic (protocol.PopMessage (buf s))) (fun '(msg, rest) =>
    bind (orPanic (protocol.PopUint8 msg)) (fun '(mType, msg) =>
    if mType =? message.Data then
      bind (orPanic (snd <$> protocol.split_at 6 msg)) (fun msg =>
      bind (onData q tp cdcs msg rest s) (optimistic_loop fuel q tp cdcs))
    else if mType =? message.CommandComplete then
      optimistic_loop fuel q tp cdcs
        {| buf := rest; out := out s; o := o s; err := err s |}
    else if mType =? message.ReadyForCommand then
      optimistic_loop fuel q tp cdcs
        {| buf := rest; out := out s; o := o s; err := err s |}
    else if mType =? message.ErrorResponse then
      bind (orPanic (decodeError msg)) (fun e =>
      Return (inr ({| buf := rest; out := out s; o := o s; err := err s |}, e)))
    else Panic))
  end.

(** What a call of the flow hands back: the connection, the destination,
    the part of the response buffer the call never looked at, and the
    error it returns. *)
Record flowResult := {
  r_conn : conn;
  r_out : rvalue;
  r_unread : bytes;
  r_err : option error
}.

(** What follows the round trip in [execute] and [optimistic], for either
    loop. *)
Definition consume
    (loop : nat -> query -> rtype -> codecPair -> loopState ->
            outcome (loopState + loopState * error))
    (c : conn) (dst : rvalue) (q : query) (tp : rtype) (cdcs : codecPair)
    (resp : bytes) : outcome flowResult :=
  bind (if negb (flat q) then orPanic (SetLen0 dst) else Return dst) (fun dst =>
  bind (loop (length resp) q tp cdcs
          {| buf := resp; out := dst; o := None; err := Some ErrorZeroResults |})
       (fun r =>
  match r with
  | inr (s, e) =>
      Return {| r_conn := c; r_out := out s; r_unread := buf s; r_err := Some e |}
  | inl s =>
      Return {| r_conn := c;
                r_out := if negb (flat q) then SetOut s else out s;
                r_unread := buf s;
                r_err := err s |}
  end)).

Definition executeRequest (q : query) (cdcs : codecPair) : option bytes :=
  let buf := [message.Execute; 0; 0; 0; 0] in
  let buf := protocol.PushUint16 buf 0 in
  let buf := protocol.PushBytes buf [] in
  buf ← Encode (codecIn cdcs) buf (args q);
  buf ← protocol.PutMsgLength buf;
  Some (buf ++ syncMsg).

Definition execute (c : conn) (dst : rvalue) (q : query) (tp : rtype)
    (cdcs : codecPair) : outcome flowResult :=
  bind (orPanic (executeRequest q cdcs)) (fun buf =>
  let '(c, r) := writeAndRead c buf in
  match r with
  | inl e => Return {| r_conn := c; r_out := dst; r_unread := []; r_err := Some e |}
  | inr resp => consume execute_loop c dst q tp cdcs resp
  end).

Definition optimisticRequest (q : query) (cdcs : codecPair) : option bytes :=
  let inID := enc_ID (codecIn cdcs) in
  let outID := dec_ID (codecOut cdcs) in
  let buf := [] in
  let buf := buf ++ [message.OptimisticExecute; 0; 0; 0; 0; 0; 0;
                     protocol.uint8 (fmt q); protocol.uint8 (expCard q)] in
  let buf := protocol.PushString buf (cmd q) in
  let buf := buf ++ inID in
  let buf := buf ++ outID in
  buf ← Encode (codecIn cdcs) buf (args q);
  buf ← protocol.PutMsgLength buf;
  Some (buf ++ syncMsg).

Definition optimistic (c : conn) (dst : rvalue) (q : query) (tp : rtype)
    (cdcs : codecPair) : outcome flowResult :=
  bind (orPanic (optimisticRequest q cdcs)) (fun buf =>
  let '(c, r) := writeAndRead c buf in
  match r with
  | inl e => Return {| r_conn := c; r_out := dst; r_unread := []; r_err := Some e |}
  | inr resp => consume optimistic_loop c dst q tp cdcs resp
  end).

(** *** The response as a list of messages

    The views below are used to state what the loops do on a response that
    is a sequence of framed messages: the loop walked message by message,
    the rows a non-flat query decodes, and the value a flat query ends
    with. *)

Definition lengthField (p : bytes) : bytes :=
  protocol.encode_u32 (Z.of_nat (length p) + 4).

Definition advance (s : loopState) (rest : bytes) : loopState :=
  {| buf := rest; out := out s; o := o s; err := err s |}.

Fixpoint msgs_loop (q : query) (tp : rtype) (cdcs : codecPair)
    (ms : list (Z * bytes)) (s : loopState)
    : outcome (loopState + loopState * error) :=
  match ms with
  | [] => Return (inl s)
  | (mType, p) :: ms =>
    let rest := protocol.stream ms in
    if mType =? message.Data then
      bind (orPanic (protocol.PopUint16 p)) (fun '(_, v) =>
      bind (onData q tp cdcs v rest s) (msgs_loop q tp cdcs ms))
    else if mType =? message.CommandComplete then
      msgs_loop q tp cdcs ms (advance s rest)
    else if mType =? message.ReadyForCommand then
      msgs_loop q tp cdcs ms (advance s rest)
    else if mType =? message.ErrorResponse then
      bind (orPanic (decodeError (lengthField p ++ p))) (fun e =>
      Return (inr (advance s rest, e)))
    else Panic
  end.

Definition isData (m : Z * bytes) : bool := fst m =? message.Data.

(** A message the loops pass over without touching the destination. *)
Definition isQuiet (m : Z * bytes) : bool :=
  (fst m =? message.CommandComplete) || (fst m =? message.ReadyForCommand).

Definition dataCount (ms : list (Z * bytes)) : nat :=
  length (filter (fun m => isData m = true) ms).

(** The value carried by a [Data] message: what follows the 16-bit count
    of elements. *)
Definition dataValue (p : bytes) : option bytes :=
  snd <$> protocol.PopUint16 p.

(** The rows of a non-flat query: each [Data] message decoded into a fresh
    zero value, in the order of arrival. *)
Fixpoint decodeRows (tp : rtype) (cdcs : codecPair) (ms : list (Z * bytes))
    : option (list rvalue) :=
  match ms with
  | [] => Some []
  | m :: ms =>
    if isData m then
      v ← dataValue (snd m);
      row ← Decode (codecOut cdcs) v (zero tp);
      rows ← decodeRows tp cdcs ms;
      Some (row :: rows)
    else if isQuiet m then decodeRows tp cdcs ms
    else None
  end.

(** The destination of a flat query: each [Data] message decoded into the
    value the destination holds at that point. *)
Fixpoint decodeInto (cdcs : codecPair) (ms : list (Z * bytes)) (dst : rvalue)
    : option rvalue :=
  match ms with
  | [] => Some dst
  | m :: ms =>
    if isData m then
      v ← dataValue (snd m);
      dst ← Decode (codecOut cdcs) v dst;
      decodeInto cdcs ms dst
    else if isQuiet m then decodeInto cdcs ms dst
    else None
  end.

(** Every payload fits the 32-bit length of its frame. *)
Definition framed (ms : list (Z * bytes)) : Prop :=
  Forall (fun m => Z.of_nat (length (snd m)) + 4 < 4294967296) ms.

(** An encoder that only pushes onto the buffer it is given. *)
Definition appends (e : Encoder) : Prop :=
  forall b a b', Encode e b a = Some b' -> exists t, b' = b ++ t.

(** The destination at the moment an [ErrorResponse] is met, after the
    messages [pre]: a flat query has decoded into it, a non-flat one has
    only emptied it (its rows are still in [o]). *)
Definition outAtError (q : query) (tp : rtype) (cdcs : codecPair)
    (pre : list (Z * bytes)) (dst : rvalue) : option rvalue :=
  if flat q then decodeInto cdcs pre dst
  else _ ← decodeRows tp cdcs pre; SetLen0 dst.

(** The reading of the result policy that ties the zero-results error to
    cardinality one: a call for cardinality many does not return it. *)
Definition tiedToOne (q : query) (r : outcome flowResult) : Prop :=
  expCard q = cardinality.Many ->
  forall x, r = Return x -> r_err x <> Some ErrorZeroResults.

(** The reading of response consumption that has the call look at every
    message up to the end of the response before it returns. *)
Definition drained (r : outcome flowResult) : Prop :=
  forall x, r = Return x -> r_unread x = [].

(** The payload of a [CommandDataDescription] message: headers count,
    cardinality, then for the arguments and for the result an id and a
    length-prefixed descriptor. *)
Definition descriptionPayload (h1 h0 card : Z) (uin din uout dout extra : bytes)
    : bytes :=
  h1 :: h0 :: card ::
    uin ++ (protocol.encode_u32 (Z.of_nat (length din)) ++ din ++
    uout ++ (protocol.encode_u32 (Z.of_nat (length dout)) ++ dout ++ extra)).

(** What the caller sees of a call apart from the connection. *)
Definition observed (r : outcome flowResult)
    : outcome (rvalue * bytes * option error) :=
  bind r (fun x => Return (r_out x, r_unread x, r_err x)).

(** The connection once [req] is written and the first reply is read. *)
Definition afterWrite (c : conn) (req : bytes) (rs : list (error + bytes)) : conn :=
  {| sent := sent c ++ [req]; replies := rs |}.

(** The type of a written batch: its first byte. *)
Definition batchType (b : bytes) : option Z := head b.

(** The batches written between two states of the connection, and whether
    one of them opens a negotiation round trip. *)
Definition newBatches (c c' : conn) : list bytes :=
  drop (length (sent c)) (sent c').

Definition sendsNegotiation (c c' : conn) : Prop :=
  exists b, In b (newBatches c c') /\
    (batchType b = Some message.Prepare \/
     batchType b = Some message.DescribeStatement).

(** *** pesimistic and granularFlow *)

Context {builder : CodecBuilder}.

Definition failed (c : conn) (dst : rvalue) (e : error) : flowResult :=
  {| r_conn := c; r_out := dst; r_unread := []; r_err := Some e |}.

Definition pesimistic (w : caches) (c : conn) (dst : rvalue) (q : query)
    (tp : rtype) : outcome (caches * flowResult) :=
  bind (prepare c q) (fun '(c, ids, e) =>
  match e with
  | Some e => Return (w, failed c dst e)
  | None =>
    bind (match getDescriptorsByID w ids with
          | Some descs => Return (w, c, descs, None)
          | None =>
            bind (describe c) (fun '(c, descs, e) =>
            match e with
            | Some e => Return (w, c, descs, Some e)
            | None => Return (putDescriptorsByID w ids descs, c, descs, None)
            end)
          end) (fun '(w, c, descs, e) =>
    match e with
    | Some e => Return (w, failed c dst e)
    | None =>
      let w := putDescriptors w q descs in
      match buildCodecs q tp descs with
      | inr e => Return (w, failed c dst e)
      | inl cdcs =>
        let w := putCodecs w q tp cdcs in
        bind (execute c dst q tp cdcs) (fun r => Return (w, r))
      end
    end)
  end).

(** [outT] is [out.Type()]. *)
Definition granularFlow (w : caches) (c : conn) (outT : rtype) (dst : rvalue)
    (q : query) : outcome (caches * flowResult) :=
  bind (if negb (flat q) then orPanic (Elem outT) else Return outT) (fun tp =>
  match getCodecs w q tp with
  | Some cdcs =>
      bind (optimistic c dst q tp cdcs) (fun r => Return (w, r))
  | None =>
    match getDescriptors w q with
    | Some descs =>
      match buildCodecs q tp descs with
      | inr e => Return (w, failed c dst e)
      | inl cdcs =>
        let w := putCodecs w q tp cdcs in
        bind (optimistic c dst q tp cdcs) (fun r => Return (w, r))
      end
    | None => pesimistic w c dst q tp
    end
  end).

End Flow.
End granular.

(** ** Object decoder (package [codecs]) *)

Module codecs.

(** [reflect.Kind] and its [String] method. *)
Inductive Kind :=
| Invalid | Bool | Int | Int8 | Int16 | Int32 | Int64
| Uint | Uint8 | Uint16 | Uint32 | Uint64 | Uintptr
| Float32 | Float64 | Complex64 | Complex128
| Array | Chan | Func | Interface | Map | Ptr | Slice | String_ | Struct
| UnsafePointer.

Definition Kind_String (k : Kind) : string :=
  match k with
  | Invalid => "invalid" | Bool => "bool" | Int => "int" | Int8 => "int8"
  | Int16 => "int16" | Int32 => "int32" | Int64 => "int64"
  | Uint => "uint" | Uint8 => "uint8" | Uint16 => "uint16"
  | Uint32 => "uint32" | Uint64 => "uint64" | Uintptr => "uintptr"
  | Float32 => "float32" | Float64 => "float64"
  | Complex64 => "complex64" | Complex128 => "complex128"
  | Array => "array" | Chan => "chan" | Func => "func"
  | Interface => "interface" | Map => "map" | Ptr => "ptr"
  | Slice => "slice" | String_ => "string" | Struct => "struct"
  | UnsafePointer => "unsafe.Pointer"
  end.

#[global] Instance Kind_eq_dec : EqDecision Kind.
Proof. solve_decision. Defined.

(** [reflect.Type], as far as the builder looks at it: how [%v] prints it,
    its kind, and whether a pointer to it implements
    [OptionalUnmarshaler]. *)
Record Type_ := {
  type_name : string;
  kind : Kind;
  ptrImplementsOptionalUnmarshaler : bool
}.

Record StructFieldInfo := {
  sf_Type : Type_;
  sf_Offset : Z
}.

(** [descriptor.Descriptor] and its fields. *)
Inductive Descriptor :=
| mkDescriptor (ID : bytes) (Fields : list Field)
with Field :=
| mkField (Name : string) (Desc : Descriptor) (Required : bool).

Definition ID (d : Descriptor) : bytes :=
  match d with mkDescriptor i _ => i end.
Definition Fields (d : Descriptor) : list Field :=
  match d with mkDescriptor _ fs => fs end.
Definition Name (f : Field) : string :=
  match f with mkField n _ _ => n end.
Definition Desc (f : Field) : Descriptor :=
  match f with mkField _ d _ => d end.
Definition Required (f : Field) : bool :=
  match f with mkField _ _ r => r end.

(** [descriptor.V2] and its fields, and the descriptor of the first
    protocol version with the same content. *)
Inductive V2 :=
| mkV2 (ID : bytes) (Fields : list FieldV2)
with FieldV2 :=
| mkFieldV2 (Name : string) (Desc : V2) (Required : bool).

Definition ID2 (d : V2) : bytes :=
  match d with mkV2 i _ => i end.
Definition Fields2 (d : V2) : list FieldV2 :=
  match d with mkV2 _ fs => fs end.
Definition Name2 (f : FieldV2) : string :=
  match f with mkFieldV2 n _ _ => n end.
Definition Desc2 (f : FieldV2) : V2 :=
  match f with mkFieldV2 _ d _ => d end.
Definition Required2 (f : FieldV2) : bool :=
  match f with mkFieldV2 _ _ r => r end.

Fixpoint toDescriptor (d : V2) : Descriptor :=
  match d with
  | mkV2 i fs =>
      mkDescriptor i
        (map (fun f => match f with
                       | mkFieldV2 n d r => mkField n (toDescriptor d) r
                       end) fs)
  end.

Definition toField (f : FieldV2) : Field :=
  match f with mkFieldV2 n d r => mkField n (toDescriptor d) r end.

(** The dynamic types of the decoders, [reflect.TypeOf(child)]: those the
    lookup table lists, the optional object decoder, and any other. *)
Inductive codecType :=
| BoolCodec | BytesCodec | DateTimeCodec | LocalDateTimeCodec
| LocalDateCodec | LocalTimeCodec | DurationCodec | RelativeDurationCodec
| namedTupleDecoder | Int16Codec | Int32Codec | Int64Codec
| Float32Codec | Float64Codec | BigIntCodec | objectDecoder
| StrCodec | tupleDecoder | UUIDCodec
| optionalObjectDecoder
| otherCodec (name : string).

Definition optionalTypeNameLookup (t : codecType) : option string :=
  match t with
  | BoolCodec => Some "edgedb.OptionalBool"
  | BytesCodec => Some "edgedb.OptionalBytes"
  | DateTimeCodec => Some "edgedb.OptionalDateTime"
  | LocalDateTimeCodec => Some "edgedb.OptionalLocalDateTime"
  | LocalDateCodec => Some "edgedb.OptionalLocalDate"
  | LocalTimeCodec => Some "edgedb.OptionalLocalTime"
  | DurationCodec => Some "edgedb.OptionalDuration"
  | RelativeDurationCodec => Some "edgedb.OptionalRelativeDuration"
  | namedTupleDecoder => Some "edgedb.Optional"
  | Int16Codec => Some "edgedb.OptionalInt16"
  | Int32Codec => Some "edgedb.OptionalInt32"
  | Int64Codec => Some "edgedb.OptionalInt64"
  | Float32Codec => Some "edgedb.OptionalFloat32"
  | Float64Codec => Some "edgedb.OptionalFloat64"
  | BigIntCodec => Some "edgedb.OptionalBigInt"
  | objectDecoder => Some "edgedb.Optional"
  | StrCodec => Some "edgedb.OptionalStr"
  | tupleDecoder => Some "edgedb.Optional"
  | UUIDCodec => Some "edgedb.OptionalUUID"
  | optionalObjectDecoder => None
  | otherCodec _ => None
  end.

(** The destination memory: decoders write through an address.
    [SetMissing typ b p] is the call of the method [SetMissing(b)] of the
    value of type [typ] at [p], found by reflection. *)
Class Memory := {
  Mem : Type;
  SetMissing : Type_ -> bool -> Z -> Mem -> Mem
}.

Definition error := string.

(** Modelled from the spec: the reader of package [buff] and the helper
    [pAdd] are not under src/.  [PopUint32] reads as in the wire buffer;
    [Discard] drops bytes; [PopSlice] bounds a new reader to exactly the
    next [n] bytes and moves this one past them (section 4.4); each panics
    on a buffer that is too short. *)
Definition Reader := bytes.

Definition PopUint32 (r : Reader) : option (Z * Reader) :=
  protocol.PopUint32 r.

Definition Discard (n : Z) (r : Reader) : option Reader :=
  snd <$> protocol.split_at n r.

Definition PopSlice (n : Z) (r : Reader) : option (Reader * Reader) :=
  protocol.split_at n r.

Definition pAdd (p : Z) (i : Z) : Z := (p + i) mod 2 ^ 64.

Section Decoders.
Context `{Memory}.

(** The [Decoder] interface.  [Decode] works on the reader it is given and
    leaves it where it stopped reading; it may panic.  [DecodeMissing] is
    there when the decoder also is an [OptionalDecoder]. *)
Record Decoder := {
  typeOf : codecType;
  DescriptorID : bytes;
  Decode : Reader -> Z -> Mem -> option (Reader * Mem * option error);
  DecodeMissing : option (Z -> Mem -> Mem)
}.

Record DecoderField := {
  name : string;
  offset : Z;
  decoder : Decoder
}.

(** The loop over the fields of [objectDecoder.Decode]. *)
Fixpoint decodeFields (fields : list DecoderField) (r : Reader) (out : Z)
    (m : Mem) : option (Reader * Mem * option error) :=
  match fields with
  | [] => Some (r, m, None)
  | field :: fields =>
    r ← Discard 4 r;
    let p := pAdd out (offset field) in
    '(elmLen, r) ← PopUint32 r;
    if elmLen =? 0xffffffff then
      missing ← DecodeMissing (decoder field);
      decodeFields fields r out (missing p m)
    else
      '(sub, r) ← PopSlice elmLen r;
      '(_, m, err) ← Decode (decoder field) sub p m;
      match err with
      | Some e => Some (r, m, Some e)
      | None => decodeFields fields r out m
      end
  end.

Definition wrongNumberOfFields (expected : nat) (got : Z) : error :=
  "wrong number of object fields: expected " +:+ pretty expected +:+
  ", got " +:+ pretty got.

Definition objectDecoder_Decode (fields : list DecoderField) (r : Reader)
    (out : Z) (m : Mem) : option (Reader * Mem * option error) :=
  '(elmCount, r) ← PopUint32 r;
  if negb (elmCount =? Z.of_nat (length fields)) then
    Some (r, m, Some (wrongNumberOfFields (length fields) elmCount))
  else decodeFields fields r out m.

Definition optionalObjectDecoder_DecodeMissing (typ : Type_) (out : Z)
    (m : Mem) : Mem :=
  SetMissing typ true out m.

Definition optionalObjectDecoder_Decode (fields : list DecoderField)
    (typ : Type_) (r : Reader) (out : Z) (m : Mem)
    : option (Reader * Mem * option error) :=
  let m := SetMissing typ false out m in
  objectDecoder_Decode fields r out m.

(** The two decoders as values of the interface. *)
Definition objectDecoderOf (id : bytes) (fields : list DecoderField) : Decoder :=
  {| typeOf := objectDecoder;
     DescriptorID := id;
     Decode := objectDecoder_Decode fields;
     DecodeMissing := None |}.

Definition optionalObjectDecoderOf (id : bytes) (fields : list DecoderField)
    (typ : Type_) : Decoder :=
  {| typeOf := optionalObjectDecoder;
     DescriptorID := id;
     Decode := optionalObjectDecoder_Decode fields typ;
     DecodeMissing := Some (optionalObjectDecoder_DecodeMissing typ) |}.

(** Where the reader stands after [n] elements, read off the bytes alone:
    four reserved bytes, a length, and that many bytes unless the length
    is the sentinel. *)
Fixpoint skipFields (n : nat) (r : Reader) : option Reader :=
  match n with
  | O => Some r
  | S n =>
    r ← Discard 4 r;
    '(elmLen, r) ← PopUint32 r;
    if elmLen =? 0xffffffff then skipFields n r
    else
      '(_, r) ← PopSlice elmLen r;
      skipFields n r
  end.

(** Modelled from the spec: [BuildDecoder], [introspect.StructField] and
    [Path.AddField] are not under src/.  The first two are parameters; a
    path grows by a dot and the field name (section 4.3). *)
Class Builder := {
  StructField : Type_ -> string -> option StructFieldInfo;
  BuildDecoder : Descriptor -> Type_ -> string -> Decoder + error
}.

Definition AddField (path : string) (field : string) : string :=
  path +:+ "." +:+ field.

Definition dquote : string := String (ascii_of_nat 34) EmptyString.

(** [%q] of a field name; names hold no character that needs an escape. *)
Definition fmt_q (s : string) : string := dquote +:+ s +:+ dquote.

Definition isOptional (d : Decoder) : bool :=
  match DecodeMissing d with
  | Some _ => true
  | None => false
  end.

Definition notRequiredError (sfType : Type_) (path fieldName typeName : string)
    : error :=
  "expected " +:+ type_name sfType +:+ " at " +:+ path +:+ "." +:+ fieldName
  +:+ " to be " +:+ typeName +:+ " because the field is not required".

(** The reading of the builder's error that has it always name a wrapper
    type of the lookup table. *)
Definition namesTableType (sfType : Type_) (path fieldName : string)
    (e : error) : Prop :=
  exists t n, optionalTypeNameLookup t = Some n /\
              e = notRequiredError sfType path fieldName n.

Context `{Builder}.

(** The loop over [desc.Fields] of [buildObjectDecoder]. *)
Fixpoint buildFields (fields : list Field) (typ : Type_) (path : string)
    : list DecoderField + error :=
  match fields with
  | [] => inl []
  | field :: rest =>
    match StructField typ (Name field) with
    | None =>
        inr ("expected " +:+ path +:+ " to have a field named "
             +:+ fmt_q (Name field))
    | Some sf =>
      match BuildDecoder (Desc field) (sf_Type sf) (AddField path (Name field)) with
      | inr e => inr e
      | inl child =>
        if negb (Required field) && negb (isOptional child) then
          let typeName :=
            match optionalTypeNameLookup (typeOf child) with
            | Some n => n
            | None => "OptionalUnmarshaler interface"
            end in
          inr (notRequiredError (sf_Type sf) path (Name field) typeName)
        else
          match buildFields rest typ path with
          | inr e => inr e
          | inl fs =>
              inl ({| name := Name field;
                      offset := sf_Offset sf;
                      decoder := child |} :: fs)
          end
      end
    end
  end.

Definition buildObjectDecoder (desc : Descriptor) (typ : Type_) (path : string)
    : Decoder + error :=
  if negb (bool_decide (kind typ = Struct)) then
    inr ("expected " +:+ path +:+ " to be a Struct got "
         +:+ Kind_String (kind typ))
  else
    match buildFields (Fields desc) typ path with
    | inr e => inr e
    | inl fields =>
      if ptrImplementsOptionalUnmarshaler typ
      then inl (optionalObjectDecoderOf (ID desc) fields typ)
      else inl (objectDecoderOf (ID desc) fields)
    end.

(** [buildObjectDecoderV2], over [descriptor.V2] and the child builder
    [BuildDecoderV2], which is not under src/ either. *)
Class BuilderV2 := BuildDecoderV2 : V2 -> Type_ -> string -> Decoder + error.

Context `{BuilderV2}.

Fixpoint buildFieldsV2 (fields : list FieldV2) (typ : Type_) (path : string)
    : list DecoderField + error :=
  match fields with
  | [] => inl []
  | field :: rest =>
    match StructField typ (Name2 field) with
    | None =>
        inr ("expected " +:+ path +:+ " to have a field named "
             +:+ fmt_q (Name2 field))
    | Some sf =>
      match BuildDecoderV2 (Desc2 field) (sf_Type sf)
              (AddField path (Name2 field)) with
      | inr e => inr e
      | inl child =>
        if negb (Required2 field) && negb (isOptional child) then
          let typeName :=
            match optionalTypeNameLookup (typeOf child) with
            | Some n => n
            | None => "OptionalUnmarshaler interface"
            end in
          inr (notRequiredError (sf_Type sf) path (Name2 field) typeName)
        else
          match buildFieldsV2 rest typ path with
          | inr e => inr e
          | inl fs =>
              inl ({| name := Name2 field;
                      offset := sf_Offset sf;
                      decoder := child |} :: fs)
          end
      end
    end
  end.

Definition buildObjectDecoderV2 (desc : V2) (typ : Type_) (path : string)
    : Decoder + error :=
  if negb (bool_decide (kind typ = Struct)) then
    inr ("expected " +:+ path +:+ " to be a Struct got "
         +:+ Kind_String (kind typ))
  else
    match buildFieldsV2 (Fields2 desc) typ path with
    | inr e => inr e
    | inl fields =>
      if ptrImplementsOptionalUnmarshaler typ
      then inl (optionalObjectDecoderOf (ID2 desc) fields typ)
      else inl (objectDecoderOf (ID2 desc) fields)
    end.

(** *** An object on the wire

    The bytes of an object value as [objectDecoder.Decode] reads them: the
    element count, then for each element four reserved bytes and either
    the sentinel length or the length and the bytes of the value. *)
Definition elemBytes (e : option bytes) : bytes :=
  [0; 0; 0; 0] ++
  match e with
  | None => [255; 255; 255; 255]
  | Some p => protocol.encode_u32 (Z.of_nat (length p)) ++ p
  end.

Definition objectBytes (elems : list (option bytes)) : bytes :=
  protocol.encode_u32 (Z.of_nat (length elems)) ++ concat (map elemBytes elems).

(** The fields decoded one after the other, each from its own element. *)
Fixpoint decodeElems (fields : list DecoderField) (elems : list (option bytes))
    (out : Z) (m : Mem) : option (Mem * option error) :=
  match fields, elems with
  | [], _ => Some (m, None)
  | _ :: _, [] => None
  | field :: fields, e :: elems =>
    let p := pAdd out (offset field) in
    match e with
    | None =>
      missing ← DecodeMissing (decoder field);
      decodeElems fields elems out (missing p m)
    | Some payload =>
      '(_, m, err) ← Decode (decoder field) payload p m;
      match err with
      | Some e => Some (m, Some e)
      | None => decodeElems fields elems out m
      end
    end
  end.

(** A result of [Decode] without the reader. *)
Definition forget (x : Reader * Mem * option error) : Mem * option error :=
  (snd (fst x), snd x).

(** Elements whose lengths fit the 32-bit length field and are not taken
    for the sentinel. *)
Definition fitsElems (elems : list (option bytes)) : Prop :=
  Z.of_nat (length elems) < 4294967296 /\
  Forall (fun e => match e with
                   | Some p => Z.of_nat (length p) < 4294967295
                   | None => True
                   end) elems.

End Decoders.
End codecs.

(** ** Script flow ([internal/client/scriptflow.go]) *)

Module scriptflow.

(** Modelled from the spec: the message tags of this version of the
    protocol, not under src/. *)
Definition CommandComplete : Z := 0x43.
Definition ReadyForCommand : Z := 0x5a.
Definition ErrorResponse : Z := 0x45.
Definition ExecuteScript : Z := 0x51.

(** Modelled from the spec: what the flow calls and src/ does not hold.
    [wrapAll] joins errors, [nil] among them; [decodeErrorResponseMsg]
    turns the payload of an [ErrorResponse] into a structured error for
    the command; [fallThrough] handles the messages the flow has no case
    for and fails on those it does not recognise. *)
Class Env := {
  error : Type;
  StateValue : Type;
  errStateNotSupported : error;
  wrapAll : option error -> option error -> option error;
  decodeErrorResponseMsg : bytes -> string -> error;
  fallThrough : Z -> bytes -> option error
}.

Section ScriptFlow.
Context `{Env}.

(** The query, as far as the flow looks at it; [headers0pX] is the result
    of the method of that name, in the order the map is ranged over. *)
Record query := {
  cmd : string;
  state : gmap string StateValue;
  headers0pX : list (Z * bytes)
}.

(** Modelled from the spec: [buff.Writer] (section 4.1).  The writer is
    created on an empty buffer and holds one message. *)
Definition Writer := bytes.

Definition NewWriter : Writer := [].

Definition BeginMessage (w : Writer) (mType : Z) : Writer :=
  w ++ [protocol.uint8 mType; 0; 0; 0; 0].

Definition EndMessage (w : Writer) : option Writer :=
  protocol.PutMsgLength w.

Definition writeHeaders (w : Writer) (headers : list (Z * bytes)) : Writer :=
  let w := protocol.PushUint16 w (Z.of_nat (length headers)) in
  fold_left (fun w kv =>
    let w := protocol.PushUint16 w (fst kv) in
    let w := protocol.PushUint32 w (Z.of_nat (length (snd kv))) in
    w ++ snd kv) headers w.

(** Modelled from the spec: the socket.  [WriteAll] hands the batch to the
    transport, or fails with the transport's error. *)
Record socket := {
  written : list bytes;
  writeError : option error
}.

Definition WriteAll (soc : socket) (b : bytes) : socket * option error :=
  match writeError soc with
  | Some e => (soc, Some e)
  | None => ({| written := written soc ++ [b]; writeError := None |}, None)
  end.

(** Modelled from the spec: [buff.Reader], one message at a time
    (section 4.6).  [incoming] are the messages not read yet, type and
    payload; when they run out before the flow is done the transport's
    failure [onEnd] is recorded in [Err]. *)
Record Reader := {
  incoming : list (Z * bytes);
  onEnd : error;
  MsgType : Z;
  Buf : bytes;
  Err : option error
}.

Definition Next (r : Reader) (done : bool) : Reader * bool :=
  if done then (r, false) else
  match Err r with
  | Some _ => (r, false)
  | None =>
    match incoming r with
    | [] =>
        ({| incoming := []; onEnd := onEnd r; MsgType := MsgType r;
            Buf := Buf r; Err := Some (onEnd r) |}, false)
    | (t, p) :: ms =>
        ({| incoming := ms; onEnd := onEnd r; MsgType := t;
            Buf := p; Err := None |}, true)
    end
  end.

(** The decoders of a message read its payload to the end. *)
Definition consumed (r : Reader) : Reader :=
  {| incoming := incoming r; onEnd := onEnd r; MsgType := MsgType r;
     Buf := []; Err := Err r |}.

(** The loop [for r.Next(done.Chan)]; [inr] is the return from inside the
    loop. *)
Fixpoint scriptLoop (fuel : nat) (cmd : string) (r : Reader) (done : bool)
    (err : option error) : outcome (Reader * (option error + error)) :=
  let '(r, more) := Next r done in
  if negb more then Return (r, inl err) else
  match fuel with
  | O => OutOfFuel
  | S fuel =>
    if MsgType r =? CommandComplete then
      scriptLoop fuel cmd (consumed r) done err
    else if MsgType r =? ReadyForCommand then
      scriptLoop fuel cmd (consumed r) true err
    else if MsgType r =? ErrorResponse then
      scriptLoop fuel cmd (consumed r) done
        (wrapAll err (Some (decodeErrorResponseMsg (Buf r) cmd)))
    else
      match fallThrough (MsgType r) (Buf r) with
      | Some e => Return (consumed r, inr e)
      | None => scriptLoop fuel cmd (consumed r) done err
      end
  end.

(** The decoded errors of a run of messages, joined in order of arrival. *)
Fixpoint joined (cmd : string) (ms : list (Z * bytes)) (err : option error)
    : option error :=
  match ms with
  | [] => err
  | (t, p) :: ms =>
    if t =? ErrorResponse
    then joined cmd ms (wrapAll err (Some (decodeErrorResponseMsg p cmd)))
    else joined cmd ms err
  end.

Definition known (m : Z * bytes) : bool :=
  (fst m =? CommandComplete) || (fst m =? ErrorResponse).

Definition scriptRequest (q : query) : option bytes :=
  let w := NewWriter in
  let w := BeginMessage w ExecuteScript in
  let w := writeHeaders w (headers0pX q) in
  let w := protocol.PushString w (cmd q) in
  EndMessage w.

Definition execScriptFlow (soc : socket) (r : Reader) (q : query)
    : outcome (socket * Reader * option error) :=
  if negb (size (state q) =? 0)%nat then
    Return (soc, r, Some errStateNotSupported)
  else
    bind (orPanic (scriptRequest q)) (fun w =>
    let '(soc, e) := WriteAll soc w in
    match e with
    | Some e => Return (soc, r, Some e)
    | None =>
      bind (scriptLoop (length (incoming r)) (cmd q) r false None) (fun '(r, x) =>
      match x with
      | inr e => Return (soc, r, Some e)
      | inl err =>
        match Err r with
        | Some e => Return (soc, r, Some e)
        | None => Return (soc, r, err)
        end
      end)
    end).

(** *** Headers

    The three readers of a header block work on the buffer of the reader
    they are given, here the bytes of that buffer; each pop panics on a
    buffer that is too short.  [PopBytes] of the reader takes a 32-bit
    length and that many bytes; [PushBytes] of the writer pushes the bytes
    alone, which is why [writeHeaders] pushes the length first. *)

Fixpoint ignoreHeaders_loop (n : nat) (b : bytes) : option bytes :=
  match n with
  | O => Some b
  | S n =>
    '(_, b) ← protocol.PopUint16 b;
    '(_, b) ← protocol.PopBytes b;
    ignoreHeaders_loop n b
  end.

Definition ignoreHeaders (b : bytes) : option bytes :=
  '(n, b) ← protocol.PopUint16 b;
  ignoreHeaders_loop (Z.to_nat n) b.

(** [header.Header] is a map from 16-bit keys to byte strings; a key met
    twice keeps the later value. *)
Fixpoint decodeHeaders_loop (n : nat) (b : bytes) (headers : gmap Z bytes)
    : option (gmap Z bytes * bytes) :=
  match n with
  | O => Some (headers, b)
  | S n =>
    '(key, b) ← protocol.PopUint16 b;
    '(val, b) ← protocol.PopBytes b;
    decodeHeaders_loop n b (<[key := val]> headers)
  end.

Definition decodeHeaders (b : bytes) : option (gmap Z bytes * bytes) :=
  '(n, b) ← protocol.PopUint16 b;
  decodeHeaders_loop (Z.to_nat n) b ∅.

Fixpoint discardHeaders_loop (n : nat) (b : bytes) : option bytes :=
  match n with
  | O => Some b
  | S n =>
    '(_, b) ← protocol.PopUint16 b;
    '(_, b) ← protocol.PopBytes b;
    discardHeaders_loop n b
  end.

Definition discardHeaders (b : bytes) : option bytes :=
  '(n, b) ← protocol.PopUint16 b;
  discardHeaders_loop (Z.to_nat n) b.

(** The bytes of the headers themselves, after the count. *)
Definition headerBytes (hs : list (Z * bytes)) : bytes :=
  concat (map (fun kv => protocol.encode_u16 (fst kv) ++
                         protocol.encode_u32 (Z.of_nat (length (snd kv))) ++
                         snd kv) hs).

(** A header block that fits its length fields: fewer than 2^16 headers,
    16-bit keys, values shorter than 2^32 bytes. *)
Definition fitsHeaders (hs : list (Z * bytes)) : Prop :=
  Z.of_nat (length hs) < 65536 /\
  Forall (fun kv => 0 <= fst kv < 65536 /\
                    Z.of_nat (length (snd kv)) < 4294967296) hs.

(** A message the loop of [execScriptFlow] passes over: one it has a case
    for other than [ReadyForCommand], or one [fallThrough] accepts. *)
Definition passes (m : Z * bytes) : bool :=
  if fst m =? CommandComplete then true
  else if fst m =? ReadyForCommand then false
  else if fst m =? ErrorResponse then true
  else match fallThrough (fst m) (snd m) with
       | None => true
       | Some _ => false
       end.

(** The reader once the messages [ms] are read and handled, [tl] being
    what is left to read. *)
Definition readerAfter (r : Reader) (ms tl : list (Z * bytes)) : Reader :=
  match last ms with
  | None => r
  | Some m =>
      {| incoming := tl; onEnd := onEnd r; MsgType := fst m; Buf := [];
         Err := None |}
  end.

End ScriptFlow.
End scriptflow.

(** ** The first connection ([src/unnamed/part_000], package [edgedb]) *)

Module legacy.

(** Modelled from the spec: message tags of the connection phase, not
    under src/; the values are those of the server's binary protocol. *)
Definition ClientHandshake : Z := 0x56.
Definition ServerHandshake : Z := 0x76.
Definition ServerKeyData : Z := 0x4b.
Definition Terminate : Z := 0x58.

Definition error := string.

(** The [io.ReadWriteCloser] under the connection.  [written] logs the
    writes; [writeError] is the failure of the next write, if any;
    [reads] holds what the coming calls of [Read] return, the bytes read
    or an error; when they run out [Read] fails with [EOF]. *)
Record stream := {
  written : list bytes;
  writeError : option error;
  reads : list (error + bytes);
  closed : bool
}.

Definition Write (s : stream) (b : bytes) : stream * option error :=
  match writeError s with
  | Some e => (s, Some e)
  | None =>
      ({| written := written s ++ [b]; writeError := None;
          reads := reads s; closed := closed s |}, None)
  end.

(** [Read] into a buffer of 1024 bytes: at most 1024 bytes are taken. *)
Definition Read (s : stream) : stream * (error + bytes) :=
  match reads s with
  | [] => (s, inl "EOF")
  | x :: rest =>
      ({| written := written s; writeError := writeError s;
          reads := rest; closed := closed s |},
       match x with
       | inl e => inl e
       | inr chunk => inr (take 1024 chunk)
       end)
  end.

Record Conn := {
  conn : stream;
  secret : option bytes
}.

(** The stream once [b] is written and the reply is read, [more] being
    the reads left. *)
Definition afterRead (s : stream) (b : bytes) (more : list (error + bytes))
    : stream :=
  {| written := written s ++ [b]; writeError := None; reads := more;
     closed := closed s |}.

(** [Close]: the deferred [conn.Close()] runs whatever the write does. *)
Definition Close (edb : Conn) : Conn * option error :=
  let msg := [Terminate; 0; 0; 0; 4] in
  let '(s, e) := Write (conn edb) msg in
  let s := {| written := written s; writeError := writeError s;
              reads := reads s; closed := true |} in
  ({| conn := s; secret := secret edb |},
   match e with
   | Some e => Some ("error while terminating: " +:+ e)
   | None => None
   end).

(** The loop [for n == 1024] of [writeAndRead]; the fuel is the number of
    reads left, one per turn. *)
Fixpoint readLoop (fuel : nat) (s : stream) (rcv : bytes)
    : outcome (stream * bytes) :=
  match fuel with
  | O => OutOfFuel
  | S fuel =>
    let '(s, x) := Read s in
    match x with
    | inl _ => Panic
    | inr tmp =>
      let rcv := rcv ++ tmp in
      if (length tmp =? 1024)%nat then readLoop fuel s rcv
      else Return (s, rcv)
    end
  end.

Definition writeAndRead (edb : Conn) (bts : bytes) : outcome (Conn * bytes) :=
  let '(s, e) := Write (conn edb) bts in
  match e with
  | Some _ => Panic
  | None =>
    bind (readLoop (S (length (reads s))) s []) (fun '(s, rcv) =>
    Return ({| conn := s; secret := secret edb |}, rcv))
  end.

(** Modelled from the spec: the codecs of this version, which are not
    under src/.  [Encode] pushes the arguments, [Decode] returns the
    decoded value; [codecs.Pop] turns a descriptor into the codecs it
    describes, by id. *)
Class Codecs := {
  V : Type;
  Args : Type;
  Codec : Type;
  Encode : Codec -> bytes -> Args -> option bytes;
  Decode : Codec -> bytes -> option V;
  Pop : bytes -> option (gmap bytes Codec)
}.

Section Query.
Context `{Codecs}.

Definition syncMsg : bytes := [message.Sync; 0; 0; 0; 4].

Definition prepareMsg (query : string) : option bytes :=
  let msg := [message.Prepare; 0; 0; 0; 0] in
  let msg := protocol.PushUint16 msg 0 in
  let msg := protocol.PushUint8 msg format.Binary in
  let msg := protocol.PushUint8 msg cardinality.Many in
  let msg := protocol.PushBytes msg [] in
  let msg := protocol.PushString msg query in
  msg ← protocol.PutMsgLength msg;
  Some (msg ++ syncMsg).

(** The first loop of [QueryWithArgs]; a message of another type is
    passed over.  In the error case of every loop the fields of the
    message are popped and the call panics with the message text. *)
Fixpoint prepareLoop (fuel : nat) (rcv : bytes) (argID resID : bytes)
    : outcome (bytes * bytes) :=
  if negb (4 <? Z.of_nat (length rcv)) then Return (argID, resID) else
  match fuel with
  | O => OutOfFuel
  | S fuel =>
    bind (orPanic (protocol.PopMessage rcv)) (fun '(bts, rcv) =>
    bind (orPanic (protocol.PopUint8 bts)) (fun '(mType, bts) =>
    if mType =? message.PrepareComplete then
      bind (orPanic (protocol.PopUint32 bts)) (fun '(_, bts) =>
      bind (orPanic (protocol.PopUint16 bts)) (fun '(_, bts) =>
      bind (orPanic (protocol.PopUint8 bts)) (fun '(_, bts) =>
      bind (orPanic (protocol.PopUUID bts)) (fun '(a, bts) =>
      bind (orPanic (protocol.PopUUID bts)) (fun '(r, bts) =>
      prepareLoop fuel rcv a r)))))
    else if mType =? message.ReadyForCommand then
      prepareLoop fuel rcv argID resID
    else if mType =? message.ErrorResponse then
      Panic
    else prepareLoop fuel rcv argID resID))
  end.

Definition describeMsg : option bytes :=
  let msg := [message.DescribeStatement; 0; 0; 0; 0] in
  let msg := protocol.PushUint16 msg 0 in
  let msg := protocol.PushUint8 msg aspect.DataDescription in
  let msg := protocol.PushUint32 msg 0 in
  msg ← protocol.PutMsgLength msg;
  Some (msg ++ syncMsg).

(** The second loop; every codec of a descriptor is entered into the
    lookup, over an earlier entry of the same id. *)
Fixpoint describeLoop (fuel : nat) (rcv : bytes) (codecLookup : gmap bytes Codec)
    : outcome (gmap bytes Codec) :=
  if negb (4 <? Z.of_nat (length rcv)) then Return codecLookup else
  match fuel with
  | O => OutOfFuel
  | S fuel =>
    bind (orPanic (protocol.PopMessage rcv)) (fun '(bts, rcv) =>
    bind (orPanic (protocol.PopUint8 bts)) (fun '(mType, bts) =>
    if mType =? message.CommandDataDescription then
      bind (orPanic (protocol.PopUint32 bts)) (fun '(_, bts) =>
      bind (orPanic (protocol.PopUint16 bts)) (fun '(_, bts) =>
      bind (orPanic (protocol.PopUint8 bts)) (fun '(_, bts) =>
      bind (orPanic (protocol.PopUUID bts)) (fun '(_, bts) =>
      bind (orPanic (protocol.PopBytes bts)) (fun '(descriptor, bts) =>
      bind (orPanic (Pop descriptor)) (fun found =>
      let codecLookup := found ∪ codecLookup in
      bind (orPanic (protocol.PopUUID bts)) (fun '(_, bts) =>
      bind (orPanic (protocol.PopBytes bts)) (fun '(descriptor, bts) =>
      bind (orPanic (Pop descriptor)) (fun found =>
      let codecLookup := found ∪ codecLookup in
      describeLoop fuel rcv codecLookup)))))))))
    else if mType =? message.ErrorResponse then
      Panic
    else describeLoop fuel rcv codecLookup))
  end.

(** A call through a codec the lookup does not hold is a call through a
    nil interface: it panics. *)
Definition executeMsg (argumentCodec : option Codec) (args : Args)
    : option bytes :=
  let msg := [message.Execute; 0; 0; 0; 0] in
  let msg := protocol.PushUint16 msg 0 in
  let msg := protocol.PushBytes msg [] in
  codec ← argumentCodec;
  msg ← Encode codec msg args;
  msg ← protocol.PutMsgLength msg;
  Some (msg ++ syncMsg).

(** The third loop, over the whole reply. *)
Fixpoint dataLoop (fuel : nat) (rcv : bytes) (resultCodec : option Codec)
    (out : list V) : outcome (list V) :=
  if negb (0 <? Z.of_nat (length rcv)) then Return out else
  match fuel with
  | O => OutOfFuel
  | S fuel =>
    bind (orPanic (protocol.PopMessage rcv)) (fun '(bts, rcv) =>
    bind (orPanic (protocol.PopUint8 bts)) (fun '(mType, bts) =>
    if mType =? message.Data then
      bind (orPanic (protocol.PopUint32 bts)) (fun '(_, bts) =>
      bind (orPanic (protocol.PopUint16 bts)) (fun '(_, bts) =>
      bind (orPanic (codec ← resultCodec; Decode codec bts)) (fun v =>
      dataLoop fuel rcv resultCodec (out ++ [v]))))
    else if mType =? message.CommandComplete then
      dataLoop fuel rcv resultCodec out
    else if mType =? message.ReadyForCommand then
      dataLoop fuel rcv resultCodec out
    else if mType =? message.ErrorResponse then
      Panic
    else dataLoop fuel rcv resultCodec out))
  end.

Definition QueryWithArgs (edb : Conn) (query : string) (args : Args)
    : outcome (Conn * list V * option error) :=
  bind (orPanic (prepareMsg query)) (fun pyld =>
  bind (writeAndRead edb pyld) (fun '(edb, rcv) =>
  bind (prepareLoop (length rcv) rcv (replicate 16 0) (replicate 16 0))
       (fun '(argumentCodecID, resultCodecID) =>
  bind (orPanic describeMsg) (fun pyld =>
  bind (writeAndRead edb pyld) (fun '(edb, rcv) =>
  bind (describeLoop (length rcv) rcv ∅) (fun codecLookup =>
  let argumentCodec := codecLookup !! argumentCodecID in
  let resultCodec := codecLookup !! resultCodecID in
  bind (orPanic (executeMsg argumentCodec args)) (fun pyld =>
  bind (writeAndRead edb pyld) (fun '(edb, rcv) =>
  bind (dataLoop (length rcv) rcv resultCodec []) (fun out =>
  Return (edb, out, None)))))))))).

(** [Query] passes an empty map of arguments. *)
Definition Query (noArgs : Args) (edb : Conn) (query : string)
    : outcome (Conn * list V * option error) :=
  QueryWithArgs edb query noArgs.

(** The values of the [Data] messages of a reply, in order, each decoded
    by the result codec; messages of any other type carry none. *)
Fixpoint rowsOf (resultCodec : Codec) (ms : list (Z * bytes))
    : option (list V) :=
  match ms with
  | [] => Some []
  | (t, p) :: ms =>
    if t =? message.Data then
      '(_, v) ← protocol.PopUint16 p;
      row ← Decode resultCodec v;
      rows ← rowsOf resultCodec ms;
      Some (row :: rows)
    else if t =? message.ErrorResponse then None
    else rowsOf resultCodec ms
  end.

End Query.

(** *** Connect *)

Record ConnConfig := {
  Database : string;
  User : string
}.

Definition handshakeMsg (config : ConnConfig) : option bytes :=
  let msg := [ClientHandshake; 0; 0; 0; 0] in
  let msg := protocol.PushUint16 msg 0 in
  let msg := protocol.PushUint16 msg 8 in
  let msg := protocol.PushUint16 msg 2 in
  let msg := protocol.PushString msg "database" in
  let msg := protocol.PushString msg (Database config) in
  let msg := protocol.PushString msg "user" in
  let msg := protocol.PushString msg (User config) in
  let msg := protocol.PushUint16 msg 0 in
  protocol.PutMsgLength msg.

(** The loop of [Connect]; [inr] is the return at [ReadyForCommand]. *)
Fixpoint connectLoop (fuel : nat) (rcv : bytes) (secret : option bytes)
    : outcome (unit + option bytes) :=
  if negb (0 <? Z.of_nat (length rcv)) then Return (inl tt) else
  match fuel with
  | O => OutOfFuel
  | S fuel =>
    bind (orPanic (protocol.PopMessage rcv)) (fun '(bts, rcv) =>
    bind (orPanic (protocol.PopUint8 bts)) (fun '(mType, bts) =>
    if mType =? ServerHandshake then
      connectLoop fuel rcv secret
    else if mType =? ServerKeyData then
      bind (orPanic (snd <$> protocol.split_at 5 bts)) (fun key =>
      connectLoop fuel rcv (Some key))
    else if mType =? message.ReadyForCommand then
      Return (inr secret)
    else if mType =? message.ErrorResponse then
      Panic
    else connectLoop fuel rcv secret))
  end.

(** [dial] is what [net.Dial] returns. *)
Definition Connect (dial : error + stream) (config : ConnConfig)
    : outcome (option Conn * option error) :=
  match dial with
  | inl e =>
      Return (None, Some ("tcp connection error while connecting: " +:+ e))
  | inr s =>
    let edb := {| conn := s; secret := None |} in
    bind (orPanic (handshakeMsg config)) (fun msg =>
    bind (writeAndRead edb msg) (fun '(edb', rcv) =>
    bind (connectLoop (length rcv) rcv None) (fun r =>
    match r with
    | inr secret => Return (Some {| conn := conn edb'; secret := secret |}, None)
    | inl _ => Return (Some edb', None)
    end)))
  end.

(** The secret [Connect] has after the messages [ms]: the last
    [ServerKeyData] message, from the sixth byte after the type byte
    on. *)
Fixpoint secretAfter (ms : list (Z * bytes)) (secret : option bytes)
    : option bytes :=
  match ms with
  | [] => secret
  | (t, p) :: ms =>
    if t =? ServerKeyData then secretAfter ms (Some (drop 1 p))
    else secretAfter ms secret
  end.

(** A message [Connect] goes past: anything but [ReadyForCommand] and
    [ErrorResponse], and a key message must hold at least one byte. *)
Definition goesPast (m : Z * bytes) : bool :=
  negb (fst m =? message.ReadyForCommand) &&
  negb (fst m =? message.ErrorResponse) &&
  (negb (fst m =? ServerKeyData) || (0 <? Z.of_nat (length (snd m)))).

End legacy.

(** ** Concrete instances

    Small instances of the parameters above, on which the statements
    below are run: 32-bit integer results for the flow, string fields for
    the object decoder, textual errors for the script flow. *)

Module examples.

Module flow.
Import granular.

#[export] Instance intValues : Values :=
  {| V := Z; Args := list Z; zeroScalar := fun _ => 0 |}.

Definition int (n : Z) : rvalue := @Scalar intValues n.

(** A value of type [int32] on the wire: its length, then four bytes. *)
Definition int32Decode (msg : bytes) (_ : rvalue) : option rvalue :=
  '(_, m) ← protocol.PopUint32 msg;
  '(n, _) ← protocol.PopUint32 m;
  Some (@Scalar intValues n).

(** No arguments: a count of zero. *)
Definition noArgsEncode (b : bytes) (_ : list Z) : option bytes :=
  Some (protocol.PushUint32 b 0).

Definition int32Codecs : codecPair :=
  {| codecIn := {| enc_ID := replicate 15 0 ++ [255]; Encode := noArgsEncode |};
     codecOut := {| dec_ID := replicate 15 0 ++ [4]; Decode := int32Decode |} |}.

#[export] Instance intBuilder : CodecBuilder :=
  fun _ _ _ => inl int32Codecs.

Definition int32 : rtype := TNamed "int32".

Definition selectOne : query :=
  {| cmd := "select 1"; fmt := format.Binary;
     expCard := cardinality.One; args := [] |}.

Definition selectMany : query :=
  {| cmd := "select {1, 2}"; fmt := format.Binary;
     expCard := cardinality.Many; args := [] |}.

Definition dataMsg (n : Z) : Z * bytes :=
  (message.Data, [0; 1; 0; 0; 0; 4] ++ protocol.encode_u32 n).

Definition complete : Z * bytes :=
  (message.CommandComplete, [0; 0; 0; 0; 0; 0]).

Definition ready : Z * bytes :=
  (message.ReadyForCommand, [0; 0; 73]).

(** Severity 120, code 0x05000000, the text [oops], no attributes. *)
Definition oops : Z * bytes :=
  (message.ErrorResponse,
   [120; 5; 0; 0; 0; 0; 0; 0; 4; 111; 111; 112; 115; 0; 0]).

Definition unknownMsg : Z * bytes := (0x7f, []).

Definition connWith (ms : list (Z * bytes)) : conn :=
  {| sent := []; replies := [inr (protocol.stream ms)] |}.

Definition executeReq (q : query) : bytes :=
  default [] (executeRequest q int32Codecs).

Definition optimisticReq (q : query) : bytes :=
  default [] (optimisticRequest q int32Codecs).

Definition noCaches : caches :=
  {| codecCache := ∅; descCache := ∅; descIDCache := ∅ |}.

(** The caches after a first call of [selectOne] into an [int32]. *)
Definition warm : caches := putCodecs noCaches selectOne int32 int32Codecs.

End flow.

Module decoders.
Import codecs.

(** A destination of optional strings: a field is absent, or holds the
    bytes written into it. *)
Inductive cell :=
| Absent
| Present (b : bytes).

#[export] Instance cellMemory : Memory :=
  {| Mem := gmap Z cell;
     SetMissing := fun _ missing p m =>
       if missing then <[p := Absent]> m else <[p := Present []]> m |}.

Definition writeStr (r : Reader) (p : Z) (m : gmap Z cell)
    : option (Reader * gmap Z cell * option error) :=
  Some ([], <[p := Present r]> m, None).

Definition strDecoder : Decoder :=
  {| typeOf := StrCodec; DescriptorID := replicate 15 0 ++ [1];
     Decode := writeStr; DecodeMissing := None |}.

Definition optionalStrDecoder : Decoder :=
  {| typeOf := otherCodec "optionalStrDecoder";
     DescriptorID := replicate 15 0 ++ [1];
     Decode := writeStr;
     DecodeMissing := Some (fun p m => <[p := Absent]> m) |}.

Definition arrayDecoder : Decoder :=
  {| typeOf := otherCodec "arrayDecoder";
     DescriptorID := replicate 15 0 ++ [2];
     Decode := writeStr; DecodeMissing := None |}.

Definition stringType : Type_ :=
  {| type_name := "string"; kind := String_;
     ptrImplementsOptionalUnmarshaler := false |}.

Definition optionalStrType : Type_ :=
  {| type_name := "edgedb.OptionalStr"; kind := Struct;
     ptrImplementsOptionalUnmarshaler := false |}.

Definition stringSliceType : Type_ :=
  {| type_name := "[]string"; kind := Slice;
     ptrImplementsOptionalUnmarshaler := false |}.

Definition userType : Type_ :=
  {| type_name := "User"; kind := Struct;
     ptrImplementsOptionalUnmarshaler := false |}.

(** A struct [User] with fields [name string], [nick edgedb.OptionalStr]
    and [tags []string]. *)
#[export] Instance userBuilder : Builder :=
  {| StructField := fun _ n =>
       if String.eqb n "name" then Some {| sf_Type := stringType; sf_Offset := 0 |}
       else if String.eqb n "nick" then Some {| sf_Type := optionalStrType; sf_Offset := 16 |}
       else if String.eqb n "tags" then Some {| sf_Type := stringSliceType; sf_Offset := 32 |}
       else None;
     BuildDecoder := fun _ t _ =>
       if String.eqb (type_name t) "string" then inl strDecoder
       else if String.eqb (type_name t) "edgedb.OptionalStr" then inl optionalStrDecoder
       else if String.eqb (type_name t) "[]string" then inl arrayDecoder
       else inr "unsupported type" |}.

Definition strDesc : Descriptor := mkDescriptor (replicate 15 0 ++ [1]) [].

Definition arrayDesc : Descriptor := mkDescriptor (replicate 15 0 ++ [2]) [].

(** [name] is optional in the descriptor, the output field is a plain
    string. *)
Definition optionalName : Field := mkField "name" strDesc false.

(** [tags] is optional in the descriptor, the output field is a slice. *)
Definition optionalTags : Field := mkField "tags" arrayDesc false.

Definition nameDesc : Descriptor :=
  mkDescriptor (replicate 15 0 ++ [9]) [optionalName].

Definition tagsDesc : Descriptor :=
  mkDescriptor (replicate 15 0 ++ [10]) [optionalTags].

Definition nickField : DecoderField :=
  {| name := "nick"; offset := 16; decoder := optionalStrDecoder |}.

Definition nameField : DecoderField :=
  {| name := "name"; offset := 0; decoder := strDecoder |}.

End decoders.

Module script.
Import scriptflow.

Definition joinText (a b : option string) : option string :=
  match a, b with
  | None, x => x
  | x, None => x
  | Some x, Some y => Some (x +:+ "; " +:+ y)
  end.

(** Parameter status and log messages pass; anything else is fatal. *)
Definition passThrough (t : Z) (_ : bytes) : option string :=
  if (t =? 0x53) || (t =? 0x4c) then None
  else Some "unexpected message type".

#[export] Instance textEnv : Env :=
  {| error := string;
     StateValue := bytes;
     errStateNotSupported := "state is not supported by this protocol version";
     wrapAll := joinText;
     decodeErrorResponseMsg := fun p _ => protocol.string_of_bytes p;
     fallThrough := passThrough |}.

Definition script : query :=
  {| cmd := "create type T"; state := ∅; headers0pX := [] |}.

Definition scriptWithState : query :=
  {| cmd := "create type T"; state := {[ "module" := [100] ]};
     headers0pX := [] |}.

Definition idle : socket := {| written := []; writeError := None |}.

Definition readerOf (ms : list (Z * bytes)) : Reader :=
  {| incoming := ms; onEnd := "EOF"; MsgType := 0; Buf := []; Err := None |}.

Definition scriptReq : bytes := default [] (scriptRequest script).

End script.

End examples.

(** ** More concrete instances *)

Module examples_more.

Module script.
Import scriptflow examples.script.

Definition someHeaders : gmap Z bytes := {[ 0xff01 := [1; 2]; 0xff02 := [3] ]}.

Definition headerList : list (Z * bytes) := [(0xff01, [1; 2]); (0xff02, [3])].

Definition scriptWithHeaders : query :=
  {| cmd := "create type T"; state := ∅; headers0pX := headerList |}.

Definition parameterStatus : Z * bytes := (0x53, [0; 0]).

End script.

Module flow.
Import granular examples.flow.

Definition argsID : bytes := replicate 15 0 ++ [255].
Definition resultID : bytes := replicate 15 0 ++ [4].

Definition prepareComplete : Z * bytes :=
  (message.PrepareComplete, 0 :: 0 :: 109 :: argsID ++ resultID ++ []).

Definition argsDesc : bytes := [255; 0].
Definition resultDesc : bytes := [2; 4].

Definition dataDescription : Z * bytes :=
  (message.CommandDataDescription,
   descriptionPayload 0 0 109 argsID argsDesc resultID resultDesc []).

Definition int32Descs : descPair :=
  {| desc_in := argsDesc; desc_out := resultDesc |}.

Definition int32IDs : idPair := {| id_in := argsID; id_out := resultID |}.

Definition connOf (rs : list (error + bytes)) : conn :=
  {| sent := []; replies := rs |}.

Definition prepareReq : bytes := default [] (prepareRequest selectOne).
Definition describeReq : bytes := default [] describeRequest.

(** The first call of [selectOne]: three round trips. *)
Definition firstCall : conn :=
  connOf [inr (protocol.stream [prepareComplete; ready]);
          inr (protocol.stream [dataDescription; ready]);
          inr (protocol.stream [dataMsg 1; complete; ready])].

(** The same when the ids are known: two round trips. *)
Definition knownIDs : caches := putDescriptorsByID noCaches int32IDs int32Descs.

Definition secondCall : conn :=
  connOf [inr (protocol.stream [prepareComplete; ready]);
          inr (protocol.stream [dataMsg 1; complete; ready])].

Definition rowReply : error + bytes :=
  inr (protocol.stream [dataMsg 1; complete; ready]).

Definition afterPrepare : conn :=
  {| sent := [prepareReq];
     replies := [inr (protocol.stream [dataDescription; ready]); rowReply] |}.

Definition afterDescribe : conn :=
  {| sent := [prepareReq; describeReq]; replies := [rowReply] |}.

(** The caches after the first call. *)
Definition warmed : caches :=
  putCodecs (putDescriptors knownIDs selectOne int32Descs) selectOne int32
    int32Codecs.

Definition firstResult : flowResult :=
  {| r_conn := {| sent := [prepareReq; describeReq; executeReq selectOne];
                 replies := [] |};
     r_out := int 1; r_unread := []; r_err := None |}.

Definition secondAfterPrepare : conn :=
  {| sent := [prepareReq]; replies := [rowReply] |}.

Definition secondResult : flowResult :=
  {| r_conn := {| sent := [prepareReq; executeReq selectOne]; replies := [] |};
     r_out := int 1; r_unread := []; r_err := None |}.

End flow.

Module decoders.
Import codecs examples.decoders.

#[export] Instance userBuilderV2 : BuilderV2 :=
  fun d => BuildDecoder (toDescriptor d).

Definition userDesc : Descriptor :=
  mkDescriptor (replicate 15 0 ++ [11])
    [mkField "name" strDesc true; mkField "nick" strDesc false].

Definition userDescV2 : V2 :=
  mkV2 (replicate 15 0 ++ [11])
    [mkFieldV2 "name" (mkV2 (replicate 15 0 ++ [1]) []) true;
     mkFieldV2 "nick" (mkV2 (replicate 15 0 ++ [1]) []) false].

Definition ageDesc : Descriptor :=
  mkDescriptor (replicate 15 0 ++ [12])
    [mkField "name" strDesc true; mkField "age" strDesc true].

Definition optionalUserType : Type_ :=
  {| type_name := "OptionalUser"; kind := Struct;
     ptrImplementsOptionalUnmarshaler := true |}.

End decoders.

Module first.
Import legacy.

(** One codec, for 32-bit integers; no arguments. *)
#[export] Instance intCodecs : Codecs :=
  {| V := Z; Args := list Z; Codec := unit;
     Encode := fun _ msg _ => Some (protocol.PushUint32 msg 0);
     Decode := fun _ bts =>
       '(_, m) ← protocol.PopUint32 bts;
       '(n, _) ← protocol.PopUint32 m;
       Some n;
     Pop := fun d => Some {[ replicate 15 0 ++ d := tt ]} |}.

Definition argsDesc : bytes := [255].
Definition resultDesc : bytes := [4].

Definition prepareComplete : Z * bytes :=
  (message.PrepareComplete,
   0 :: 0 :: 109 :: examples_more.flow.argsID ++ examples_more.flow.resultID ++ []).

Definition dataDescription : Z * bytes :=
  (message.CommandDataDescription,
   granular.descriptionPayload 0 0 109 examples_more.flow.argsID argsDesc
     examples_more.flow.resultID resultDesc []).

Definition logMessage : Z * bytes := (0x4c, [1; 2; 3]).

Definition reply1 : bytes :=
  protocol.stream [prepareComplete; examples.flow.ready].
Definition reply2 : bytes :=
  protocol.stream [dataDescription; examples.flow.ready].
Definition rows3 : list (Z * bytes) :=
  [examples.flow.dataMsg 1; logMessage; examples.flow.dataMsg 2;
   examples.flow.complete; examples.flow.ready].

Definition fresh (rs : list (error + bytes)) : stream :=
  {| written := []; writeError := None; reads := rs; closed := false |}.

Definition start : Conn :=
  {| conn := fresh [inr reply1; inr reply2; inr (protocol.stream rows3)];
     secret := None |}.

Definition p1 : bytes := default [] (prepareMsg "select {1, 2}").
Definition p2 : bytes := default [] describeMsg.
Definition p3 : bytes := default [] (executeMsg (Some tt) []).

Definition after (n : nat) : Conn :=
  {| conn := {| written := take n [p1; p2; p3]; writeError := None;
                reads := drop n [inr reply1; inr reply2;
                                 inr (protocol.stream rows3)];
                closed := false |};
     secret := None |}.

Definition config : ConnConfig := {| Database := "edgedb"; User := "edgedb" |}.

Definition hello : bytes := default [] (handshakeMsg config).

Definition keyData : Z * bytes := (ServerKeyData, [7; 8; 9]).
Definition serverHandshake : Z * bytes := (ServerHandshake, [0; 0; 0; 8; 0; 0]).

Definition greeting : list (Z * bytes) := [serverHandshake; keyData].

(** The connection once the handshake is written and the reply read. *)
Definition greeted : Conn :=
  {| conn := {| written := [hello]; writeError := None; reads := [];
                closed := false |};
     secret := None |}.

End first.

End examples_more.

(** * Properties *)

(** ** Wire buffer *)

Module protocol_facts.
Import protocol.

Lemma decode_encode_u32 (n : Z) :
  0 <= n < 4294967296 ->
  decode_u32 (uint8 (n / 16777216)) (uint8 (n / 65536)) (uint8 (n / 256))
             (uint8 n) = n.
Proof.
  intros Hn. unfold decode_u32, uint8.
  Z.div_mod_to_equations. lia.
Qed.

Lemma split_at_app (a b : bytes) :
  split_at (Z.of_nat (length a)) (a ++ b) = Some (a, b).
Proof.
  unfold split_at.
  rewrite length_app, Nat2Z.id, take_app_length, drop_app_length.
  replace (0 <=? Z.of_nat (length a)) with true by (symmetry; apply Z.leb_le; lia).
  replace (Z.of_nat (length a) <=? Z.of_nat (length a + length b)) with true
    by (symmetry; apply Z.leb_le; lia).
  reflexivity.
Qed.

Lemma split_at_length (n : Z) (b x y : bytes) :
  split_at n b = Some (x, y) ->
  b = x ++ y /\ Z.of_nat (length x) = n.
Proof.
  unfold split_at. intros Hs.
  destruct (0 <=? n) eqn:H0; [ | discriminate ].
  destruct (n <=? Z.of_nat (length b)) eqn:H1; [ | discriminate ].
  apply Z.leb_le in H0. apply Z.leb_le in H1.
  cbn in Hs. injection Hs as <- <-.
  split; [ now rewrite take_drop | ].
  rewrite length_take. lia.
Qed.

Lemma frame_length (t : Z) (p : bytes) :
  length (frame t p) = S (S (S (S (S (length p))))).
Proof. reflexivity. Qed.

Lemma PopMessage_frame (t : Z) (p rest : bytes) :
  Z.of_nat (length p) + 4 < 4294967296 ->
  PopMessage (frame t p ++ rest) = Some (frame t p, rest).
Proof.
  intros Hp. unfold frame, encode_u32. cbn [app PopMessage].
  rewrite decode_encode_u32 by lia.
  change (t :: uint8 ((Z.of_nat (length p) + 4) / 16777216)
            :: uint8 ((Z.of_nat (length p) + 4) / 65536)
            :: uint8 ((Z.of_nat (length p) + 4) / 256)
            :: uint8 (Z.of_nat (length p) + 4) :: p ++ rest)
    with (frame t p ++ rest).
  replace (Z.of_nat (length p) + 4 + 1) with (Z.of_nat (length (frame t p)))
    by (rewrite frame_length; lia).
  apply split_at_app.
Qed.

Lemma stream_cons (m : Z * bytes) (ms : list (Z * bytes)) :
  stream (m :: ms) = frame (fst m) (snd m) ++ stream ms.
Proof. reflexivity. Qed.

Lemma stream_app (ms ms' : list (Z * bytes)) :
  stream (ms ++ ms') = stream ms ++ stream ms'.
Proof.
  unfold stream. now rewrite map_app, concat_app.
Qed.

Lemma stream_length (ms : list (Z * bytes)) :
  (length ms <= length (stream ms))%nat.
Proof.
  induction ms as [ | m ms IH ]; [ cbn; lia | ].
  rewrite stream_cons, length_app, frame_length. cbn [length]. lia.
Qed.

(** A successful [PopMessage] whose message has a type byte leaves a
    strictly shorter buffer. *)
Lemma PopMessage_shorter (b msg rest : bytes) (t : Z) (msg' : bytes) :
  PopMessage b = Some (msg, rest) ->
  PopUint8 msg = Some (t, msg') ->
  (length rest < length b)%nat.
Proof.
  intros Hm Ht. unfold PopMessage in Hm.
  destruct b as [ | ? [ | ? [ | ? [ | ? [ | ? ? ] ] ] ] ]; try discriminate.
  apply split_at_length in Hm as [Hb _].
  destruct msg; [ discriminate | ].
  rewrite Hb, length_app. cbn [length]. lia.
Qed.

End protocol_facts.

(** ** Execution flow *)

Module granular_facts.
Import protocol protocol_facts granular.

Section Facts.
Context `{Values}.

Lemma bind_ext {A B} (x : outcome A) (f g : A -> outcome B) :
  (forall a, x = Return a -> f a = g a) -> bind x f = bind x g.
Proof. destruct x; cbn; auto. Qed.

(** Skipping six bytes is popping the length and the element count. *)
Lemma skip_data_header (msg : bytes) :
  orPanic (snd <$> split_at 6 msg) =
  bind (orPanic (PopUint32 msg)) (fun '(_, m) =>
  bind (orPanic (PopUint16 m)) (fun '(_, m) => Return m)).
Proof.
  destruct msg as [ | ? [ | ? [ | ? [ | ? [ | ? [ | ? msg ] ] ] ] ] ];
    try reflexivity.
  unfold split_at. cbn [PopUint32 PopUint16 orPanic bind].
  replace (0 <=? 6) with true by reflexivity.
  match goal with |- context [6 <=? ?n] =>
    replace (6 <=? n) with true by (symmetry; apply Z.leb_le; cbn [length]; lia)
  end.
  reflexivity.
Qed.

(** The two loops are one. *)
Lemma optimistic_loop_execute_loop (fuel : nat) (q : query) (tp : rtype)
    (cdcs : codecPair) (s : loopState) :
  optimistic_loop fuel q tp cdcs s = execute_loop fuel q tp cdcs s.
Proof.
  revert s. induction fuel as [ | fuel IH ]; intros s; [ reflexivity | ].
  cbn [optimistic_loop execute_loop].
  destruct (negb (0 <? Z.of_nat (length (buf s)))); [ reflexivity | ].
  apply bind_ext; intros [msg rest] _.
  apply bind_ext; intros [mType m] _.
  destruct (mType =? message.Data).
  - rewrite skip_data_header.
    destruct (PopUint32 m) as [ [? m1] | ]; [ | reflexivity ]. cbn [orPanic bind].
    destruct (PopUint16 m1) as [ [? m2] | ]; [ | reflexivity ]. cbn [orPanic bind].
    apply bind_ext; intros s' _. apply IH.
  - repeat match goal with |- context [if ?b then _ else _] => destruct b end;
      auto.
Qed.

Lemma onData_buf (q : query) (tp : rtype) (cdcs : codecPair) (v rest : bytes)
    (s s' : loopState) :
  onData q tp cdcs v rest s = Return s' -> buf s' = rest.
Proof.
  unfold onData. destruct (negb (flat q)).
  - destruct (Decode _ _ _); [ | discriminate ]. cbn.
    destruct (elemsOf s); [ | discriminate ]. cbn.
    intros [= <-]. reflexivity.
  - destruct (Decode _ _ _); [ | discriminate ]. cbn.
    intros [= <-]. reflexivity.
Qed.

(** With enough fuel the loop of [execute] never stops for lack of it, on
    any buffer. *)
Lemma execute_loop_fuel (fuel : nat) (q : query) (tp : rtype)
    (cdcs : codecPair) (s : loopState) :
  (length (buf s) <= fuel)%nat ->
  execute_loop fuel q tp cdcs s <> OutOfFuel.
Proof.
  revert s. induction fuel as [ | fuel IH ]; intros s Hlen.
  - cbn. destruct (buf s); [ discriminate | cbn in Hlen; lia ].
  - cbn [execute_loop].
    destruct (negb (0 <? Z.of_nat (length (buf s)))); [ discriminate | ].
    destruct (PopMessage (buf s)) as [ [msg rest] | ] eqn:Hm; [ | discriminate ].
    cbn [orPanic bind].
    destruct (PopUint8 msg) as [ [mType m] | ] eqn:Ht; [ | discriminate ].
    cbn [orPanic bind].
    pose proof (PopMessage_shorter _ _ _ _ _ Hm Ht) as Hshort.
    destruct (mType =? message.Data).
    { destruct (PopUint32 m) as [ [? m1] | ]; [ | discriminate ]. cbn [orPanic bind].
      destruct (PopUint16 m1) as [ [? m2] | ]; [ | discriminate ]. cbn [orPanic bind].
      destruct (onData q tp cdcs m2 rest s) as [ s' | | ] eqn:Hd.
      - cbn [bind]. apply IH. apply onData_buf in Hd. rewrite Hd. lia.
      - discriminate.
      - exfalso. unfold onData in Hd.
        destruct (negb (flat q)), (Decode _ _ _); cbn in Hd; try discriminate.
        destruct (elemsOf s); discriminate. }
    destruct (mType =? message.CommandComplete); [ apply IH; cbn; lia | ].
    destruct (mType =? message.ReadyForCommand); [ apply IH; cbn; lia | ].
    destruct (mType =? message.ErrorResponse); [ | discriminate ].
    destruct (decodeError m); discriminate.
Qed.

(** On a response made of framed messages the loop of [execute] is the
    walk over the messages. *)
Lemma execute_loop_msgs (q : query) (tp : rtype) (cdcs : codecPair)
    (ms : list (Z * bytes)) :
  framed ms ->
  forall (fuel : nat) (s : loopState),
  (length ms <= fuel)%nat ->
  buf s = stream ms ->
  execute_loop fuel q tp cdcs s = msgs_loop q tp cdcs ms s.
Proof.
  induction 1 as [ | [t p] ms Hp Hms IH ]; intros fuel s Hfuel Hbuf.
  - destruct fuel; cbn; rewrite Hbuf; reflexivity.
  - destruct fuel as [ | fuel ]; [ cbn in Hfuel; lia | ].
    cbn [length] in Hfuel. cbn [execute_loop msgs_loop].
    rewrite Hbuf, stream_cons. cbn [fst snd] in *.
    replace (negb (0 <? Z.of_nat (length (frame t p ++ stream ms)))) with false
      by (rewrite length_app, frame_length; symmetry;
          apply negb_false_iff, Z.ltb_lt; lia).
    rewrite PopMessage_frame by exact Hp.
    cbn [orPanic bind frame app PopUint8].
    destruct (t =? message.Data).
    + unfold encode_u32. cbn [app PopUint32 orPanic bind].
      destruct (PopUint16 p) as [ [? v] | ]; [ | reflexivity ]. cbn [orPanic bind].
      apply bind_ext; intros s' Hd. apply IH; [ lia | ].
      now apply onData_buf in Hd.
    + destruct (t =? message.CommandComplete); [ apply IH; [ lia | reflexivity ] | ].
      destruct (t =? message.ReadyForCommand); [ apply IH; [ lia | reflexivity ] | ].
      reflexivity.
Qed.

Lemma elemsOf_SetOut (s : loopState) (l : list rvalue) :
  elemsOf s = Some l -> SetOut s = Slice l.
Proof.
  unfold elemsOf, SetOut. destruct (o s); [ congruence | ].
  destruct (out s); congruence.
Qed.

Lemma isQuiet_cases (t : Z) (p : bytes) :
  isQuiet (t, p) = true ->
  (t =? message.Data) = false /\
  ((t =? message.CommandComplete) = true \/
   (t =? message.CommandComplete) = false /\ (t =? message.ReadyForCommand) = true).
Proof.
  unfold isQuiet. cbn [fst]. intros Hq.
  apply orb_true_iff in Hq as [Hq | Hq].
  - split; [ | now left ].
    apply Z.eqb_eq in Hq. subst t. reflexivity.
  - split; [ apply Z.eqb_eq in Hq; subst t; reflexivity | ].
    destruct (t =? message.CommandComplete); auto.
Qed.

(** A prefix of [Data] and quiet messages, non-flat query: the walk goes
    through it appending one decoded row per [Data] message. *)
Lemma msgs_loop_prefix_nonflat (q : query) (tp : rtype) (cdcs : codecPair)
    (tl : list (Z * bytes)) (pre : list (Z * bytes)) :
  flat q = false ->
  forall (s : loopState) (l rows : list rvalue),
  decodeRows tp cdcs pre = Some rows ->
  elemsOf s = Some l ->
  buf s = stream (pre ++ tl) ->
  exists s',
    msgs_loop q tp cdcs (pre ++ tl) s = msgs_loop q tp cdcs tl s' /\
    buf s' = stream tl /\ out s' = out s /\
    elemsOf s' = Some (l ++ rows) /\
    err s' = (if existsb isData pre then None else err s).
Proof.
  intros Hflat. induction pre as [ | [t p] pre IH ]; intros s l rows Hrows Hl Hbuf.
  - injection Hrows as <-. exists s. rewrite app_nil_r. auto.
  - cbn [decodeRows] in Hrows. cbn [app msgs_loop existsb].
    destruct (isData (t, p)) eqn:Hd.
    + unfold isData in Hd. cbn [fst snd] in *. rewrite Hd.
      unfold dataValue in Hrows.
      destruct (PopUint16 p) as [ [? v] | ]; [ | discriminate ].
      cbn in Hrows. cbn [orPanic bind].
      destruct (Decode (codecOut cdcs) v (zero tp)) as [ row | ] eqn:Hrow;
        [ | discriminate ].
      cbn in Hrows.
      destruct (decodeRows tp cdcs pre) as [ rows' | ] eqn:Hrows'; [ | discriminate ].
      injection Hrows as <-.
      unfold onData. rewrite Hflat. cbn [negb]. rewrite Hrow, Hl. cbn [orPanic bind].
      edestruct (IH {| buf := stream (pre ++ tl); out := out s;
                       o := Some (l ++ [row]); err := None |})
        as (s' & Hrun & Hb & Ho & He & Herr); [ reflexivity | reflexivity | reflexivity | ].
      exists s'. rewrite Hrun. rewrite <- app_assoc in He. cbn [app] in He.
      cbn [orb]. repeat split; auto.
      rewrite Herr. now destruct (existsb isData pre).
    + destruct (isQuiet (t, p)) eqn:Hq; [ | discriminate ].
      apply isQuiet_cases in Hq as [HnD Hq]. cbn [orb]. rewrite HnD.
      edestruct (IH (advance s (stream (pre ++ tl)))) as (s' & Hrun & Hrest);
        [ exact Hrows | exact Hl | reflexivity | ].
      exists s'. split; [ | exact Hrest ].
      destruct Hq as [ -> | [ -> -> ] ]; exact Hrun.
Qed.

(** The same for a flat query: every [Data] message is decoded into the
    destination itself. *)
Lemma msgs_loop_prefix_flat (q : query) (tp : rtype) (cdcs : codecPair)
    (tl : list (Z * bytes)) (pre : list (Z * bytes)) :
  flat q = true ->
  forall (s : loopState) (v : rvalue),
  decodeInto cdcs pre (out s) = Some v ->
  buf s = stream (pre ++ tl) ->
  exists s',
    msgs_loop q tp cdcs (pre ++ tl) s = msgs_loop q tp cdcs tl s' /\
    buf s' = stream tl /\ out s' = v /\ o s' = o s /\
    err s' = (if existsb isData pre then None else err s).
Proof.
  intros Hflat. induction pre as [ | [t p] pre IH ]; intros s v Hv Hbuf.
  - injection Hv as <-. exists s. auto.
  - cbn [decodeInto] in Hv. cbn [app msgs_loop existsb].
    destruct (isData (t, p)) eqn:Hd.
    + unfold isData in Hd. cbn [fst snd] in *. rewrite Hd.
      unfold dataValue in Hv.
      destruct (PopUint16 p) as [ [? b] | ]; [ | discriminate ].
      cbn in Hv. cbn [orPanic bind].
      destruct (Decode (codecOut cdcs) b (out s)) as [ v1 | ] eqn:Hv1;
        [ | discriminate ].
      cbn in Hv.
      unfold onData. rewrite Hflat. cbn [negb]. rewrite Hv1. cbn [orPanic bind].
      edestruct (IH {| buf := stream (pre ++ tl); out := v1;
                       o := o s; err := None |})
        as (s' & Hrun & Hb & Ho & He & Herr); [ exact Hv | reflexivity | ].
      exists s'. rewrite Hrun. cbn [orb]. repeat split; auto.
      rewrite Herr. now destruct (existsb isData pre).
    + destruct (isQuiet (t, p)) eqn:Hq; [ | discriminate ].
      apply isQuiet_cases in Hq as [HnD Hq]. cbn [orb]. rewrite HnD.
      edestruct (IH (advance s (stream (pre ++ tl)))) as (s' & Hrun & Hrest);
        [ exact Hv | reflexivity | ].
      exists s'. split; [ | exact Hrest ].
      destruct Hq as [ -> | [ -> -> ] ]; exact Hrun.
Qed.

Lemma writeAndRead_reply (c : conn) (req : bytes) (r : error + bytes)
    (rs : list (error + bytes)) :
  replies c = r :: rs ->
  writeAndRead c req = (afterWrite c req rs, r).
Proof. unfold writeAndRead. now intros ->. Qed.

Lemma execute_consume (c : conn) (dst : rvalue) (q : query) (tp : rtype)
    (cdcs : codecPair) (req resp : bytes) (rs : list (error + bytes)) :
  executeRequest q cdcs = Some req ->
  replies c = inr resp :: rs ->
  execute c dst q tp cdcs =
  consume execute_loop (afterWrite c req rs) dst q tp cdcs resp.
Proof.
  intros Hreq Hrep. unfold execute. rewrite Hreq. cbn [orPanic bind].
  now rewrite (writeAndRead_reply _ _ _ _ Hrep).
Qed.

Lemma optimistic_consume (c : conn) (dst : rvalue) (q : query) (tp : rtype)
    (cdcs : codecPair) (req resp : bytes) (rs : list (error + bytes)) :
  optimisticRequest q cdcs = Some req ->
  replies c = inr resp :: rs ->
  optimistic c dst q tp cdcs =
  consume execute_loop (afterWrite c req rs) dst q tp cdcs resp.
Proof.
  intros Hreq Hrep. unfold optimistic. rewrite Hreq. cbn [orPanic bind].
  rewrite (writeAndRead_reply _ _ _ _ Hrep).
  unfold consume. apply bind_ext; intros d _.
  now rewrite optimistic_loop_execute_loop.
Qed.

(** Neither call can end for lack of fuel. *)
Lemma consume_fuel (c : conn) (dst : rvalue) (q : query) (tp : rtype)
    (cdcs : codecPair) (resp : bytes) :
  consume execute_loop c dst q tp cdcs resp <> OutOfFuel.
Proof.
  unfold consume.
  destruct (if negb (flat q) then orPanic (SetLen0 dst) else Return dst)
    as [ d | | ] eqn:Hd; cbn [bind]; try discriminate.
  - pose proof (execute_loop_fuel (length resp) q tp cdcs
                  {| buf := resp; out := d; o := None;
                     err := Some ErrorZeroResults |} (le_n _)) as Hf.
    destruct (execute_loop _ _ _ _ _) as [ [ s | [s e] ] | | ];
      cbn [bind]; congruence.
  - destruct (negb (flat q)); [ destruct (SetLen0 dst) | ]; discriminate.
Qed.

Lemma consume_msgs (c : conn) (dst d : rvalue) (q : query) (tp : rtype)
    (cdcs : codecPair) (ms : list (Z * bytes)) :
  framed ms ->
  (if negb (flat q) then orPanic (SetLen0 dst) else Return dst) = Return d ->
  consume execute_loop c dst q tp cdcs (stream ms) =
  bind (msgs_loop q tp cdcs ms
          {| buf := stream ms; out := d; o := None;
             err := Some ErrorZeroResults |})
       (fun r =>
  match r with
  | inr (s, e) =>
      Return {| r_conn := c; r_out := out s; r_unread := buf s; r_err := Some e |}
  | inl s =>
      Return {| r_conn := c;
                r_out := if negb (flat q) then SetOut s else out s;
                r_unread := buf s;
                r_err := err s |}
  end).
Proof.
  intros Hms Hd. unfold consume. rewrite Hd. cbn [bind].
  rewrite (execute_loop_msgs q tp cdcs ms Hms); auto using stream_length.
Qed.

(** A response of [Data] and quiet messages, non-flat query. *)
Lemma consume_rows (c : conn) (q : query) (tp : rtype) (cdcs : codecPair)
    (ms : list (Z * bytes)) (l0 rows : list rvalue) :
  flat q = false ->
  framed ms ->
  decodeRows tp cdcs ms = Some rows ->
  consume execute_loop c (Slice l0) q tp cdcs (stream ms) =
  Return {| r_conn := c; r_out := Slice rows; r_unread := [];
            r_err := if existsb isData ms then None else Some ErrorZeroResults |}.
Proof.
  intros Hflat Hms Hrows.
  rewrite (consume_msgs c (Slice l0) (Slice []) q tp cdcs ms Hms)
    by (rewrite Hflat; reflexivity).
  edestruct (msgs_loop_prefix_nonflat q tp cdcs [] ms Hflat
               {| buf := stream ms; out := Slice []; o := None;
                  err := Some ErrorZeroResults |} [] rows Hrows)
    as (s' & Hrun & Hb & Ho & He & Herr);
    [ reflexivity | now rewrite app_nil_r | ].
  rewrite app_nil_r in Hrun. rewrite Hrun. cbn [msgs_loop bind].
  rewrite Hflat. cbn [negb].
  rewrite (elemsOf_SetOut _ _ He), Hb, Herr. reflexivity.
Qed.

(** A response of [Data] and quiet messages, flat query. *)
Lemma consume_value (c : conn) (q : query) (tp : rtype) (cdcs : codecPair)
    (ms : list (Z * bytes)) (dst v : rvalue) :
  flat q = true ->
  framed ms ->
  decodeInto cdcs ms dst = Some v ->
  consume execute_loop c dst q tp cdcs (stream ms) =
  Return {| r_conn := c; r_out := v; r_unread := [];
            r_err := if existsb isData ms then None else Some ErrorZeroResults |}.
Proof.
  intros Hflat Hms Hv.
  rewrite (consume_msgs c dst dst q tp cdcs ms Hms)
    by (rewrite Hflat; reflexivity).
  edestruct (msgs_loop_prefix_flat q tp cdcs [] ms Hflat
               {| buf := stream ms; out := dst; o := None;
                  err := Some ErrorZeroResults |} v Hv)
    as (s' & Hrun & Hb & Ho & _ & Herr);
    [ now rewrite app_nil_r | ].
  rewrite app_nil_r in Hrun. rewrite Hrun. cbn [msgs_loop bind].
  rewrite Hflat. cbn [negb].
  rewrite Ho, Hb, Herr. reflexivity.
Qed.

Lemma msgs_loop_error (q : query) (tp : rtype) (cdcs : codecPair)
    (p : bytes) (post : list (Z * bytes)) (s : loopState) (e : error) :
  decodeError (lengthField p ++ p) = Some e ->
  msgs_loop q tp cdcs ((message.ErrorResponse, p) :: post) s =
  Return (inr (advance s (stream post), e)).
Proof.
  intros He. cbn [msgs_loop].
  change (message.ErrorResponse =? message.Data) with false.
  change (message.ErrorResponse =? message.CommandComplete) with false.
  change (message.ErrorResponse =? message.ReadyForCommand) with false.
  change (message.ErrorResponse =? message.ErrorResponse) with true.
  cbn iota. rewrite He. reflexivity.
Qed.

(** An [ErrorResponse] after [Data] and quiet messages, non-flat query:
    the call returns there; the destination stays emptied and what follows
    in the buffer is not looked at. *)
Lemma consume_error_rows (c : conn) (q : query) (tp : rtype) (cdcs : codecPair)
    (pre post : list (Z * bytes)) (p : bytes) (l0 rows : list rvalue)
    (e : error) :
  flat q = false ->
  framed (pre ++ (message.ErrorResponse, p) :: post) ->
  decodeRows tp cdcs pre = Some rows ->
  decodeError (lengthField p ++ p) = Some e ->
  consume execute_loop c (Slice l0) q tp cdcs
    (stream (pre ++ (message.ErrorResponse, p) :: post)) =
  Return {| r_conn := c; r_out := Slice []; r_unread := stream post;
            r_err := Some e |}.
Proof.
  intros Hflat Hms Hrows He.
  rewrite (consume_msgs c (Slice l0) (Slice []) q tp cdcs _ Hms)
    by (rewrite Hflat; reflexivity).
  edestruct (msgs_loop_prefix_nonflat q tp cdcs
               ((message.ErrorResponse, p) :: post) pre Hflat
               {| buf := stream (pre ++ (message.ErrorResponse, p) :: post);
                  out := Slice []; o := None;
                  err := Some ErrorZeroResults |} [] rows Hrows)
    as (s' & Hrun & Hb & Ho & _ & _); [ reflexivity | reflexivity | ].
  rewrite Hrun, (msgs_loop_error _ _ _ _ _ _ _ He). cbn [bind advance out buf].
  rewrite Ho. reflexivity.
Qed.

(** The same for a flat query: the destination keeps what the [Data]
    messages before the error wrote into it. *)
Lemma consume_error_value (c : conn) (q : query) (tp : rtype) (cdcs : codecPair)
    (pre post : list (Z * bytes)) (p : bytes) (dst v : rvalue) (e : error) :
  flat q = true ->
  framed (pre ++ (message.ErrorResponse, p) :: post) ->
  decodeInto cdcs pre dst = Some v ->
  decodeError (lengthField p ++ p) = Some e ->
  consume execute_loop c dst q tp cdcs
    (stream (pre ++ (message.ErrorResponse, p) :: post)) =
  Return {| r_conn := c; r_out := v; r_unread := stream post;
            r_err := Some e |}.
Proof.
  intros Hflat Hms Hv He.
  rewrite (consume_msgs c dst dst q tp cdcs _ Hms)
    by (rewrite Hflat; reflexivity).
  edestruct (msgs_loop_prefix_flat q tp cdcs
               ((message.ErrorResponse, p) :: post) pre Hflat
               {| buf := stream (pre ++ (message.ErrorResponse, p) :: post);
                  out := dst; o := None;
                  err := Some ErrorZeroResults |} v Hv)
    as (s' & Hrun & Hb & Ho & _ & _); [ reflexivity | ].
  rewrite Hrun, (msgs_loop_error _ _ _ _ _ _ _ He). cbn [bind advance out buf].
  rewrite Ho. reflexivity.
Qed.

Lemma quiet_rows (tp : rtype) (cdcs : codecPair) (ms : list (Z * bytes)) :
  Forall (fun m => isQuiet m = true) ms ->
  decodeRows tp cdcs ms = Some [] /\
  (forall dst, decodeInto cdcs ms dst = Some dst) /\
  existsb isData ms = false.
Proof.
  induction 1 as [ | [t p] ms Hq _ IH ]; [ auto | ].
  destruct IH as (Hr & Hi & He).
  pose proof (isQuiet_cases _ _ Hq) as [HnD _].
  cbn [decodeRows decodeInto existsb]. unfold isData. cbn [fst].
  rewrite HnD, Hq. auto.
Qed.

Lemma dataCount_rows (tp : rtype) (cdcs : codecPair) (ms : list (Z * bytes)) :
  forall rows, decodeRows tp cdcs ms = Some rows -> length rows = dataCount ms.
Proof.
  unfold dataCount.
  induction ms as [ | m ms IH ]; intros rows Hrows.
  - injection Hrows as <-. reflexivity.
  - cbn [decodeRows] in Hrows. rewrite filter_cons.
    destruct (isData m) eqn:Hd.
    + destruct (dataValue (snd m)); [ | discriminate ]. cbn in Hrows.
      destruct (Decode _ _ _); [ | discriminate ]. cbn in Hrows.
      destruct (decodeRows tp cdcs ms) as [ rows' | ]; [ | discriminate ].
      injection Hrows as <-. rewrite decide_True by reflexivity.
      cbn [length]. now rewrite (IH rows').
    + rewrite decide_False by congruence.
      destruct (isQuiet m); [ auto | discriminate ].
Qed.

(** *** The batches the flow writes *)

Lemma PutMsgLength_type (t : Z) (b b' : bytes) :
  PutMsgLength (t :: b) = Some b' -> batchType (b' ++ syncMsg) = Some t.
Proof.
  cbn. destruct b as [ | ? [ | ? [ | ? [ | ? ? ] ] ] ]; try discriminate.
  intros [= <-]. reflexivity.
Qed.

Lemma optimisticRequest_type (q : query) (cdcs : codecPair) (req : bytes) :
  appends (codecIn cdcs) ->
  optimisticRequest q cdcs = Some req ->
  batchType req = Some message.OptimisticExecute.
Proof.
  intros Happ. unfold optimisticRequest.
  destruct (Encode _ _ _) as [ b | ] eqn:Henc; [ | discriminate ].
  apply Happ in Henc as [t ->]. cbn [mbind option_bind].
  unfold PushString, PushBytes. cbn [app].
  destruct (PutMsgLength _) as [ b' | ] eqn:Hput; [ | discriminate ].
  intros [= <-]. now apply PutMsgLength_type in Hput.
Qed.

Lemma executeRequest_type (q : query) (cdcs : codecPair) (req : bytes) :
  appends (codecIn cdcs) ->
  executeRequest q cdcs = Some req ->
  batchType req = Some message.Execute.
Proof.
  intros Happ. unfold executeRequest.
  destruct (Encode _ _ _) as [ b | ] eqn:Henc; [ | discriminate ].
  apply Happ in Henc as [t ->]. cbn [mbind option_bind].
  unfold PushUint16, PushBytes. cbn [app].
  destruct (PutMsgLength _) as [ b' | ] eqn:Hput; [ | discriminate ].
  intros [= <-]. now apply PutMsgLength_type in Hput.
Qed.

Lemma prepareRequest_type (q : query) (req : bytes) :
  prepareRequest q = Some req -> batchType req = Some message.Prepare.
Proof.
  unfold prepareRequest, PushString, PushBytes, PushUint16, PushUint8.
  cbn [app mbind option_bind].
  destruct (PutMsgLength _) as [ b' | ] eqn:Hput; [ | discriminate ].
  intros [= <-]. now apply PutMsgLength_type in Hput.
Qed.

Lemma consume_conn (loop : nat -> query -> rtype -> codecPair -> loopState ->
                           outcome (loopState + loopState * error))
    (c : conn) (dst : rvalue) (q : query) (tp : rtype) (cdcs : codecPair)
    (resp : bytes) (r : flowResult) :
  consume loop c dst q tp cdcs resp = Return r -> r_conn r = c.
Proof.
  unfold consume.
  destruct (if negb (flat q) then _ else _); cbn [bind]; try discriminate.
  destruct (loop _ _ _ _ _) as [ [ s | [s e] ] | | ]; cbn [bind];
    try discriminate; now intros [= <-].
Qed.

Lemma writeAndRead_sent (c c' : conn) (req : bytes) (r : error + bytes) :
  writeAndRead c req = (c', r) -> sent c' = sent c ++ [req].
Proof.
  unfold writeAndRead. destruct (replies c); now intros [= <- _].
Qed.

(** [optimistic] writes one batch, its request. *)
Lemma optimistic_sent (c : conn) (dst : rvalue) (q : query) (tp : rtype)
    (cdcs : codecPair) (r : flowResult) :
  optimistic c dst q tp cdcs = Return r ->
  exists req, optimisticRequest q cdcs = Some req /\
              sent (r_conn r) = sent c ++ [req].
Proof.
  unfold optimistic.
  destruct (optimisticRequest q cdcs) as [ req | ]; [ | discriminate ].
  cbn [orPanic bind].
  destruct (writeAndRead c req) as [c' x] eqn:Hw.
  apply writeAndRead_sent in Hw.
  intros Hr. exists req. split; [ reflexivity | ].
  destruct x as [ e | resp ].
  - injection Hr as <-. exact Hw.
  - apply consume_conn in Hr. now rewrite Hr.
Qed.

Lemma optimistic_no_negotiation (c : conn) (dst : rvalue) (q : query)
    (tp : rtype) (cdcs : codecPair) (r : flowResult) :
  appends (codecIn cdcs) ->
  optimistic c dst q tp cdcs = Return r ->
  newBatches c (r_conn r) =
    match optimisticRequest q cdcs with Some req => [req] | None => [] end /\
  ~ sendsNegotiation c (r_conn r).
Proof.
  intros Happ Hr. apply optimistic_sent in Hr as (req & Hreq & Hsent).
  assert (Hnew : newBatches c (r_conn r) = [req]).
  { unfold newBatches. rewrite Hsent. apply drop_app_length. }
  rewrite Hreq. split; [ exact Hnew | ].
  intros (b & Hin & Hb). rewrite Hnew in Hin.
  destruct Hin as [ <- | [] ].
  rewrite (optimisticRequest_type q cdcs req Happ Hreq) in Hb.
  destruct Hb as [ Hb | Hb ]; discriminate Hb.
Qed.

(** [prepare] writes one batch, a [Prepare] message. *)
Lemma prepare_sent (c c' : conn) (q : query) (ids : idPair) (e : option error) :
  prepare c q = Return (c', ids, e) ->
  exists req, prepareRequest q = Some req /\ sent c' = sent c ++ [req].
Proof.
  unfold prepare.
  destruct (prepareRequest q) as [ req | ]; [ | discriminate ].
  cbn [orPanic bind].
  destruct (writeAndRead c req) as [c1 x] eqn:Hw.
  apply writeAndRead_sent in Hw.
  intros Hr. exists req. split; [ reflexivity | ].
  destruct x as [ e' | resp ].
  - injection Hr as <- _ _. exact Hw.
  - destruct (prepare_loop _ _ _) as [ [ i | [i e'] ] | | ]; cbn [bind] in Hr;
      try discriminate; injection Hr as <- _ _; exact Hw.
Qed.

Lemma describe_sent (c c' : conn) (descs : descPair) (e : option error) :
  describe c = Return (c', descs, e) ->
  exists req, sent c' = sent c ++ [req].
Proof.
  unfold describe.
  destruct describeRequest as [ req | ]; [ | discriminate ].
  cbn [orPanic bind].
  destruct (writeAndRead c req) as [c1 x] eqn:Hw.
  apply writeAndRead_sent in Hw.
  intros Hr. exists req.
  destruct x as [ e' | resp ].
  - injection Hr as <- _ _. exact Hw.
  - destruct (describe_loop _ _ _) as [ [ i | [i e'] ] | | ]; cbn [bind] in Hr;
      try discriminate; injection Hr as <- _ _; exact Hw.
Qed.

Lemma execute_sent (c : conn) (dst : rvalue) (q : query) (tp : rtype)
    (cdcs : codecPair) (r : flowResult) :
  execute c dst q tp cdcs = Return r ->
  exists req, executeRequest q cdcs = Some req /\
              sent (r_conn r) = sent c ++ [req].
Proof.
  unfold execute.
  destruct (executeRequest q cdcs) as [ req | ]; [ | discriminate ].
  cbn [orPanic bind].
  destruct (writeAndRead c req) as [c' x] eqn:Hw.
  apply writeAndRead_sent in Hw.
  intros Hr. exists req. split; [ reflexivity | ].
  destruct x as [ e | resp ].
  - injection Hr as <-. exact Hw.
  - apply consume_conn in Hr. now rewrite Hr.
Qed.

Section Pessimistic.
Context {builder : CodecBuilder}.

(** Whatever [pesimistic] returns, the first batch it wrote is a
    [Prepare] message. *)
Lemma pesimistic_sent (w w' : caches) (c : conn) (dst : rvalue) (q : query)
    (tp : rtype) (r : flowResult) :
  pesimistic w c dst q tp = Return (w', r) ->
  exists req more,
    prepareRequest q = Some req /\
    sent (r_conn r) = sent c ++ req :: more.
Proof.
  unfold pesimistic.
  destruct (prepare c q) as [ [ [c1 ids] e ] | | ] eqn:Hp; cbn [bind];
    try discriminate.
  destruct (prepare_sent _ _ _ _ _ Hp) as (req & Hreq & Hs1).
  intros Hr. exists req.
  destruct e as [ e | ].
  { injection Hr as <- <-. exists []. now split. }
  destruct (getDescriptorsByID w ids) as [ descs | ]; cbn [bind] in Hr.
  - destruct (buildCodecs q tp descs) as [ cdcs | e ].
    + destruct (execute c1 dst q tp cdcs) as [ r1 | | ] eqn:He; cbn [bind] in Hr;
        try discriminate.
      injection Hr as <- <-.
      destruct (execute_sent _ _ _ _ _ _ He) as (req2 & _ & Hs2).
      exists [req2]. split; [ exact Hreq | ].
      rewrite Hs2, Hs1, <- app_assoc. reflexivity.
    + injection Hr as <- <-. exists []. now split.
  - destruct (describe c1) as [ [ [c2 descs] e ] | | ] eqn:Hd; cbn [bind] in Hr;
      try discriminate.
    destruct (describe_sent _ _ _ _ Hd) as (reqd & Hs2).
    destruct e as [ e | ]; cbn [bind] in Hr.
    { injection Hr as <- <-. exists [reqd]. split; [ exact Hreq | ].
      cbn [failed r_conn]. rewrite Hs2, Hs1, <- app_assoc. reflexivity. }
    destruct (buildCodecs q tp descs) as [ cdcs | e ].
    + destruct (execute c2 dst q tp cdcs) as [ r1 | | ] eqn:He; cbn [bind] in Hr;
        try discriminate.
      injection Hr as <- <-.
      destruct (execute_sent _ _ _ _ _ _ He) as (req3 & _ & Hs3).
      exists [reqd; req3]. split; [ exact Hreq | ].
      rewrite Hs3, Hs2, Hs1, <- !app_assoc. reflexivity.
    + injection Hr as <- <-. exists [reqd]. split; [ exact Hreq | ].
      cbn [failed r_conn]. rewrite Hs2, Hs1, <- app_assoc. reflexivity.
Qed.

End Pessimistic.

(** *** The result policy *)

Lemma flat_many (q : query) : expCard q = cardinality.Many -> flat q = false.
Proof. unfold flat. now intros ->. Qed.

Lemma flat_one (q : query) : expCard q = cardinality.One -> flat q = true.
Proof. unfold flat. now intros ->. Qed.

Lemma decodeError_server (m : bytes) (e : error) :
  decodeError m = Some e -> exists sev code txt, e = ServerError sev code txt.
Proof.
  unfold decodeError.
  destruct (PopUint32 m) as [ [? m1] | ]; [ | discriminate ]. cbn.
  destruct (PopUint8 m1) as [ [sev m2] | ]; [ | discriminate ]. cbn.
  destruct (PopUint32 m2) as [ [code m3] | ]; [ | discriminate ]. cbn.
  destruct (PopString m3) as [ [txt ?] | ]; [ | discriminate ]. cbn.
  intros [= <-]. eauto.
Qed.

(** C1 (amended).  When the response holds no [Data] message and no
    [ErrorResponse], [execute] and [optimistic] return [ErrorZeroResults],
    which no decoded server error equals; this is so for every query,
    whatever its cardinality: a query for cardinality many gets the same
    error, with its destination emptied. *)
Theorem C1_zero_results (c : conn) (dst : rvalue) (q : query) (tp : rtype)
    (cdcs : codecPair) (ms : list (Z * bytes)) (rs : list (error + bytes))
    (req req' : bytes) :
  framed ms ->
  Forall (fun m => isQuiet m = true) ms ->
  (flat q = false -> exists l, dst = Slice l) ->
  executeRequest q cdcs = Some req ->
  optimisticRequest q cdcs = Some req' ->
  replies c = inr (stream ms) :: rs ->
  execute c dst q tp cdcs =
    Return {| r_conn := afterWrite c req rs;
              r_out := if flat q then dst else Slice [];
              r_unread := []; r_err := Some ErrorZeroResults |} /\
  optimistic c dst q tp cdcs =
    Return {| r_conn := afterWrite c req' rs;
              r_out := if flat q then dst else Slice [];
              r_unread := []; r_err := Some ErrorZeroResults |} /\
  (forall m e, decodeError m = Some e -> e <> ErrorZeroResults).
Proof.
  intros Hms Hq Hdst Hreq Hreq' Hrep.
  destruct (quiet_rows tp cdcs ms Hq) as (Hrows & Hinto & Hnone).
  rewrite (execute_consume _ _ _ _ _ _ _ _ Hreq Hrep),
          (optimistic_consume _ _ _ _ _ _ _ _ Hreq' Hrep).
  split; [ | split ].
  - destruct (flat q) eqn:Hflat.
    + rewrite (consume_value _ _ _ _ _ _ _ Hflat Hms (Hinto dst)), Hnone.
      reflexivity.
    + destruct (Hdst eq_refl) as [l ->].
      rewrite (consume_rows _ _ _ _ _ _ _ Hflat Hms Hrows), Hnone. reflexivity.
  - destruct (flat q) eqn:Hflat.
    + rewrite (consume_value _ _ _ _ _ _ _ Hflat Hms (Hinto dst)), Hnone.
      reflexivity.
    + destruct (Hdst eq_refl) as [l ->].
      rewrite (consume_rows _ _ _ _ _ _ _ Hflat Hms Hrows), Hnone. reflexivity.
  - intros m e He. apply decodeError_server in He as (? & ? & ? & ->).
    discriminate.
Qed.

(** C5.  For a query of cardinality many, whatever the destination slice
    holds on entry (the rows of an earlier call, say), after [execute] or
    [optimistic] it holds exactly the rows decoded from the [Data]
    messages of this call, in order, one per message. *)
Theorem C5_many_truncates (c : conn) (l0 rows : list rvalue) (q : query)
    (tp : rtype) (cdcs : codecPair) (ms : list (Z * bytes))
    (rs : list (error + bytes)) (req req' : bytes) :
  expCard q = cardinality.Many ->
  framed ms ->
  decodeRows tp cdcs ms = Some rows ->
  executeRequest q cdcs = Some req ->
  optimisticRequest q cdcs = Some req' ->
  replies c = inr (stream ms) :: rs ->
  execute c (Slice l0) q tp cdcs =
    Return {| r_conn := afterWrite c req rs; r_out := Slice rows;
              r_unread := [];
              r_err := if existsb isData ms then None
                       else Some ErrorZeroResults |} /\
  optimistic c (Slice l0) q tp cdcs =
    Return {| r_conn := afterWrite c req' rs; r_out := Slice rows;
              r_unread := [];
              r_err := if existsb isData ms then None
                       else Some ErrorZeroResults |} /\
  length rows = dataCount ms.
Proof.
  intros Hmany Hms Hrows Hreq Hreq' Hrep.
  apply flat_many in Hmany.
  rewrite (execute_consume _ _ _ _ _ _ _ _ Hreq Hrep),
          (optimistic_consume _ _ _ _ _ _ _ _ Hreq' Hrep).
  rewrite !(consume_rows _ _ _ _ _ _ _ Hmany Hms Hrows).
  repeat split. exact (dataCount_rows _ _ _ _ Hrows).
Qed.

Lemma decodeInto_app (cdcs : codecPair) (pre post : list (Z * bytes)) :
  forall dst v,
  decodeInto cdcs pre dst = Some v ->
  decodeInto cdcs (pre ++ post) dst = decodeInto cdcs post v.
Proof.
  induction pre as [ | m pre IH ]; intros dst v Hv.
  - now injection Hv as <-.
  - cbn [app decodeInto] in *.
    destruct (isData m).
    + destruct (dataValue (snd m)); [ | discriminate ]. cbn in *.
      destruct (Decode _ _ _); [ | discriminate ]. cbn in *. auto.
    + destruct (isQuiet m); [ auto | discriminate ].
Qed.

Lemma existsb_isData_last (pre post : list (Z * bytes)) (p : bytes) :
  existsb isData (pre ++ (message.Data, p) :: post) = true.
Proof.
  rewrite existsb_app. cbn [existsb]. unfold isData at 2. cbn [fst].
  rewrite Z.eqb_refl. cbn. apply orb_true_r.
Qed.

(** C10.  For a query of cardinality one, a response with any number of
    [Data] messages does not make [execute] or [optimistic] fail: each is
    decoded into the destination in turn, and the call returns no error
    with the destination holding what the last [Data] message decoded to,
    on top of the value the earlier ones left. *)
Theorem C10_flat_last_row (c : conn) (dst v0 v : rvalue) (q : query)
    (tp : rtype) (cdcs : codecPair) (pre post : list (Z * bytes))
    (p b : bytes) (rs : list (error + bytes)) (req req' : bytes) :
  expCard q = cardinality.One ->
  framed (pre ++ (message.Data, p) :: post) ->
  decodeInto cdcs pre dst = Some v0 ->
  dataValue p = Some b ->
  Decode (codecOut cdcs) b v0 = Some v ->
  Forall (fun m => isQuiet m = true) post ->
  executeRequest q cdcs = Some req ->
  optimisticRequest q cdcs = Some req' ->
  replies c = inr (stream (pre ++ (message.Data, p) :: post)) :: rs ->
  execute c dst q tp cdcs =
    Return {| r_conn := afterWrite c req rs; r_out := v;
              r_unread := []; r_err := None |} /\
  optimistic c dst q tp cdcs =
    Return {| r_conn := afterWrite c req' rs; r_out := v;
              r_unread := []; r_err := None |}.
Proof.
  intros Hone Hms Hpre Hb Hv Hpost Hreq Hreq' Hrep.
  apply flat_one in Hone.
  assert (Hall : decodeInto cdcs (pre ++ (message.Data, p) :: post) dst = Some v).
  { rewrite (decodeInto_app _ _ _ _ _ Hpre). cbn [decodeInto].
    unfold isData at 1. cbn [fst snd]. rewrite Z.eqb_refl, Hb. cbn.
    rewrite Hv. cbn. apply (quiet_rows tp cdcs post Hpost). }
  rewrite (execute_consume _ _ _ _ _ _ _ _ Hreq Hrep),
          (optimistic_consume _ _ _ _ _ _ _ _ Hreq' Hrep).
  rewrite !(consume_value _ _ _ _ _ _ _ Hone Hms Hall), existsb_isData_last.
  split; reflexivity.
Qed.

(** An [ErrorResponse] after [Data] and quiet messages: both calls return
    the decoded error there and then, and the messages after it stay in
    the buffer, not looked at. *)
Lemma error_returns_at_once (c : conn) (dst v : rvalue) (q : query)
    (tp : rtype) (cdcs : codecPair) (pre post : list (Z * bytes)) (p : bytes)
    (e : error) (rs : list (error + bytes)) (req req' : bytes) :
  framed (pre ++ (message.ErrorResponse, p) :: post) ->
  outAtError q tp cdcs pre dst = Some v ->
  decodeError (lengthField p ++ p) = Some e ->
  executeRequest q cdcs = Some req ->
  optimisticRequest q cdcs = Some req' ->
  replies c = inr (stream (pre ++ (message.ErrorResponse, p) :: post)) :: rs ->
  execute c dst q tp cdcs =
    Return {| r_conn := afterWrite c req rs; r_out := v;
              r_unread := stream post; r_err := Some e |} /\
  optimistic c dst q tp cdcs =
    Return {| r_conn := afterWrite c req' rs; r_out := v;
              r_unread := stream post; r_err := Some e |}.
Proof.
  intros Hms Hv He Hreq Hreq' Hrep.
  rewrite (execute_consume _ _ _ _ _ _ _ _ Hreq Hrep),
          (optimistic_consume _ _ _ _ _ _ _ _ Hreq' Hrep).
  unfold outAtError in Hv. destruct (flat q) eqn:Hflat.
  - rewrite !(consume_error_value _ _ _ _ _ _ _ _ _ _ Hflat Hms Hv He).
    split; reflexivity.
  - destruct (decodeRows tp cdcs pre) as [ rows | ] eqn:Hrows; [ | discriminate ].
    cbn in Hv. destruct dst as [ ? | l0 ]; [ discriminate | ].
    injection Hv as <-.
    rewrite !(consume_error_rows _ _ _ _ _ _ _ _ _ _ Hflat Hms Hrows He).
    split; reflexivity.
Qed.

(** *** No call ends for lack of fuel *)

Lemma prepare_loop_fuel (fuel : nat) :
  forall (b : bytes) (ids : idPair),
  (length b <= fuel)%nat -> prepare_loop fuel b ids <> OutOfFuel.
Proof.
  induction fuel as [ | fuel IH ]; intros b ids Hlen.
  - cbn. destruct b; [ discriminate | cbn in Hlen; lia ].
  - cbn [prepare_loop].
    destruct (negb (4 <? Z.of_nat (length b))); [ discriminate | ].
    destruct (PopMessage b) as [ [msg rest] | ] eqn:Hm; [ | discriminate ].
    cbn [orPanic bind].
    destruct (PopUint8 msg) as [ [mType m] | ] eqn:Ht; [ | discriminate ].
    cbn [orPanic bind].
    pose proof (PopMessage_shorter _ _ _ _ _ Hm Ht) as Hshort.
    destruct (mType =? message.PrepareComplete).
    { destruct (PopUint32 m) as [ [? m1] | ]; [ | discriminate ]. cbn [orPanic bind].
      destruct (PopUint16 m1) as [ [? m2] | ]; [ | discriminate ]. cbn [orPanic bind].
      destruct (PopUint8 m2) as [ [? m3] | ]; [ | discriminate ]. cbn [orPanic bind].
      destruct (PopUUID m3) as [ [? m4] | ]; [ | discriminate ]. cbn [orPanic bind].
      destruct (PopUUID m4) as [ [? m5] | ]; [ | discriminate ]. cbn [orPanic bind].
      apply IH. lia. }
    destruct (mType =? message.ReadyForCommand); [ apply IH; lia | ].
    destruct (mType =? message.ErrorResponse); [ | discriminate ].
    destruct (decodeError m); discriminate.
Qed.

Lemma describe_loop_fuel (fuel : nat) :
  forall (b : bytes) (descs : descPair),
  (length b <= fuel)%nat -> describe_loop fuel b descs <> OutOfFuel.
Proof.
  induction fuel as [ | fuel IH ]; intros b descs Hlen.
  - cbn. destruct b; [ discriminate | cbn in Hlen; lia ].
  - cbn [describe_loop].
    destruct (negb (4 <? Z.of_nat (length b))); [ discriminate | ].
    destruct (PopMessage b) as [ [msg rest] | ] eqn:Hm; [ | discriminate ].
    cbn [orPanic bind].
    destruct (PopUint8 msg) as [ [mType m] | ] eqn:Ht; [ | discriminate ].
    cbn [orPanic bind].
    pose proof (PopMessage_shorter _ _ _ _ _ Hm Ht) as Hshort.
    destruct (mType =? message.CommandDataDescription).
    { destruct (PopUint32 m) as [ [? m1] | ]; [ | discriminate ]. cbn [orPanic bind].
      destruct (PopUint16 m1) as [ [? m2] | ]; [ | discriminate ]. cbn [orPanic bind].
      destruct (PopUint8 m2) as [ [? m3] | ]; [ | discriminate ]. cbn [orPanic bind].
      destruct (PopUUID m3) as [ [? m4] | ]; [ | discriminate ]. cbn [orPanic bind].
      destruct (PopBytes m4) as [ [? m5] | ]; [ | discriminate ]. cbn [orPanic bind].
      destruct (PopUUID m5) as [ [? m6] | ]; [ | discriminate ]. cbn [orPanic bind].
      destruct (PopBytes m6) as [ [? m7] | ]; [ | discriminate ]. cbn [orPanic bind].
      apply IH. lia. }
    destruct (mType =? message.ReadyForCommand); [ apply IH; lia | ].
    destruct (mType =? message.ErrorResponse); [ | discriminate ].
    destruct (decodeError m); discriminate.
Qed.

Lemma prepare_total (c : conn) (q : query) : prepare c q <> OutOfFuel.
Proof.
  unfold prepare. destruct (prepareRequest q); [ | discriminate ].
  cbn [orPanic bind]. destruct (writeAndRead c _) as [c' [ e | resp ] ];
    [ discriminate | ].
  pose proof (prepare_loop_fuel (length resp) resp zeroIDs (le_n _)).
  destruct (prepare_loop _ _ _) as [ [ ? | [? ?] ] | | ]; cbn [bind]; congruence.
Qed.

Lemma describe_total (c : conn) : describe c <> OutOfFuel.
Proof.
  unfold describe. destruct describeRequest; [ | discriminate ].
  cbn [orPanic bind]. destruct (writeAndRead c _) as [c' [ e | resp ] ];
    [ discriminate | ].
  pose proof (describe_loop_fuel (length resp) resp zeroDescs (le_n _)).
  destruct (describe_loop _ _ _) as [ [ ? | [? ?] ] | | ]; cbn [bind]; congruence.
Qed.

Lemma execute_total (c : conn) (dst : rvalue) (q : query) (tp : rtype)
    (cdcs : codecPair) :
  execute c dst q tp cdcs <> OutOfFuel.
Proof.
  unfold execute. destruct (executeRequest q cdcs); [ | discriminate ].
  cbn [orPanic bind]. destruct (writeAndRead c _) as [c' [ e | resp ] ];
    [ discriminate | apply consume_fuel ].
Qed.

Lemma optimistic_total (c : conn) (dst : rvalue) (q : query) (tp : rtype)
    (cdcs : codecPair) :
  optimistic c dst q tp cdcs <> OutOfFuel.
Proof.
  unfold optimistic. destruct (optimisticRequest q cdcs); [ | discriminate ].
  cbn [orPanic bind]. destruct (writeAndRead c _) as [c' [ e | resp ] ];
    [ discriminate | ].
  replace (consume optimistic_loop c' dst q tp cdcs resp)
    with (consume execute_loop c' dst q tp cdcs resp); [ apply consume_fuel | ].
  unfold consume. apply bind_ext; intros d _.
  now rewrite optimistic_loop_execute_loop.
Qed.

(** *** The cache decides the path *)

Section Paths.
Context {builder : CodecBuilder}.

Lemma pesimistic_total (w : caches) (c : conn) (dst : rvalue) (q : query)
    (tp : rtype) :
  pesimistic w c dst q tp <> OutOfFuel.
Proof.
  unfold pesimistic. pose proof (prepare_total c q) as Hp.
  destruct (prepare c q) as [ [ [c1 ids] [ e | ] ] | | ]; cbn [bind];
    try discriminate; try congruence.
  destruct (getDescriptorsByID w ids) as [ descs | ]; cbn [bind].
  - destruct (buildCodecs q tp descs) as [ cdcs | e ]; [ | discriminate ].
    pose proof (execute_total c1 dst q tp cdcs).
    destruct (execute c1 dst q tp cdcs); cbn [bind]; congruence.
  - pose proof (describe_total c1) as Hd.
    destruct (describe c1) as [ [ [c2 descs] [ e | ] ] | | ]; cbn [bind];
      try discriminate; try congruence.
    destruct (buildCodecs q tp descs) as [ cdcs | e ]; [ | discriminate ].
    pose proof (execute_total c2 dst q tp cdcs).
    destruct (execute c2 dst q tp cdcs); cbn [bind]; congruence.
Qed.

Lemma granularFlow_total (w : caches) (c : conn) (outT : rtype) (dst : rvalue)
    (q : query) :
  granularFlow w c outT dst q <> OutOfFuel.
Proof.
  unfold granularFlow.
  destruct (if negb (flat q) then orPanic (Elem outT) else Return outT)
    as [ tp | | ] eqn:Htp; cbn [bind]; try discriminate.
  - destruct (getCodecs w q tp) as [ cdcs | ].
    { pose proof (optimistic_total c dst q tp cdcs).
      destruct (optimistic c dst q tp cdcs); cbn [bind]; congruence. }
    destruct (getDescriptors w q) as [ descs | ]; [ | apply pesimistic_total ].
    destruct (buildCodecs q tp descs) as [ cdcs | e ]; [ | discriminate ].
    pose proof (optimistic_total c dst q tp cdcs).
    destruct (optimistic c dst q tp cdcs); cbn [bind]; congruence.
  - destruct (negb (flat q)); [ destruct (Elem outT) | ]; discriminate.
Qed.

Lemma getCodecs_putCodecs (w : caches) (q : query) (tp : rtype)
    (cdcs : codecPair) :
  getCodecs (putCodecs w q tp cdcs) q tp = Some cdcs.
Proof. unfold getCodecs, putCodecs. cbn. apply lookup_insert_eq. Qed.

Lemma getCodecs_putCodecs_other (w : caches) (q : query) (tp tp' : rtype)
    (cdcs : codecPair) :
  tp' <> tp ->
  getCodecs (putCodecs w q tp' cdcs) q tp = getCodecs w q tp.
Proof.
  intros Hne. unfold getCodecs, putCodecs. cbn.
  apply lookup_insert_ne. congruence.
Qed.

(** C4.  With [tp] the type the flow computes from the destination:
    on a codec-cache hit [granularFlow] is [optimistic] with the cached
    codecs and writes no [Prepare] or [DescribeStatement] batch; on a
    codec-cache miss with a descriptor-cache hit it builds codecs from the
    cached descriptors for this very [tp], caches them and is [optimistic]
    with them, again without negotiation (and writes nothing when the
    build fails); when both miss it is [pesimistic], whose first batch is
    a [Prepare] message.  So negotiation is written only when both caches
    miss, and an entry cached for another output type is never what a
    lookup for [tp] finds. *)
Theorem C4_cache_paths (w : caches) (c : conn) (outT tp : rtype)
    (dst : rvalue) (q : query) :
  (if flat q then outT = tp else Elem outT = Some tp) ->
  (forall cdcs, getCodecs w q tp = Some cdcs -> appends (codecIn cdcs)) ->
  (forall descs cdcs, buildCodecs q tp descs = inl cdcs -> appends (codecIn cdcs)) ->
  (forall cdcs, getCodecs w q tp = Some cdcs ->
     granularFlow w c outT dst q =
       bind (optimistic c dst q tp cdcs) (fun r => Return (w, r))) /\
  (forall descs, getCodecs w q tp = None -> getDescriptors w q = Some descs ->
     match buildCodecs q tp descs with
     | inl cdcs =>
         granularFlow w c outT dst q =
           bind (optimistic c dst q tp cdcs)
                (fun r => Return (putCodecs w q tp cdcs, r))
     | inr e => granularFlow w c outT dst q = Return (w, failed c dst e)
     end) /\
  (getCodecs w q tp = None -> getDescriptors w q = None ->
     granularFlow w c outT dst q = pesimistic w c dst q tp /\
     forall w' r, granularFlow w c outT dst q = Return (w', r) ->
       exists req more, sent (r_conn r) = sent c ++ req :: more /\
                        batchType req = Some message.Prepare) /\
  (forall w' r, granularFlow w c outT dst q = Return (w', r) ->
     sendsNegotiation c (r_conn r) ->
     getCodecs w q tp = None /\ getDescriptors w q = None) /\
  (forall tp' cdcs', tp' <> tp ->
     getCodecs (putCodecs w q tp' cdcs') q tp = getCodecs w q tp).
Proof.
  intros Htp Hcached Hbuilt.
  assert (Hstart : (if negb (flat q) then orPanic (Elem outT) else Return outT)
                   = Return tp).
  { destruct (flat q); cbn; [ now subst | now rewrite Htp ]. }
  assert (Hhit : forall cdcs, getCodecs w q tp = Some cdcs ->
     granularFlow w c outT dst q =
       bind (optimistic c dst q tp cdcs) (fun r => Return (w, r))).
  { intros cdcs Hc. unfold granularFlow. rewrite Hstart. cbn [bind].
    now rewrite Hc. }
  assert (Hmid : forall descs, getCodecs w q tp = None ->
     getDescriptors w q = Some descs ->
     match buildCodecs q tp descs with
     | inl cdcs =>
         granularFlow w c outT dst q =
           bind (optimistic c dst q tp cdcs)
                (fun r => Return (putCodecs w q tp cdcs, r))
     | inr e => granularFlow w c outT dst q = Return (w, failed c dst e)
     end).
  { intros descs Hc Hd. unfold granularFlow. rewrite Hstart. cbn [bind].
    rewrite Hc, Hd. now destruct (buildCodecs q tp descs). }
  assert (Hmiss : getCodecs w q tp = None -> getDescriptors w q = None ->
     granularFlow w c outT dst q = pesimistic w c dst q tp).
  { intros Hc Hd. unfold granularFlow. rewrite Hstart. cbn [bind].
    now rewrite Hc, Hd. }
  split; [ exact Hhit | ]. split; [ exact Hmid | ]. split; [ | split ].
  - intros Hc Hd. split; [ now apply Hmiss | ].
    intros w' r Hr. rewrite (Hmiss Hc Hd) in Hr.
    destruct (pesimistic_sent _ _ _ _ _ _ _ Hr) as (req & more & Hreq & Hs).
    exists req, more. split; [ exact Hs | ].
    exact (prepareRequest_type q req Hreq).
  - intros w' r Hr Hneg.
    destruct (getCodecs w q tp) as [ cdcs | ] eqn:Hc.
    { exfalso. rewrite (Hhit cdcs eq_refl) in Hr.
      destruct (optimistic c dst q tp cdcs) as [ r1 | | ] eqn:Ho;
        cbn [bind] in Hr; try discriminate.
      injection Hr as _ <-.
      now apply (optimistic_no_negotiation _ _ _ _ _ _ (Hcached _ eq_refl) Ho). }
    split; [ reflexivity | ].
    destruct (getDescriptors w q) as [ descs | ] eqn:Hd; [ exfalso | reflexivity ].
    specialize (Hmid descs eq_refl eq_refl).
    destruct (buildCodecs q tp descs) as [ cdcs | e ] eqn:Hb.
    + rewrite Hmid in Hr.
      destruct (optimistic c dst q tp cdcs) as [ r1 | | ] eqn:Ho;
        cbn [bind] in Hr; try discriminate.
      injection Hr as _ <-.
      now apply (optimistic_no_negotiation _ _ _ _ _ _ (Hbuilt _ _ Hb) Ho).
    + rewrite Hmid in Hr. injection Hr as _ <-.
      destruct Hneg as (b & Hin & _). unfold newBatches in Hin.
      cbn [failed r_conn] in Hin. now rewrite drop_all in Hin.
  - intros tp' cdcs' Hne. now apply getCodecs_putCodecs_other.
Qed.

End Paths.

End Facts.
End granular_facts.

(** ** Object decoder *)

Module codecs_facts.
Import protocol protocol_facts codecs.

Section Facts.
Context `{Memory}.

Lemma Discard_reserved (r0 r1 r2 r3 : Z) (r : Reader) :
  Discard 4 (r0 :: r1 :: r2 :: r3 :: r) = Some r.
Proof.
  unfold Discard.
  change 4 with (Z.of_nat (length [r0; r1; r2; r3])).
  change (r0 :: r1 :: r2 :: r3 :: r) with ([r0; r1; r2; r3] ++ r).
  now rewrite split_at_app.
Qed.

Lemma PopSlice_app (n : Z) (payload rest : bytes) :
  n = Z.of_nat (length payload) ->
  PopSlice n (payload ++ rest) = Some (payload, rest).
Proof. intros ->. apply split_at_app. Qed.

(** A present element: the field's decoder is given exactly the declared
    bytes, and the loop goes on right after them, wherever the decoder
    stopped reading. *)
Lemma decodeFields_present (field : DecoderField) (fields : list DecoderField)
    (r0 r1 r2 r3 l3 l2 l1 l0 : Z) (payload rest : bytes) (out : Z) (m : Mem) :
  decode_u32 l3 l2 l1 l0 = Z.of_nat (length payload) ->
  decode_u32 l3 l2 l1 l0 <> 0xffffffff ->
  decodeFields (field :: fields)
    ([r0; r1; r2; r3; l3; l2; l1; l0] ++ payload ++ rest) out m =
  match Decode (decoder field) payload (pAdd out (offset field)) m with
  | None => None
  | Some (_, m', Some e) => Some (rest, m', Some e)
  | Some (_, m', None) => decodeFields fields rest out m'
  end.
Proof.
  intros Hlen Hne. cbn [decodeFields app].
  rewrite Discard_reserved. cbn [mbind option_bind PopUint32 protocol.PopUint32].
  apply Z.eqb_neq in Hne. rewrite Hne.
  rewrite (PopSlice_app _ _ _ Hlen). cbn [mbind option_bind].
  destruct (Decode _ _ _ _) as [ [ [? m'] [ e | ] ] | ]; reflexivity.
Qed.

(** A missing element: the handler is called, the decoder is not. *)
Lemma decodeFields_missing (field : DecoderField) (fields : list DecoderField)
    (r0 r1 r2 r3 l3 l2 l1 l0 : Z) (rest : bytes) (out : Z) (m : Mem) :
  decode_u32 l3 l2 l1 l0 = 0xffffffff ->
  decodeFields (field :: fields)
    ([r0; r1; r2; r3; l3; l2; l1; l0] ++ rest) out m =
  match DecodeMissing (decoder field) with
  | None => None
  | Some missing =>
      decodeFields fields rest out (missing (pAdd out (offset field)) m)
  end.
Proof.
  intros Hlen. cbn [decodeFields app].
  rewrite Discard_reserved. cbn [mbind option_bind PopUint32 protocol.PopUint32].
  rewrite Hlen. change (4294967295 =? 4294967295) with true. cbn iota.
  destruct (DecodeMissing (decoder field)); reflexivity.
Qed.

Lemma skipFields_step (n : nat) (r r1 r2 : Reader) (elmLen : Z) :
  Discard 4 r = Some r1 ->
  PopUint32 r1 = Some (elmLen, r2) ->
  skipFields (S n) r =
    if elmLen =? 0xffffffff then skipFields n r2
    else '(_, r3) ← PopSlice elmLen r2; skipFields n r3.
Proof. intros H1 H2. cbn [skipFields]. rewrite H1. cbn. now rewrite H2. Qed.

(** Where [decodeFields] stops depends on the bytes alone: after all the
    elements when it succeeds, after the element whose decoder failed
    otherwise. *)
Lemma decodeFields_position (fields : list DecoderField) :
  forall (r r' : Reader) (out : Z) (m m' : Mem) (e : option error),
  decodeFields fields r out m = Some (r', m', e) ->
  exists k, (k <= length fields)%nat /\ skipFields k r = Some r' /\
            (e = None -> k = length fields).
Proof.
  induction fields as [ | field fields IH ]; intros r r' out m m' e Hd.
  - injection Hd as <- <- <-. exists O. auto.
  - cbn [decodeFields] in Hd.
    destruct (Discard 4 r) as [ r1 | ] eqn:H1; [ | discriminate ].
    cbn [mbind option_bind] in Hd.
    destruct (PopUint32 r1) as [ [elmLen r2] | ] eqn:H2; [ | discriminate ].
    cbn [mbind option_bind] in Hd.
    destruct (elmLen =? 4294967295) eqn:Hs.
    + destruct (DecodeMissing (decoder field)) as [ dm | ]; [ | discriminate ].
      cbn [mbind option_bind] in Hd.
      destruct (IH _ _ _ _ _ _ Hd) as (k & Hk & Hskip & Hall).
      exists (S k). rewrite (skipFields_step _ _ _ _ _ H1 H2), Hs.
      cbn [length]. repeat split; [ lia | exact Hskip | ].
      intros He. now rewrite (Hall He).
    + destruct (PopSlice elmLen r2) as [ [sub r3] | ] eqn:H3; [ | discriminate ].
      cbn [mbind option_bind] in Hd.
      destruct (Decode (decoder field) sub _ m) as [ [ [? m1] err ] | ];
        [ | discriminate ].
      cbn [mbind option_bind] in Hd.
      destruct err as [ e1 | ].
      * injection Hd as <- <- <-. exists 1%nat.
        rewrite (skipFields_step _ _ _ _ _ H1 H2), Hs, H3.
        cbn [length]. repeat split; [ lia | discriminate ].
      * destruct (IH _ _ _ _ _ _ Hd) as (k & Hk & Hskip & Hall).
        exists (S k). rewrite (skipFields_step _ _ _ _ _ H1 H2), Hs, H3.
        cbn [length]. repeat split; [ lia | exact Hskip | ].
        intros He. now rewrite (Hall He).
Qed.

(** C2.  When the declared element count differs from the number of
    compiled fields, [objectDecoder.Decode] fails with the error that
    names both counts, having read the four bytes of the count and
    written nothing; and when the object is itself a field of an
    enclosing compound value, the enclosing reader stands exactly after
    the declared length of that field. *)
Theorem C2_count_mismatch (fields : list DecoderField) (c3 c2 c1 c0 : Z)
    (body : bytes) (out : Z) (m : Mem) :
  decode_u32 c3 c2 c1 c0 <> Z.of_nat (length fields) ->
  objectDecoder_Decode fields ([c3; c2; c1; c0] ++ body) out m =
    Some (body, m,
          Some (wrongNumberOfFields (length fields) (decode_u32 c3 c2 c1 c0))) /\
  forall (id : bytes) (fname : string) (off : Z) (more : list DecoderField)
         (r0 r1 r2 r3 l3 l2 l1 l0 : Z) (rest : bytes),
    decode_u32 l3 l2 l1 l0 = Z.of_nat (length ([c3; c2; c1; c0] ++ body)) ->
    decode_u32 l3 l2 l1 l0 <> 0xffffffff ->
    decodeFields
      ({| name := fname; offset := off;
          decoder := objectDecoderOf id fields |} :: more)
      ([r0; r1; r2; r3; l3; l2; l1; l0] ++ ([c3; c2; c1; c0] ++ body) ++ rest)
      out m =
    Some (rest, m,
          Some (wrongNumberOfFields (length fields) (decode_u32 c3 c2 c1 c0))).
Proof.
  intros Hne.
  assert (Hdec : forall p, objectDecoder_Decode fields ([c3; c2; c1; c0] ++ body) p m =
    Some (body, m,
          Some (wrongNumberOfFields (length fields) (decode_u32 c3 c2 c1 c0)))).
  { intros p. unfold objectDecoder_Decode. cbn [app PopUint32 protocol.PopUint32].
    cbn [mbind option_bind]. apply Z.eqb_neq in Hne. now rewrite Hne. }
  split; [ apply Hdec | ].
  intros id fname off more r0 r1 r2 r3 l3 l2 l1 l0 rest Hlen Hsent.
  rewrite (decodeFields_present _ _ _ _ _ _ _ _ _ _ _ _ _ _ Hlen Hsent).
  cbn [decoder objectDecoderOf Decode]. now rewrite Hdec.
Qed.

(** C3.  For a field whose decoder has a missing-handler: on the sentinel
    length the loop calls the handler on the field's address and not the
    decoder; on length zero it calls the decoder, on an empty reader, and
    not the handler.  For the optional object decoder the handler is
    [SetMissing(true)] and the decoder starts with [SetMissing(false)]. *)
Theorem C3_missing_field (field : DecoderField) (fields : list DecoderField)
    (missing : Z -> Mem -> Mem) (r0 r1 r2 r3 : Z) (rest : bytes) (out : Z)
    (m : Mem) :
  DecodeMissing (decoder field) = Some missing ->
  decodeFields (field :: fields)
    ([r0; r1; r2; r3; 255; 255; 255; 255] ++ rest) out m =
    decodeFields fields rest out (missing (pAdd out (offset field)) m) /\
  decodeFields (field :: fields)
    ([r0; r1; r2; r3; 0; 0; 0; 0] ++ rest) out m =
    match Decode (decoder field) [] (pAdd out (offset field)) m with
    | None => None
    | Some (_, m', Some e) => Some (rest, m', Some e)
    | Some (_, m', None) => decodeFields fields rest out m'
    end /\
  forall (id : bytes) (fs : list DecoderField) (typ : Type_),
    DecodeMissing (optionalObjectDecoderOf id fs typ) =
      Some (SetMissing typ true) /\
    forall (r : Reader) (p : Z) (m0 : Mem),
      Decode (optionalObjectDecoderOf id fs typ) r p m0 =
        objectDecoder_Decode fs r p (SetMissing typ false p m0).
Proof.
  intros Hm. split; [ | split ].
  - rewrite decodeFields_missing by reflexivity. now rewrite Hm.
  - apply (decodeFields_present field fields r0 r1 r2 r3 0 0 0 0 [] rest);
      [ reflexivity | discriminate ].
  - intros id fs typ. split; reflexivity.
Qed.

(** C7.  A present element is decoded by handing the field's decoder a
    reader that holds exactly the declared number of bytes, and the loop
    goes on from the byte after them whatever reader the decoder leaves
    behind; so the position [decodeFields] ends at is the one read off the
    bytes alone. *)
Theorem C7_bounded_elements (field : DecoderField) (fields : list DecoderField)
    (r0 r1 r2 r3 l3 l2 l1 l0 : Z) (payload rest : bytes) (out : Z) (m : Mem) :
  decode_u32 l3 l2 l1 l0 = Z.of_nat (length payload) ->
  decode_u32 l3 l2 l1 l0 <> 0xffffffff ->
  decodeFields (field :: fields)
    ([r0; r1; r2; r3; l3; l2; l1; l0] ++ payload ++ rest) out m =
    match Decode (decoder field) payload (pAdd out (offset field)) m with
    | None => None
    | Some (_, m', Some e) => Some (rest, m', Some e)
    | Some (_, m', None) => decodeFields fields rest out m'
    end /\
  forall (fs : list DecoderField) (r r' : Reader) (m1 m' : Mem)
         (e : option error),
    decodeFields fs r out m1 = Some (r', m', e) ->
    exists k, (k <= length fs)%nat /\ skipFields k r = Some r' /\
              (e = None -> k = length fs).
Proof.
  intros Hlen Hne. split.
  - now apply decodeFields_present.
  - intros fs r r' m1 m' e. apply decodeFields_position.
Qed.

Section Build.
Context `{Builder}.

Lemma buildFields_app (pre l : list Field) (typ : Type_) (path : string) :
  buildFields (pre ++ l) typ path =
  match buildFields pre typ path with
  | inr e => inr e
  | inl fs =>
    match buildFields l typ path with
    | inr e => inr e
    | inl fs' => inl (fs ++ fs')
    end
  end.
Proof.
  induction pre as [ | f pre IH ]; cbn [app buildFields].
  - now destruct (buildFields l typ path).
  - destruct (StructField typ (Name f)) as [ sf | ]; [ | reflexivity ].
    destruct (BuildDecoder _ _ _) as [ child | e ]; [ | reflexivity ].
    destruct (negb (Required f) && negb (isOptional child)); [ reflexivity | ].
    rewrite IH. destruct (buildFields pre typ path); [ | reflexivity ].
    now destruct (buildFields l typ path).
Qed.

(** Every field of a built object decoder that the descriptor does not
    require has a missing-handler. *)
Lemma buildFields_optional (fields : list Field) (typ : Type_) (path : string) :
  forall fs, buildFields fields typ path = inl fs ->
  Forall2 (fun f d => name d = Name f /\
                      (Required f = false -> isOptional (decoder d) = true))
          fields fs.
Proof.
  induction fields as [ | f fields IH ]; intros fs Hb; cbn [buildFields] in Hb.
  - injection Hb as <-. constructor.
  - destruct (StructField typ (Name f)) as [ sf | ]; [ | discriminate ].
    destruct (BuildDecoder _ _ _) as [ child | e ]; [ | discriminate ].
    destruct (negb (Required f) && negb (isOptional child)) eqn:Hc;
      [ discriminate | ].
    destruct (buildFields fields typ path) as [ fs' | ]; [ | discriminate ].
    injection Hb as <-. constructor; [ | now apply IH ].
    cbn [name decoder]. split; [ reflexivity | ].
    intros Hr. rewrite Hr in Hc. cbn in Hc.
    now destruct (isOptional child).
Qed.

(** C6 (amended).  When a field the descriptor does not require gets a
    decoder that is no [OptionalDecoder], [buildObjectDecoder] fails; if
    the fields before it build, the error is the one of this field, which
    names the output type, the path, the field and a type to use instead:
    the wrapper type of the lookup table when the decoder's type is in the
    table, and the words [OptionalUnmarshaler interface] when it is not. *)
Theorem C6_not_required_error (desc : Descriptor) (typ : Type_) (path : string)
    (pre post : list Field) (field : Field) (sf : StructFieldInfo)
    (child : Decoder) :
  kind typ = Struct ->
  Fields desc = pre ++ field :: post ->
  StructField typ (Name field) = Some sf ->
  BuildDecoder (Desc field) (sf_Type sf) (AddField path (Name field)) = inl child ->
  Required field = false ->
  isOptional child = false ->
  (exists e, buildObjectDecoder desc typ path = inr e) /\
  (forall done, buildFields pre typ path = inl done ->
     buildObjectDecoder desc typ path =
       inr (notRequiredError (sf_Type sf) path (Name field)
              (match optionalTypeNameLookup (typeOf child) with
               | Some n => n
               | None => "OptionalUnmarshaler interface"
               end))).
Proof.
  intros Hk Hf Hsf Hchild Hreq Hopt.
  assert (Hthis : forall l, buildFields (field :: l) typ path =
    inr (notRequiredError (sf_Type sf) path (Name field)
           (match optionalTypeNameLookup (typeOf child) with
            | Some n => n
            | None => "OptionalUnmarshaler interface"
            end))).
  { intros l. cbn [buildFields]. now rewrite Hsf, Hchild, Hreq, Hopt. }
  unfold buildObjectDecoder. rewrite Hk, bool_decide_eq_true_2 by reflexivity.
  cbn [negb]. rewrite Hf, buildFields_app, Hthis. split.
  - destruct (buildFields pre typ path); eauto.
  - now intros done ->.
Qed.

End Build.

End Facts.
End codecs_facts.

(** ** Script flow *)

Module scriptflow_facts.
Import scriptflow.

Section Facts.
Context `{Env}.

(** Messages the flow has a case for, then [ReadyForCommand]: the loop
    reads them all, [ReadyForCommand] included, joins the decoded errors
    and stops there. *)
Lemma scriptLoop_ready (cmd : string) (ms : list (Z * bytes)) :
  Forall (fun m => known m = true) ms ->
  forall (fuel : nat) (r : Reader) (p : bytes) (post : list (Z * bytes))
         (err : option error),
  incoming r = ms ++ (ReadyForCommand, p) :: post ->
  Err r = None ->
  (length ms < fuel)%nat ->
  scriptLoop fuel cmd r false err =
    Return ({| incoming := post; onEnd := onEnd r; MsgType := ReadyForCommand;
               Buf := []; Err := None |},
            inl (joined cmd ms err)).
Proof.
  induction 1 as [ | [t b] ms Hk _ IH ]; intros fuel r p post err Hin Herr Hfuel.
  - destruct fuel as [ | fuel ]; [ lia | ].
    cbn [scriptLoop Next app] in *. rewrite Herr, Hin. cbn [negb MsgType].
    change (ReadyForCommand =? CommandComplete) with false.
    change (ReadyForCommand =? ReadyForCommand) with true. cbn iota.
    destruct fuel; reflexivity.
  - destruct fuel as [ | fuel ]; [ cbn in Hfuel; lia | ].
    cbn [length] in Hfuel.
    cbn [scriptLoop Next app] in *. rewrite Herr, Hin. cbn [negb MsgType Buf joined].
    unfold known in Hk. cbn [fst] in Hk.
    destruct (t =? CommandComplete) eqn:Hc.
    + apply Z.eqb_eq in Hc. subst t.
      change (CommandComplete =? ErrorResponse) with false. cbn iota.
      match goal with |- scriptLoop _ _ ?x _ _ = _ =>
        rewrite (IH fuel x p post _ eq_refl eq_refl) by lia end.
      reflexivity.
    + cbn [orb] in Hk. rewrite Hk.
      apply Z.eqb_eq in Hk. subst t.
      change (ErrorResponse =? ReadyForCommand) with false. cbn iota.
      match goal with |- scriptLoop _ _ ?x _ _ = _ =>
        rewrite (IH fuel x p post _ eq_refl eq_refl) by lia end.
      reflexivity.
Qed.

(** The loop never stops for lack of fuel. *)
Lemma scriptLoop_fuel (cmd : string) (fuel : nat) :
  forall (r : Reader) (done : bool) (err : option error),
  (length (incoming r) <= fuel)%nat ->
  scriptLoop fuel cmd r done err <> OutOfFuel.
Proof.
  induction fuel as [ | fuel IH ]; intros r done err Hlen.
  - cbn [scriptLoop]. unfold Next. destruct done; [ discriminate | ].
    destruct (Err r); [ discriminate | ].
    destruct (incoming r) as [ | [t p] ms ]; [ discriminate | cbn in Hlen; lia ].
  - cbn [scriptLoop]. unfold Next. destruct done; [ discriminate | ].
    destruct (Err r); [ discriminate | ].
    destruct (incoming r) as [ | [t p] ms ]; [ discriminate | ].
    cbn [length] in Hlen. cbn [negb MsgType Buf].
    destruct (t =? CommandComplete); [ apply IH; cbn; lia | ].
    destruct (t =? ReadyForCommand); [ apply IH; cbn; lia | ].
    destruct (t =? ErrorResponse); [ apply IH; cbn; lia | ].
    destruct (fallThrough t p); [ discriminate | apply IH; cbn; lia ].
Qed.

Lemma execScriptFlow_total (soc : socket) (r : Reader) (q : query) :
  execScriptFlow soc r q <> OutOfFuel.
Proof.
  unfold execScriptFlow.
  destruct (negb (size (state q) =? 0)%nat); [ discriminate | ].
  destruct (scriptRequest q); [ | discriminate ]. cbn [orPanic bind].
  destruct (WriteAll soc _) as [soc' [ e | ] ]; [ discriminate | ].
  pose proof (scriptLoop_fuel (cmd q) (length (incoming r)) r false None (le_n _)).
  destruct (scriptLoop _ _ _ _ _) as [ [r' [ err | e ] ] | | ]; cbn [bind];
    try congruence.
  destruct (Err r'); discriminate.
Qed.

(** C9.  For a query whose session state is not empty, [execScriptFlow]
    returns [errStateNotSupported] with the socket and the reader as they
    were: nothing is written and nothing is read. *)
Theorem C9_state_not_supported (soc : socket) (r : Reader) (q : query) :
  size (state q) <> 0%nat ->
  execScriptFlow soc r q = Return (soc, r, Some errStateNotSupported).
Proof.
  intros Hs. unfold execScriptFlow.
  apply Nat.eqb_neq in Hs. now rewrite Hs.
Qed.

(** A response of messages the flow has a case for, ended by
    [ReadyForCommand]: [execScriptFlow] writes its one message, reads the
    response to [ReadyForCommand] included, and returns the decoded
    errors joined. *)
Lemma execScriptFlow_drains (soc : socket) (r : Reader) (q : query)
    (w : bytes) (ms post : list (Z * bytes)) (p : bytes) :
  size (state q) = 0%nat ->
  scriptRequest q = Some w ->
  writeError soc = None ->
  Forall (fun m => known m = true) ms ->
  incoming r = ms ++ (ReadyForCommand, p) :: post ->
  Err r = None ->
  execScriptFlow soc r q =
    Return ({| written := written soc ++ [w]; writeError := None |},
            {| incoming := post; onEnd := onEnd r;
               MsgType := ReadyForCommand; Buf := []; Err := None |},
            joined (cmd q) ms None).
Proof.
  intros Hs Hw Hsoc Hms Hin Herr. unfold execScriptFlow.
  rewrite Hs, Hw. cbn [Nat.eqb negb orPanic bind].
  unfold WriteAll. rewrite Hsoc.
  rewrite (scriptLoop_ready (cmd q) ms Hms _ r p post None Hin Herr)
    by (rewrite Hin, length_app; cbn [length]; lia).
  reflexivity.
Qed.

End Facts.
End scriptflow_facts.

(** ** Server errors, in both flows *)

Module errors_facts.
Import protocol.

(** C8 (amended).  An [ErrorResponse] is decoded into a structured error
    by either flow, and that error is what the caller gets.  The script
    flow goes on reading up to and including [ReadyForCommand] and then
    returns the decoded errors joined by [wrapAll].  [execute] and
    [optimistic] return the decoded error at the [ErrorResponse] itself:
    the response was read whole before the loop, and the messages that
    follow the error in it stay in the buffer and are not looked at. *)
Theorem C8_error_response `{granular.Values} `{scriptflow.Env}
    (c : granular.conn) (dst v : granular.rvalue) (q : granular.query)
    (tp : granular.rtype) (cdcs : granular.codecPair)
    (pre post : list (Z * bytes)) (p : bytes) (e : granular.error)
    (rs : list (granular.error + bytes)) (req req' : bytes)
    (soc : scriptflow.socket) (r : scriptflow.Reader) (sq : scriptflow.query)
    (w : bytes) (sms spost : list (Z * bytes)) (sp : bytes) :
  granular.framed (pre ++ (message.ErrorResponse, p) :: post) ->
  granular.outAtError q tp cdcs pre dst = Some v ->
  granular.decodeError (granular.lengthField p ++ p) = Some e ->
  granular.executeRequest q cdcs = Some req ->
  granular.optimisticRequest q cdcs = Some req' ->
  granular.replies c =
    inr (stream (pre ++ (message.ErrorResponse, p) :: post)) :: rs ->
  size (scriptflow.state sq) = 0%nat ->
  scriptflow.scriptRequest sq = Some w ->
  scriptflow.writeError soc = None ->
  Forall (fun m => scriptflow.known m = true) sms ->
  scriptflow.incoming r = sms ++ (scriptflow.ReadyForCommand, sp) :: spost ->
  scriptflow.Err r = None ->
  (granular.execute c dst q tp cdcs =
     Return {| granular.r_conn := granular.afterWrite c req rs;
               granular.r_out := v;
               granular.r_unread := stream post;
               granular.r_err := Some e |} /\
   granular.optimistic c dst q tp cdcs =
     Return {| granular.r_conn := granular.afterWrite c req' rs;
               granular.r_out := v;
               granular.r_unread := stream post;
               granular.r_err := Some e |}) /\
  scriptflow.execScriptFlow soc r sq =
    Return ({| scriptflow.written := scriptflow.written soc ++ [w];
               scriptflow.writeError := None |},
            {| scriptflow.incoming := spost;
               scriptflow.onEnd := scriptflow.onEnd r;
               scriptflow.MsgType := scriptflow.ReadyForCommand;
               scriptflow.Buf := [];
               scriptflow.Err := None |},
            scriptflow.joined (scriptflow.cmd sq) sms None).
Proof.
  intros Hms Hv He Hreq Hreq' Hrep Hs Hw Hsoc Hsms Hin Herr. split.
  - exact (granular_facts.error_returns_at_once c dst v q tp cdcs pre post p e
             rs req req' Hms Hv He Hreq Hreq' Hrep).
  - exact (scriptflow_facts.execScriptFlow_drains soc r sq w sms spost sp
             Hs Hw Hsoc Hsms Hin Herr).
Qed.

End errors_facts.

(** ** The statements on the concrete instances *)

Module instances.
Import protocol granular examples.flow.

Ltac all_of := repeat (constructor; [ vm_compute; reflexivity | ]); constructor.

Lemma C1_zero_results_witness :
  execute (connWith [complete; ready]) (int 7) selectOne int32 int32Codecs =
    Return {| r_conn := afterWrite (connWith [complete; ready])
                          (executeReq selectOne) [];
              r_out := int 7; r_unread := [];
              r_err := Some ErrorZeroResults |}.
Proof.
  apply (granular_facts.C1_zero_results
           (connWith [complete; ready]) (int 7) selectOne int32 int32Codecs
           [complete; ready] [] (executeReq selectOne) (optimisticReq selectOne)).
  - unfold framed. all_of.
  - all_of.
  - intros Hf. vm_compute in Hf. discriminate Hf.
  - reflexivity.
  - reflexivity.
  - reflexivity.
Defined.

(** A query for cardinality many that receives no row gets the
    zero-results error too. *)
Lemma C1_counterexample :
  ~ tiedToOne selectMany
      (execute (connWith [complete; ready]) (Slice []) selectMany int32
         int32Codecs).
Proof.
  intros Hc. specialize (Hc eq_refl).
  remember (execute _ _ _ _ _) as x eqn:E. vm_compute in E. subst x.
  exact (Hc _ eq_refl eq_refl).
Qed.

Lemma C5_many_truncates_witness :
  execute (connWith [dataMsg 1; dataMsg 2; complete; ready]) (Slice [int 7])
    selectMany int32 int32Codecs =
    Return {| r_conn := afterWrite
                          (connWith [dataMsg 1; dataMsg 2; complete; ready])
                          (executeReq selectMany) [];
              r_out := Slice [int 1; int 2]; r_unread := [];
              r_err := None |}.
Proof.
  apply (granular_facts.C5_many_truncates
           (connWith [dataMsg 1; dataMsg 2; complete; ready])
           [int 7] [int 1; int 2] selectMany int32 int32Codecs
           [dataMsg 1; dataMsg 2; complete; ready] []
           (executeReq selectMany) (optimisticReq selectMany)).
  - reflexivity.
  - unfold framed. all_of.
  - vm_compute. reflexivity.
  - reflexivity.
  - reflexivity.
  - reflexivity.
Defined.

Lemma C10_flat_last_row_witness :
  execute (connWith ([dataMsg 1] ++ dataMsg 2 :: [complete; ready])) (int 7)
    selectOne int32 int32Codecs =
    Return {| r_conn := afterWrite
                          (connWith ([dataMsg 1] ++ dataMsg 2 :: [complete; ready]))
                          (executeReq selectOne) [];
              r_out := int 2; r_unread := []; r_err := None |}.
Proof.
  apply (granular_facts.C10_flat_last_row
           (connWith ([dataMsg 1] ++ dataMsg 2 :: [complete; ready]))
           (int 7) (int 1) (int 2) selectOne int32 int32Codecs
           [dataMsg 1] [complete; ready] (snd (dataMsg 2))
           [0; 0; 0; 4; 0; 0; 0; 2] []
           (executeReq selectOne) (optimisticReq selectOne)).
  - reflexivity.
  - unfold framed. all_of.
  - vm_compute. reflexivity.
  - vm_compute. reflexivity.
  - vm_compute. reflexivity.
  - all_of.
  - reflexivity.
  - reflexivity.
  - reflexivity.
Defined.

Lemma appends_noArgs : appends (codecIn int32Codecs).
Proof. intros b a b' [= <-]. eexists. reflexivity. Qed.

Lemma C4_cache_paths_witness :
  granularFlow warm (connWith [dataMsg 1; complete; ready]) int32 (int 7)
    selectOne =
  bind (optimistic (connWith [dataMsg 1; complete; ready]) (int 7) selectOne
          int32 int32Codecs)
       (fun r => Return (warm, r)).
Proof.
  apply (granular_facts.C4_cache_paths warm
           (connWith [dataMsg 1; complete; ready]) int32 int32 (int 7)
           selectOne).
  - reflexivity.
  - intros cdcs Hc. unfold warm in Hc.
    rewrite granular_facts.getCodecs_putCodecs in Hc.
    injection Hc as <-. exact appends_noArgs.
  - intros descs cdcs [= <-]. exact appends_noArgs.
  - apply granular_facts.getCodecs_putCodecs.
Defined.

(** [execute] returns at the [ErrorResponse]; the [ReadyForCommand] that
    follows it is never popped. *)
Lemma C8_counterexample :
  ~ drained (execute (connWith [oops; ready]) (int 7) selectOne int32
               int32Codecs).
Proof.
  intros Hc. unfold drained in Hc.
  remember (execute _ _ _ _ _) as x eqn:E. vm_compute in E. subst x.
  specialize (Hc _ eq_refl). discriminate Hc.
Qed.

Import scriptflow examples.script.

Lemma C8_error_response_witness :
  execute (connWith ([dataMsg 1] ++ oops :: [unknownMsg; ready])) (int 7)
    selectOne int32 int32Codecs =
    Return {| r_conn := afterWrite
                          (connWith ([dataMsg 1] ++ oops :: [unknownMsg; ready]))
                          (executeReq selectOne) [];
              r_out := int 1;
              r_unread := stream [unknownMsg; ready];
              r_err := Some (ServerError 120 83886080 "oops") |} /\
  execScriptFlow idle
    (readerOf ([(ErrorResponse, [111; 111]); (CommandComplete, [])] ++
               (ReadyForCommand, [73]) :: [(7, [])])) script =
    Return ({| written := [scriptReq]; writeError := None |},
            {| incoming := [(7, [])]; onEnd := "EOF";
               MsgType := ReadyForCommand; Buf := []; Err := None |},
            joined "create type T"
              [(ErrorResponse, [111; 111]); (CommandComplete, [])] None).
Proof.
  destruct (errors_facts.C8_error_response
              (connWith ([dataMsg 1] ++ oops :: [unknownMsg; ready])) (int 7)
              (int 1) selectOne int32 int32Codecs
              [dataMsg 1] [unknownMsg; ready] (snd oops)
              (ServerError 120 83886080 "oops") []
              (executeReq selectOne) (optimisticReq selectOne)
              idle
              (readerOf ([(ErrorResponse, [111; 111]); (CommandComplete, [])] ++
                         (ReadyForCommand, [73]) :: [(7, [])]))
              script scriptReq
              [(ErrorResponse, [111; 111]); (CommandComplete, [])] [(7, [])] [73])
    as [ [He _] Hs ].
  - unfold framed. all_of.
  - vm_compute. reflexivity.
  - vm_compute. reflexivity.
  - reflexivity.
  - reflexivity.
  - reflexivity.
  - vm_compute. reflexivity.
  - reflexivity.
  - reflexivity.
  - all_of.
  - reflexivity.
  - reflexivity.
  - split; [ exact He | exact Hs ].
Defined.

Lemma C9_state_not_supported_witness :
  execScriptFlow idle (readerOf [(ReadyForCommand, [73])]) scriptWithState =
    Return (idle, readerOf [(ReadyForCommand, [73])],
            Some errStateNotSupported).
Proof.
  apply (scriptflow_facts.C9_state_not_supported idle
           (readerOf [(ReadyForCommand, [73])]) scriptWithState).
  intros Hs. vm_compute in Hs. discriminate Hs.
Defined.

Import codecs examples.decoders.

Lemma C2_count_mismatch_witness :
  objectDecoder_Decode [nameField; nickField] ([0; 0; 0; 3] ++ [9; 9]) 1000 ∅ =
    Some ([9; 9], ∅,
          Some "wrong number of object fields: expected 2, got 3").
Proof.
  assert (Hne : decode_u32 0 0 0 3 <> Z.of_nat (length [nameField; nickField]))
    by (vm_compute; discriminate).
  exact (proj1 (codecs_facts.C2_count_mismatch [nameField; nickField]
                  0 0 0 3 [9; 9] 1000 ∅ Hne)).
Defined.

(** The sentinel leaves the field absent; a present value of length zero
    leaves it present and empty. *)
Lemma C3_missing_field_witness :
  decodeFields [nickField] ([0; 0; 0; 0; 255; 255; 255; 255] ++ []) 1000 ∅ =
    Some ([], {[ 1016 := Absent ]}, None) /\
  decodeFields [nickField] ([0; 0; 0; 0; 0; 0; 0; 0] ++ []) 1000 ∅ =
    Some ([], {[ 1016 := Present [] ]}, None).
Proof.
  destruct (codecs_facts.C3_missing_field nickField []
              (fun p m => <[p := Absent]> m) 0 0 0 0 [] 1000 ∅ eq_refl)
    as (Ha & Hb & _).
  split; [ rewrite Ha | rewrite Hb ]; vm_compute; reflexivity.
Defined.

Lemma C6_not_required_error_witness :
  buildObjectDecoder nameDesc userType "" =
    inr "expected string at .name to be edgedb.OptionalStr because the field is not required".
Proof.
  exact (proj2 (codecs_facts.C6_not_required_error nameDesc userType ""
                  [] [] optionalName
                  {| sf_Type := stringType; sf_Offset := 0 |} strDecoder
                  eq_refl eq_refl eq_refl eq_refl eq_refl eq_refl)
               [] eq_refl).
Defined.

(** A decoder whose type the table does not list: the error names no
    wrapper type of the table. *)
Lemma C6_counterexample :
  ~ (exists e, buildObjectDecoder tagsDesc userType "" = inr e /\
               namesTableType stringSliceType "" "tags" e).
Proof.
  intros (e & He & t & n & Ht & Hn).
  vm_compute in He. injection He as <-.
  destruct t; cbn in Ht; try discriminate Ht;
    injection Ht as <-; vm_compute in Hn; discriminate Hn.
Qed.

Lemma C7_bounded_elements_witness :
  decodeFields [nameField; nickField]
    ([0; 0; 0; 0; 0; 0; 0; 2] ++ [104; 105] ++ [0; 0; 0; 0; 0; 0; 0; 1; 120])
    1000 ∅ =
  Some ([], {[ 1000 := Present [104; 105]; 1016 := Present [120] ]}, None).
Proof.
  assert (Hlen : decode_u32 0 0 0 2 = Z.of_nat (length [104; 105]))
    by reflexivity.
  assert (Hne : decode_u32 0 0 0 2 <> 4294967295) by (vm_compute; discriminate).
  rewrite (proj1 (codecs_facts.C7_bounded_elements nameField [nickField]
                    0 0 0 0 0 0 0 2 [104; 105] [0; 0; 0; 0; 0; 0; 0; 1; 120]
                    1000 ∅ Hlen Hne)).
  vm_compute. reflexivity.
Defined.

End instances.

(** * Further properties *)

(** ** Script flow: headers and the ways the flow ends *)

Module scriptflow_more.
Import protocol protocol_facts scriptflow.

Lemma decode_encode_u16 (n : Z) :
  0 <= n < 65536 -> decode_u16 (uint8 (n / 256)) (uint8 n) = n.
Proof.
  intros Hn. unfold decode_u16, uint8. Z.div_mod_to_equations. lia.
Qed.

Lemma PopUint16_encode (n : Z) (rest : bytes) :
  0 <= n < 65536 -> PopUint16 (encode_u16 n ++ rest) = Some (n, rest).
Proof.
  intros Hn. unfold encode_u16. cbn [app PopUint16].
  now rewrite decode_encode_u16.
Qed.

Lemma PopBytes_encode (v rest : bytes) :
  Z.of_nat (length v) < 4294967296 ->
  PopBytes (encode_u32 (Z.of_nat (length v)) ++ v ++ rest) = Some (v, rest).
Proof.
  intros Hv. unfold PopBytes, encode_u32. cbn [app PopUint32].
  rewrite decode_encode_u32 by lia. cbn [mbind option_bind].
  apply split_at_app.
Qed.

Section Headers.
Context `{Env}.

Lemma writeHeaders_bytes (w : Writer) (hs : list (Z * bytes)) :
  writeHeaders w hs =
  w ++ encode_u16 (Z.of_nat (length hs)) ++ headerBytes hs.
Proof.
  unfold writeHeaders, PushUint16.
  generalize (encode_u16 (Z.of_nat (length hs))). intros c.
  rewrite (app_assoc w c). generalize (w ++ c). clear w c.
  induction hs as [ | [k v] hs IH ]; intros w; cbn [fold_left headerBytes map concat].
  - now rewrite app_nil_r.
  - rewrite IH. unfold PushUint16, PushUint32. cbn [fst snd].
    now rewrite <- !app_assoc.
Qed.

Lemma decodeHeaders_loop_bytes (hs : list (Z * bytes)) :
  Forall (fun kv => 0 <= fst kv < 65536 /\
                    Z.of_nat (length (snd kv)) < 4294967296) hs ->
  forall (rest : bytes) (acc : gmap Z bytes),
  decodeHeaders_loop (length hs) (headerBytes hs ++ rest) acc =
    Some (fold_left (fun m kv => <[fst kv := snd kv]> m) hs acc, rest).
Proof.
  induction 1 as [ | [k v] hs [Hk Hv] _ IH ]; intros rest acc; [ reflexivity | ].
  cbn [length decodeHeaders_loop headerBytes map concat fold_left fst snd] in *.
  rewrite <- !app_assoc, PopUint16_encode by exact Hk.
  cbn [mbind option_bind]. rewrite PopBytes_encode by exact Hv.
  cbn [mbind option_bind]. apply IH.
Qed.

Lemma skipHeaders_loop_bytes (hs : list (Z * bytes)) :
  Forall (fun kv => 0 <= fst kv < 65536 /\
                    Z.of_nat (length (snd kv)) < 4294967296) hs ->
  forall (rest : bytes),
  ignoreHeaders_loop (length hs) (headerBytes hs ++ rest) = Some rest /\
  discardHeaders_loop (length hs) (headerBytes hs ++ rest) = Some rest.
Proof.
  induction 1 as [ | [k v] hs [Hk Hv] _ IH ]; intros rest; [ split; reflexivity | ].
  cbn [length ignoreHeaders_loop discardHeaders_loop headerBytes map concat
       fst snd] in *.
  rewrite <- !app_assoc, PopUint16_encode by exact Hk.
  cbn [mbind option_bind]. rewrite PopBytes_encode by exact Hv.
  cbn [mbind option_bind]. apply IH.
Qed.

Lemma fold_insert_map (m : gmap Z bytes) (hs : list (Z * bytes)) :
  hs ≡ₚ map_to_list m ->
  fold_left (fun acc kv => <[fst kv := snd kv]> acc) hs ∅ = m.
Proof.
  intros Hp.
  rewrite <- fold_left_rev_right.
  change (fold_right (fun (y : Z * bytes) (x : gmap Z bytes) =>
                        <[fst y := snd y]> x) ∅ (rev hs))
    with (list_to_map (rev hs) : gmap Z bytes).
  assert (Hr : rev hs ≡ₚ map_to_list m)
    by (rewrite <- Hp; symmetry; apply Permutation_rev).
  rewrite (list_to_map_proper (rev hs) (map_to_list m));
    [ apply list_to_map_to_list | | exact Hr ].
  rewrite Hr. apply NoDup_fst_map_to_list.
Qed.

(** X1.  Headers written by [writeHeaders] are read back by [decodeHeaders] as
    the map they were ranged over from, in whatever order the map was
    ranged over, and the reader stands right after them. *)
Theorem headers_round_trip (w : Writer) (m : gmap Z bytes)
    (hs : list (Z * bytes)) (rest : bytes) :
  hs ≡ₚ map_to_list m ->
  fitsHeaders hs ->
  exists block,
    writeHeaders w hs = w ++ block /\
    decodeHeaders (block ++ rest) = Some (m, rest).
Proof.
  intros Hp [Hn Hhs]. eexists. split; [ apply writeHeaders_bytes | ].
  unfold decodeHeaders. rewrite <- app_assoc, PopUint16_encode by lia.
  cbn [mbind option_bind]. rewrite Nat2Z.id.
  rewrite (decodeHeaders_loop_bytes hs Hhs). now rewrite (fold_insert_map m hs Hp).
Qed.

(** X2.  [ignoreHeaders] and [discardHeaders] step over exactly the block
    [writeHeaders] wrote, whatever the headers. *)
Theorem headers_skipped (w : Writer) (hs : list (Z * bytes)) (rest : bytes) :
  fitsHeaders hs ->
  exists block,
    writeHeaders w hs = w ++ block /\
    ignoreHeaders (block ++ rest) = Some rest /\
    discardHeaders (block ++ rest) = Some rest.
Proof.
  intros [Hn Hhs]. eexists. split; [ apply writeHeaders_bytes | ].
  unfold ignoreHeaders, discardHeaders.
  rewrite <- app_assoc, PopUint16_encode by lia.
  cbn [mbind option_bind]. rewrite Nat2Z.id.
  apply (skipHeaders_loop_bytes hs Hhs).
Qed.

(** *** The loop, message by message *)

Lemma passes_step (cmd : string) (fuel : nat) (r : Reader) (t : Z) (p : bytes)
    (tl : list (Z * bytes)) (err : option error) :
  passes (t, p) = true ->
  incoming r = (t, p) :: tl ->
  Err r = None ->
  scriptLoop (S fuel) cmd r false err =
  scriptLoop fuel cmd
    {| incoming := tl; onEnd := onEnd r; MsgType := t; Buf := []; Err := None |}
    false (joined cmd [(t, p)] err).
Proof.
  intros Hp Hin Herr. cbn [scriptLoop]. unfold Next. rewrite Herr, Hin.
  cbn [negb MsgType Buf joined]. unfold passes in Hp. cbn [fst snd] in Hp.
  destruct (t =? CommandComplete) eqn:Hc.
  - apply Z.eqb_eq in Hc. subst t. reflexivity.
  - destruct (t =? ReadyForCommand); [ discriminate | ].
    destruct (t =? ErrorResponse); [ reflexivity | ].
    destruct (fallThrough t p); [ discriminate | reflexivity ].
Qed.

Lemma joined_app (cmd : string) (ms ms' : list (Z * bytes)) (err : option error) :
  joined cmd (ms ++ ms') err = joined cmd ms' (joined cmd ms err).
Proof.
  revert err. induction ms as [ | [t p] ms IH ]; intros err; [ reflexivity | ].
  cbn [app joined]. destruct (t =? ErrorResponse); apply IH.
Qed.

(** Messages the loop passes over are read one by one, the decoded errors
    joined, and the loop goes on with what follows them. *)
Lemma scriptLoop_passes (cmd : string) (ms : list (Z * bytes)) :
  Forall (fun m => passes m = true) ms ->
  forall (fuel : nat) (r : Reader) (tl : list (Z * bytes)) (err : option error),
  incoming r = ms ++ tl ->
  Err r = None ->
  scriptLoop (length ms + fuel) cmd r false err =
  scriptLoop fuel cmd (readerAfter r ms tl) false (joined cmd ms err).
Proof.
  induction 1 as [ | [t p] ms Hp Hms IH ]; intros fuel r tl err Hin Herr.
  - reflexivity.
  - cbn [length Nat.add app] in *.
    rewrite (passes_step cmd _ r t p (ms ++ tl) err Hp Hin Herr).
    match goal with |- scriptLoop _ _ ?x _ _ = _ =>
      rewrite (IH fuel x tl _ eq_refl eq_refl) end.
    rewrite <- (joined_app cmd [(t, p)] ms err). cbn [app].
    f_equal. unfold readerAfter. cbn [onEnd].
    destruct ms as [ | m ms ]; [ reflexivity | ].
    rewrite last_cons_cons.
    destruct (last (m :: ms)) eqn:Hl; [ reflexivity | ].
    now apply last_None in Hl.
Qed.

Lemma readerAfter_incoming (r : Reader) (ms tl : list (Z * bytes)) :
  incoming r = ms ++ tl -> incoming (readerAfter r ms tl) = tl.
Proof.
  unfold readerAfter. intros Hin.
  destruct (last ms) eqn:Hl; [ reflexivity | ].
  apply last_None in Hl. now subst ms.
Qed.

Lemma readerAfter_Err (r : Reader) (ms tl : list (Z * bytes)) :
  Err r = None -> Err (readerAfter r ms tl) = None.
Proof. unfold readerAfter. now destruct (last ms). Qed.

Lemma readerAfter_onEnd (r : Reader) (ms tl : list (Z * bytes)) :
  onEnd (readerAfter r ms tl) = onEnd r.
Proof. unfold readerAfter. now destruct (last ms). Qed.

Lemma execScriptFlow_loop (soc : socket) (r : Reader) (q : query) (w : bytes) :
  size (state q) = 0%nat ->
  scriptRequest q = Some w ->
  writeError soc = None ->
  execScriptFlow soc r q =
    bind (scriptLoop (length (incoming r)) (cmd q) r false None) (fun '(r, x) =>
    let soc' := {| written := written soc ++ [w]; writeError := None |} in
    match x with
    | inr e => Return (soc', r, Some e)
    | inl err =>
      match Err r with
      | Some e => Return (soc', r, Some e)
      | None => Return (soc', r, err)
      end
    end).
Proof.
  intros Hs Hw Hsoc. unfold execScriptFlow.
  rewrite Hs, Hw. cbn [Nat.eqb negb orPanic bind].
  unfold WriteAll. rewrite Hsoc. reflexivity.
Qed.

(** X3.  Every message before [ReadyForCommand] that the loop passes over,
    those left to [fallThrough] included, is read and handled; the call
    returns the decoded errors joined, and what the peer sent after
    [ReadyForCommand] is left unread for the next call. *)
Theorem script_reads_to_ready (soc : socket) (r : Reader) (q : query)
    (w : bytes) (ms post : list (Z * bytes)) (p : bytes) :
  size (state q) = 0%nat ->
  scriptRequest q = Some w ->
  writeError soc = None ->
  Forall (fun m => passes m = true) ms ->
  incoming r = ms ++ (ReadyForCommand, p) :: post ->
  Err r = None ->
  execScriptFlow soc r q =
    Return ({| written := written soc ++ [w]; writeError := None |},
            {| incoming := post; onEnd := onEnd r;
               MsgType := ReadyForCommand; Buf := []; Err := None |},
            joined (cmd q) ms None).
Proof.
  intros Hs Hw Hsoc Hms Hin Herr.
  rewrite (execScriptFlow_loop soc r q w Hs Hw Hsoc).
  replace (length (incoming r)) with (length ms + S (length post))%nat
    by (rewrite Hin, length_app; reflexivity).
  rewrite (scriptLoop_passes (cmd q) ms Hms _ r _ None Hin Herr).
  cbn [scriptLoop]. unfold Next at 1.
  rewrite (readerAfter_Err r ms _ Herr), (readerAfter_incoming r ms _ Hin).
  cbn [negb MsgType].
  change (ReadyForCommand =? CommandComplete) with false.
  change (ReadyForCommand =? ReadyForCommand) with true. cbn iota.
  rewrite readerAfter_onEnd.
  destruct (length post); reflexivity.
Qed.

(** X4.  When the response ends before [ReadyForCommand], the call returns the
    transport's failure recorded in the reader, and not the server errors
    it decoded on the way. *)
Theorem script_transport_failure_wins (soc : socket) (r : Reader) (q : query)
    (w : bytes) :
  size (state q) = 0%nat ->
  scriptRequest q = Some w ->
  writeError soc = None ->
  Forall (fun m => passes m = true) (incoming r) ->
  Err r = None ->
  exists r',
    execScriptFlow soc r q =
      Return ({| written := written soc ++ [w]; writeError := None |},
              r', Some (onEnd r)) /\
    incoming r' = [] /\ Err r' = Some (onEnd r).
Proof.
  intros Hs Hw Hsoc Hms Herr.
  rewrite (execScriptFlow_loop soc r q w Hs Hw Hsoc).
  rewrite <- (Nat.add_0_r (length (incoming r))).
  assert (Hin : incoming r = incoming r ++ []) by now rewrite app_nil_r.
  rewrite (scriptLoop_passes (cmd q) (incoming r) Hms _ r _ None Hin Herr).
  cbn [scriptLoop]. unfold Next.
  rewrite (readerAfter_Err r _ _ Herr), (readerAfter_incoming r _ _ Hin).
  cbn [negb bind Err]. rewrite readerAfter_onEnd.
  eexists. split; [ reflexivity | ]. split; reflexivity.
Qed.

(** X5.  A message [fallThrough] rejects ends the call at once with that
    failure: the server errors decoded before it are dropped, and the
    messages after it, [ReadyForCommand] included, are not read. *)
Theorem script_unexpected_message (soc : socket) (r : Reader) (q : query)
    (w : bytes) (ms post : list (Z * bytes)) (t : Z) (p : bytes) (e : error) :
  size (state q) = 0%nat ->
  scriptRequest q = Some w ->
  writeError soc = None ->
  Forall (fun m => passes m = true) ms ->
  incoming r = ms ++ (t, p) :: post ->
  Err r = None ->
  t <> CommandComplete -> t <> ReadyForCommand -> t <> ErrorResponse ->
  fallThrough t p = Some e ->
  execScriptFlow soc r q =
    Return ({| written := written soc ++ [w]; writeError := None |},
            {| incoming := post; onEnd := onEnd r; MsgType := t; Buf := [];
               Err := None |},
            Some e).
Proof.
  intros Hs Hw Hsoc Hms Hin Herr Hc Hr He Hf.
  rewrite (execScriptFlow_loop soc r q w Hs Hw Hsoc).
  replace (length (incoming r)) with (length ms + S (length post))%nat
    by (rewrite Hin, length_app; reflexivity).
  rewrite (scriptLoop_passes (cmd q) ms Hms _ r _ None Hin Herr).
  cbn [scriptLoop]. unfold Next at 1.
  rewrite (readerAfter_Err r ms _ Herr), (readerAfter_incoming r ms _ Hin).
  cbn [negb MsgType Buf].
  apply Z.eqb_neq in Hc, Hr, He. rewrite Hc, Hr, He, Hf.
  cbn [bind consumed incoming onEnd MsgType Err]. now rewrite readerAfter_onEnd.
Qed.

(** *** The request on the wire *)

Lemma PopUint32_encode (n : Z) (rest : bytes) :
  0 <= n < 4294967296 -> PopUint32 (encode_u32 n ++ rest) = Some (n, rest).
Proof.
  intros Hn. unfold encode_u32. cbn [app PopUint32].
  now rewrite decode_encode_u32.
Qed.

Lemma PutMsgLength_PopMessage (b b' rest : bytes) :
  PutMsgLength b = Some b' ->
  Z.of_nat (length b) <= 4294967296 ->
  PopMessage (b' ++ rest) = Some (b', rest) /\ length b' = length b.
Proof.
  intros Hput Hlen.
  destruct b as [ | t [ | l3 [ | l2 [ | l1 [ | l0 payload ] ] ] ] ]; try discriminate.
  cbn [PutMsgLength] in Hput. injection Hput as <-.
  split; [ | reflexivity ].
  cbn [length] in *. unfold encode_u32. cbn [app PopMessage].
  rewrite decode_encode_u32 by lia.
  match goal with |- split_at ?n ?l = _ =>
    change l with ((t :: encode_u32 (Z.of_nat (S (S (S (S (S (length payload)))))) - 1)
                      ++ payload) ++ rest);
    replace n with (Z.of_nat (length (t :: encode_u32
                      (Z.of_nat (S (S (S (S (S (length payload)))))) - 1) ++ payload)))
      by (cbn [length app encode_u32]; lia)
  end.
  apply split_at_app.
Qed.

Lemma string_of_bytes_of_string (s : string) :
  string_of_bytes (bytes_of_string s) = s.
Proof.
  unfold string_of_bytes, bytes_of_string. rewrite map_map.
  rewrite <- (string_of_list_ascii_of_string s) at 2. f_equal.
  rewrite <- (map_id (list_ascii_of_string s)) at 2.
  apply map_ext. intros a. now rewrite N2Z.id, ascii_N_embedding.
Qed.

Lemma PopString_push (s : string) (rest : bytes) :
  Z.of_nat (length (bytes_of_string s)) < 4294967296 ->
  PopString (encode_u32 (Z.of_nat (length (bytes_of_string s)))
               ++ bytes_of_string s ++ rest) = Some (s, rest).
Proof.
  intros Hs. unfold PopString. rewrite PopBytes_encode by exact Hs.
  cbn [mbind option_bind]. now rewrite string_of_bytes_of_string.
Qed.

(** X6.  The request [execScriptFlow] writes is one whole frame: a reader
    pops it as one message with nothing of it left over, and reading the
    message back with the reader's primitives gives the type
    [ExecuteScript], the length of all that follows the type byte, the
    headers and the command text. *)
Theorem script_request_round_trip (q : query) (m : gmap Z bytes) (rest : bytes) :
  headers0pX q ≡ₚ map_to_list m ->
  fitsHeaders (headers0pX q) ->
  Z.of_nat (length (headerBytes (headers0pX q))) +
    Z.of_nat (length (bytes_of_string (cmd q))) + 11 <= 4294967296 ->
  exists w,
    scriptRequest q = Some w /\
    PopMessage (w ++ rest) = Some (w, rest) /\
    ('(t, b) ← PopUint8 w;
     '(len, b) ← PopUint32 b;
     '(h, b) ← decodeHeaders b;
     '(c, b) ← PopString b;
     Some (t, len, h, c, b)) =
    Some (ExecuteScript, Z.of_nat (length w) - 1, m, cmd q, []).
Proof.
  intros Hp Hfit Hlen. unfold scriptRequest, EndMessage, NewWriter, BeginMessage.
  rewrite writeHeaders_bytes. unfold PushString, PushBytes.
  destruct (headers_round_trip [] m (headers0pX q)
              (encode_u32 (Z.of_nat (length (bytes_of_string (cmd q))))
                 ++ bytes_of_string (cmd q) ++ []) Hp Hfit)
    as (block & Hblock & Hdec).
  rewrite writeHeaders_bytes in Hblock. cbn [app] in Hblock. rewrite <- Hblock in Hdec.
  remember (encode_u16 (Z.of_nat (length (headers0pX q)))
              ++ headerBytes (headers0pX q)) as hblock eqn:Hh.
  remember (encode_u32 (Z.of_nat (length (bytes_of_string (cmd q))))
              ++ bytes_of_string (cmd q)) as cblock eqn:Hc.
  assert (Hsize : Z.of_nat (length (hblock ++ cblock)) + 5 <= 4294967296).
  { subst hblock cblock. rewrite !length_app. cbn [length encode_u16 encode_u32].
    lia. }
  cbn [app].
  change (protocol.uint8 ExecuteScript) with ExecuteScript.
  set (raw := ExecuteScript :: 0 :: 0 :: 0 :: 0 :: hblock ++ cblock).
  assert (Hput : PutMsgLength raw =
                 Some (ExecuteScript :: encode_u32 (Z.of_nat (length raw) - 1)
                         ++ hblock ++ cblock)) by reflexivity.
  assert (Hraw : Z.of_nat (length raw) <= 4294967296)
    by (subst raw; cbn [length] in *; lia).
  rewrite Hput. eexists. split; [ reflexivity | ].
  destruct (PutMsgLength_PopMessage raw _ rest Hput Hraw) as (Hpop & Hl).
  split; [ exact Hpop | ].
  cbn [PopUint8 mbind option_bind].
  rewrite PopUint32_encode by (subst raw; cbn [length] in *; lia).
  cbn [mbind option_bind].
  assert (Hd : decodeHeaders (hblock ++ cblock) = Some (m, cblock)).
  { subst hblock cblock. rewrite <- !app_assoc. rewrite <- !app_assoc in Hdec.
    rewrite app_nil_r in Hdec. exact Hdec. }
  rewrite Hd. cbn [mbind option_bind].
  assert (Hs : PopString cblock = Some (cmd q, [])).
  { subst cblock. rewrite <- (app_nil_r (bytes_of_string (cmd q))) at 2.
    apply PopString_push. lia. }
  rewrite Hs. cbn [mbind option_bind]. now rewrite Hl.
Qed.

End Headers.
End scriptflow_more.

(** ** Execution flow: negotiation, caches and failures *)

Module granular_more.
Import protocol protocol_facts granular granular_facts.

Section More.
Context `{Values}.

Lemma PopUUID_app (id rest : bytes) :
  length id = 16%nat -> PopUUID (id ++ rest) = Some (id, rest).
Proof.
  intros Hl. unfold PopUUID.
  change 16 with (Z.of_nat 16). rewrite <- Hl. apply split_at_app.
Qed.

Lemma prepareRequest_some (q : query) : exists req, prepareRequest q = Some req.
Proof.
  unfold prepareRequest, PushString, PushBytes, PushUint16, PushUint8.
  cbn [app mbind option_bind PutMsgLength]. eauto.
Qed.

Lemma describeRequest_some : exists req, describeRequest = Some req.
Proof. unfold describeRequest. cbn. eauto. Qed.

Lemma loop_done_junk (junk : bytes) :
  (length junk <= 4)%nat -> negb (4 <? Z.of_nat (length junk)) = true.
Proof. intros Hj. apply negb_true_iff, Z.ltb_ge. lia. Qed.

Lemma loop_more (t : Z) (p rest : bytes) :
  negb (4 <? Z.of_nat (length (frame t p ++ rest))) = false.
Proof.
  rewrite length_app, frame_length. apply negb_false_iff, Z.ltb_lt. lia.
Qed.

Lemma PopUint8_frame (t : Z) (p : bytes) :
  PopUint8 (frame t p) = Some (t, lengthField p ++ p).
Proof. reflexivity. Qed.

Lemma PopUint32_lengthField (p : bytes) :
  exists n, PopUint32 (lengthField p ++ p) = Some (n, p).
Proof. unfold lengthField, encode_u32. cbn. eauto. Qed.

(** One [PrepareComplete] message and [ReadyForCommand]: the loop of
    [prepare] takes the two ids from the message; up to four stray bytes
    after the last message are left alone. *)
Lemma prepare_loop_complete (fuel : nat) (h1 h0 card : Z)
    (idin idout extra p junk : bytes) (ids0 : idPair) :
  length idin = 16%nat -> length idout = 16%nat ->
  framed [(message.PrepareComplete, h1 :: h0 :: card :: idin ++ idout ++ extra);
          (message.ReadyForCommand, p)] ->
  (length junk <= 4)%nat ->
  prepare_loop (S (S fuel))
    (stream [(message.PrepareComplete, h1 :: h0 :: card :: idin ++ idout ++ extra);
             (message.ReadyForCommand, p)] ++ junk) ids0 =
  Return (inl {| id_in := idin; id_out := idout |}).
Proof.
  intros Hin Hout Hfr Hj.
  inversion Hfr as [ | m1 l1 Hp1 Hfr1 ]; subst.
  inversion Hfr1 as [ | m2 l2 Hp2 _ ]; subst. cbn [snd] in Hp1, Hp2.
  rewrite !stream_cons. cbn [fst snd stream map concat]. rewrite app_nil_r.
  rewrite <- app_assoc.
  cbn [prepare_loop]. rewrite loop_more, (PopMessage_frame _ _ _ Hp1).
  cbn [orPanic bind]. rewrite PopUint8_frame. cbn [orPanic bind].
  change (message.PrepareComplete =? message.PrepareComplete) with true.
  cbn iota.
  destruct (PopUint32_lengthField (h1 :: h0 :: card :: idin ++ idout ++ extra))
    as [n ->].
  cbn [PopUint16 PopUint8 orPanic bind].
  rewrite (PopUUID_app idin _ Hin). cbn [orPanic bind].
  rewrite (PopUUID_app idout _ Hout). cbn [orPanic bind].
  cbn [prepare_loop]. rewrite loop_more, (PopMessage_frame _ _ _ Hp2).
  cbn [orPanic bind]. rewrite PopUint8_frame. cbn [orPanic bind].
  change (message.ReadyForCommand =? message.PrepareComplete) with false.
  change (message.ReadyForCommand =? message.ReadyForCommand) with true.
  cbn iota. destruct fuel; cbn [prepare_loop]; now rewrite (loop_done_junk junk Hj).
Qed.

Lemma two_frames_length (t1 t2 : Z) (p1 p2 junk : bytes) :
  exists fuel, length (stream [(t1, p1); (t2, p2)] ++ junk) = S (S fuel).
Proof.
  rewrite length_app. cbn [stream map concat fst snd]. rewrite !length_app.
  rewrite !frame_length. eexists. cbn [length Nat.add]. reflexivity.
Qed.

(** X7.  [prepare] on the answer of a server that compiled the query: it
    returns the descriptor ids of the [PrepareComplete] message and no
    error, having written its one request. *)
Theorem prepare_returns_ids (c : conn) (q : query) (h1 h0 card : Z)
    (idin idout extra p junk : bytes) (rs : list (error + bytes)) :
  length idin = 16%nat -> length idout = 16%nat ->
  framed [(message.PrepareComplete, h1 :: h0 :: card :: idin ++ idout ++ extra);
          (message.ReadyForCommand, p)] ->
  (length junk <= 4)%nat ->
  replies c =
    inr (stream [(message.PrepareComplete,
                  h1 :: h0 :: card :: idin ++ idout ++ extra);
                 (message.ReadyForCommand, p)] ++ junk) :: rs ->
  exists req,
    prepareRequest q = Some req /\
    prepare c q =
      Return (afterWrite c req rs, {| id_in := idin; id_out := idout |}, None).
Proof.
  intros Hin Hout Hfr Hj Hrep.
  destruct (prepareRequest_some q) as [req Hreq]. exists req.
  split; [ exact Hreq | ].
  unfold prepare. rewrite Hreq. cbn [orPanic bind].
  rewrite (writeAndRead_reply _ _ _ _ Hrep).
  destruct (two_frames_length message.PrepareComplete message.ReadyForCommand
              (h1 :: h0 :: card :: idin ++ idout ++ extra) p junk) as [fuel ->].
  now rewrite (prepare_loop_complete fuel h1 h0 card idin idout extra p junk
                 zeroIDs Hin Hout Hfr Hj).
Qed.

Lemma PopBytes_app (v rest : bytes) :
  Z.of_nat (length v) < 4294967296 ->
  PopBytes (encode_u32 (Z.of_nat (length v)) ++ v ++ rest) = Some (v, rest).
Proof.
  intros Hv. unfold PopBytes, encode_u32. cbn [app PopUint32].
  rewrite decode_encode_u32 by lia. cbn [mbind option_bind].
  apply split_at_app.
Qed.

(** X8.  [describe] on the answer of the server: it returns the two
    descriptors of the [CommandDataDescription] message and no error,
    having written its one request; up to four stray bytes after the last
    message are left alone. *)
Theorem describe_returns_descriptors (c : conn) (h1 h0 card : Z)
    (uin din uout dout extra p junk : bytes) (rs : list (error + bytes)) :
  length uin = 16%nat -> length uout = 16%nat ->
  framed [(message.CommandDataDescription,
           descriptionPayload h1 h0 card uin din uout dout extra);
          (message.ReadyForCommand, p)] ->
  (length junk <= 4)%nat ->
  replies c =
    inr (stream [(message.CommandDataDescription,
                  descriptionPayload h1 h0 card uin din uout dout extra);
                 (message.ReadyForCommand, p)] ++ junk) :: rs ->
  exists req,
    describeRequest = Some req /\
    describe c =
      Return (afterWrite c req rs, {| desc_in := din; desc_out := dout |}, None).
Proof.
  intros Hin Hout Hfr Hj Hrep.
  destruct describeRequest_some as [req Hreq]. exists req.
  split; [ exact Hreq | ].
  unfold describe. rewrite Hreq. cbn [orPanic bind].
  rewrite (writeAndRead_reply _ _ _ _ Hrep).
  destruct (two_frames_length message.CommandDataDescription
              message.ReadyForCommand
              (descriptionPayload h1 h0 card uin din uout dout extra) p junk)
    as [fuel ->].
  inversion Hfr as [ | m1 l1 Hp1 Hfr1 ]; subst.
  inversion Hfr1 as [ | m2 l2 Hp2 _ ]; subst. cbn [snd] in Hp1, Hp2.
  assert (Hdin : Z.of_nat (length din) < 4294967296).
  { unfold descriptionPayload in Hp1. cbn [length] in Hp1.
    rewrite !length_app in Hp1. lia. }
  assert (Hdout : Z.of_nat (length dout) < 4294967296).
  { unfold descriptionPayload in Hp1. cbn [length] in Hp1.
    rewrite !length_app in Hp1. lia. }
  rewrite !stream_cons. cbn [fst snd stream map concat]. rewrite app_nil_r.
  rewrite <- app_assoc.
  cbn [describe_loop]. rewrite loop_more, (PopMessage_frame _ _ _ Hp1).
  cbn [orPanic bind]. rewrite PopUint8_frame. cbn [orPanic bind].
  change (message.CommandDataDescription =? message.CommandDataDescription)
    with true.
  cbn iota.
  destruct (PopUint32_lengthField
              (descriptionPayload h1 h0 card uin din uout dout extra)) as [n ->].
  unfold descriptionPayload. cbn [PopUint16 PopUint8 orPanic bind].
  rewrite (PopUUID_app uin _ Hin). cbn [orPanic bind].
  rewrite (PopBytes_app din _ Hdin). cbn [orPanic bind].
  rewrite (PopUUID_app uout _ Hout). cbn [orPanic bind].
  rewrite (PopBytes_app dout _ Hdout). cbn [orPanic bind zeroDescs desc_in desc_out app].
  cbn [describe_loop]. rewrite loop_more, (PopMessage_frame _ _ _ Hp2).
  cbn [orPanic bind]. rewrite PopUint8_frame. cbn [orPanic bind].
  change (message.ReadyForCommand =? message.CommandDataDescription) with false.
  change (message.ReadyForCommand =? message.ReadyForCommand) with true.
  cbn iota.
  destruct fuel; cbn [describe_loop]; now rewrite (loop_done_junk junk Hj).
Qed.

(** *** Failures of a call *)

Lemma round_trip_fails (c : conn) (dst : rvalue)
    (q : query) (tp : rtype) (cdcs : codecPair) (e : error)
    (rs : list (error + bytes)) (req req' : bytes) :
  executeRequest q cdcs = Some req ->
  optimisticRequest q cdcs = Some req' ->
  replies c = inl e :: rs ->
  execute c dst q tp cdcs =
    Return {| r_conn := afterWrite c req rs; r_out := dst; r_unread := [];
              r_err := Some e |} /\
  optimistic c dst q tp cdcs =
    Return {| r_conn := afterWrite c req' rs; r_out := dst; r_unread := [];
              r_err := Some e |}.
Proof.
  intros Hreq Hreq' Hrep. unfold execute, optimistic.
  rewrite Hreq, Hreq'. cbn [orPanic bind].
  rewrite !(writeAndRead_reply _ _ _ _ Hrep). split; reflexivity.
Qed.

(** X9.  When the round trip fails, [execute] and [optimistic] return the
    transport's error and leave the destination as it was: a slice is not
    emptied, nothing is decoded. *)
Theorem transport_failure_keeps_destination (c : conn) (dst : rvalue)
    (q : query) (tp : rtype) (cdcs : codecPair) (e : error)
    (rs : list (error + bytes)) (req req' : bytes) :
  executeRequest q cdcs = Some req ->
  optimisticRequest q cdcs = Some req' ->
  replies c = inl e :: rs ->
  execute c dst q tp cdcs =
    Return {| r_conn := afterWrite c req rs; r_out := dst; r_unread := [];
              r_err := Some e |} /\
  optimistic c dst q tp cdcs =
    Return {| r_conn := afterWrite c req' rs; r_out := dst; r_unread := [];
              r_err := Some e |}.
Proof. exact (round_trip_fails c dst q tp cdcs e rs req req'). Qed.

Lemma msgs_loop_unknown (q : query) (tp : rtype) (cdcs : codecPair)
    (t : Z) (p : bytes) (post : list (Z * bytes)) (s : loopState) :
  t <> message.Data -> t <> message.CommandComplete ->
  t <> message.ReadyForCommand -> t <> message.ErrorResponse ->
  msgs_loop q tp cdcs ((t, p) :: post) s = Panic.
Proof.
  intros H1 H2 H3 H4. cbn [msgs_loop].
  apply Z.eqb_neq in H1, H2, H3, H4. now rewrite H1, H2, H3, H4.
Qed.

(** X10.  A message of a type the loop has no case for makes [execute] and
    [optimistic] panic when the loop reaches it, whatever was decoded
    before it. *)
Theorem unknown_message_panics (c : conn) (dst v : rvalue) (q : query)
    (tp : rtype) (cdcs : codecPair) (pre post : list (Z * bytes)) (t : Z)
    (p : bytes) (rs : list (error + bytes)) (req req' : bytes) :
  t <> message.Data -> t <> message.CommandComplete ->
  t <> message.ReadyForCommand -> t <> message.ErrorResponse ->
  framed (pre ++ (t, p) :: post) ->
  outAtError q tp cdcs pre dst = Some v ->
  executeRequest q cdcs = Some req ->
  optimisticRequest q cdcs = Some req' ->
  replies c = inr (stream (pre ++ (t, p) :: post)) :: rs ->
  execute c dst q tp cdcs = Panic /\ optimistic c dst q tp cdcs = Panic.
Proof.
  intros H1 H2 H3 H4 Hms Hv Hreq Hreq' Hrep.
  rewrite (execute_consume _ _ _ _ _ _ _ _ Hreq Hrep),
          (optimistic_consume _ _ _ _ _ _ _ _ Hreq' Hrep).
  assert (Hpanic : forall c', consume execute_loop c' dst q tp cdcs
                     (stream (pre ++ (t, p) :: post)) = Panic).
  { intros c'. unfold outAtError in Hv. destruct (flat q) eqn:Hflat.
    - rewrite (consume_msgs c' dst dst q tp cdcs _ Hms)
        by (rewrite Hflat; reflexivity).
      edestruct (msgs_loop_prefix_flat q tp cdcs ((t, p) :: post) pre Hflat
                   {| buf := stream (pre ++ (t, p) :: post); out := dst;
                      o := None; err := Some ErrorZeroResults |} v Hv)
        as (s' & Hrun & _); [ reflexivity | ].
      now rewrite Hrun, msgs_loop_unknown.
    - destruct (decodeRows tp cdcs pre) as [ rows | ] eqn:Hrows; [ | discriminate ].
      cbn in Hv. destruct dst as [ ? | l0 ]; [ discriminate | ].
      rewrite (consume_msgs c' (Slice l0) (Slice []) q tp cdcs _ Hms)
        by (rewrite Hflat; reflexivity).
      edestruct (msgs_loop_prefix_nonflat q tp cdcs ((t, p) :: post) pre Hflat
                   {| buf := stream (pre ++ (t, p) :: post); out := Slice [];
                      o := None; err := Some ErrorZeroResults |} [] rows Hrows)
        as (s' & Hrun & _); [ reflexivity | reflexivity | ].
      now rewrite Hrun, msgs_loop_unknown. }
  now rewrite !Hpanic.
Qed.

(** X11.  [execute] and [optimistic] treat a reply alike: on the same reply
    they end the same way, with the same destination, the same unread
    rest and the same error. *)
Theorem execute_optimistic_agree (c : conn) (dst : rvalue) (q : query)
    (tp : rtype) (cdcs : codecPair) (x : error + bytes)
    (rs : list (error + bytes)) (req req' : bytes) :
  executeRequest q cdcs = Some req ->
  optimisticRequest q cdcs = Some req' ->
  replies c = x :: rs ->
  observed (execute c dst q tp cdcs) = observed (optimistic c dst q tp cdcs).
Proof.
  intros Hreq Hreq' Hrep. destruct x as [ e | resp ].
  - destruct (round_trip_fails c dst q tp cdcs e rs req req'
                Hreq Hreq' Hrep) as [-> ->]. reflexivity.
  - rewrite (execute_consume _ _ _ _ _ _ _ _ Hreq Hrep),
            (optimistic_consume _ _ _ _ _ _ _ _ Hreq' Hrep).
    unfold observed, consume.
    destruct (if negb (flat q) then orPanic (SetLen0 dst) else Return dst);
      cbn [bind]; try reflexivity.
    destruct (execute_loop _ _ _ _ _) as [ [ s | [s e] ] | | ]; reflexivity.
Qed.

(** *** Negotiation and the caches *)

Lemma prepare_error (c : conn) (q : query) (p tl : bytes) (e : error)
    (rs : list (error + bytes)) (req : bytes) :
  prepareRequest q = Some req ->
  Z.of_nat (length p) + 4 < 4294967296 ->
  decodeError (lengthField p ++ p) = Some e ->
  replies c = inr (frame message.ErrorResponse p ++ tl) :: rs ->
  prepare c q = Return (afterWrite c req rs, zeroIDs, Some e).
Proof.
  intros Hreq Hp He Hrep. unfold prepare. rewrite Hreq. cbn [orPanic bind].
  rewrite (writeAndRead_reply _ _ _ _ Hrep).
  assert (Hfuel : exists fuel, length (frame message.ErrorResponse p ++ tl) = S fuel).
  { rewrite length_app, frame_length. eexists. reflexivity. }
  destruct Hfuel as [fuel ->].
  cbn [prepare_loop]. rewrite loop_more, (PopMessage_frame _ _ _ Hp).
  cbn [orPanic bind]. rewrite PopUint8_frame. cbn [orPanic bind].
  change (message.ErrorResponse =? message.PrepareComplete) with false.
  change (message.ErrorResponse =? message.ReadyForCommand) with false.
  change (message.ErrorResponse =? message.ErrorResponse) with true.
  cbn iota. rewrite He. reflexivity.
Qed.

Section Caches.
Context {builder : CodecBuilder}.

(** X12.  With both caches cold, a server error in answer to [Prepare] ends
    [granularFlow] there: the decoded error is returned, the caches and
    the destination are as they were, and the [Prepare] batch is all that
    was written. *)
Theorem prepare_error_stops_flow (w : caches) (c : conn) (outT tp : rtype)
    (dst : rvalue) (q : query) (p tl : bytes) (e : error)
    (rs : list (error + bytes)) :
  (if flat q then outT = tp else Elem outT = Some tp) ->
  getCodecs w q tp = None ->
  getDescriptors w q = None ->
  Z.of_nat (length p) + 4 < 4294967296 ->
  decodeError (lengthField p ++ p) = Some e ->
  replies c = inr (frame message.ErrorResponse p ++ tl) :: rs ->
  exists req,
    prepareRequest q = Some req /\
    granularFlow w c outT dst q =
      Return (w, {| r_conn := afterWrite c req rs; r_out := dst;
                    r_unread := []; r_err := Some e |}).
Proof.
  intros Htp Hc Hd Hp He Hrep.
  destruct (prepareRequest_some q) as [req Hreq]. exists req.
  split; [ exact Hreq | ].
  unfold granularFlow.
  replace (if negb (flat q) then orPanic (Elem outT) else Return outT)
    with (Return tp) by (destruct (flat q); cbn; [ now subst | now rewrite Htp ]).
  cbn [bind]. rewrite Hc, Hd. unfold pesimistic.
  rewrite (prepare_error c q p tl e rs req Hreq Hp He Hrep). reflexivity.
Qed.

Lemma pesimistic_builds (w : caches) (c : conn) (dst : rvalue) (q : query)
    (tp : rtype) (c1 c2 : conn) (ids : idPair) (w1 : caches)
    (descs : descPair) (cdcs : codecPair) :
  prepare c q = Return (c1, ids, None) ->
  obtained w c1 ids w1 c2 descs ->
  buildCodecs q tp descs = inl cdcs ->
  pesimistic w c dst q tp =
    bind (execute c2 dst q tp cdcs)
         (fun r => Return (putCodecs (putDescriptors w1 q descs) q tp cdcs, r)).
Proof.
  intros Hp Hob Hb. unfold pesimistic. rewrite Hp. cbn [bind].
  destruct Hob as [ (Hid & -> & ->) | (Hid & Hd & ->) ]; rewrite Hid.
  - cbn [bind]. now rewrite Hb.
  - rewrite Hd. cbn [bind]. now rewrite Hb.
Qed.

(** X13.  Once [pesimistic] has built the codecs they are cached before
    [execute] runs, so whatever [execute] returns, a later call for the
    same query and output type finds them and is [optimistic] with them;
    the descriptors are cached under the query and under their ids. *)
Theorem pesimistic_warms_caches (w : caches) (c : conn) (dst : rvalue)
    (q : query) (tp : rtype) (c1 c2 : conn) (ids : idPair) (w1 : caches)
    (descs : descPair) (cdcs : codecPair) :
  prepare c q = Return (c1, ids, None) ->
  obtained w c1 ids w1 c2 descs ->
  buildCodecs q tp descs = inl cdcs ->
  forall w' r,
  pesimistic w c dst q tp = Return (w', r) ->
  execute c2 dst q tp cdcs = Return r /\
  getCodecs w' q tp = Some cdcs /\
  getDescriptors w' q = Some descs /\
  getDescriptorsByID w' ids = Some descs /\
  forall c' outT dst',
    (if flat q then outT = tp else Elem outT = Some tp) ->
    granularFlow w' c' outT dst' q =
      bind (optimistic c' dst' q tp cdcs) (fun r => Return (w', r)).
Proof.
  intros Hp Hob Hb w' r Hr.
  rewrite (pesimistic_builds w c dst q tp c1 c2 ids w1 descs cdcs Hp Hob Hb) in Hr.
  destruct (execute c2 dst q tp cdcs) as [ r1 | | ]; cbn [bind] in Hr;
    try discriminate.
  injection Hr as <- <-.
  assert (Hc : getCodecs (putCodecs (putDescriptors w1 q descs) q tp cdcs) q tp
               = Some cdcs) by apply getCodecs_putCodecs.
  split; [ reflexivity | ]. split; [ exact Hc | ].
  split; [ unfold getDescriptors, putCodecs, putDescriptors; cbn;
           apply lookup_insert_eq | ].
  split.
  - unfold getDescriptorsByID, putCodecs, putDescriptors. cbn.
    destruct Hob as [ (Hid & _ & ->) | (_ & _ & ->) ]; [ exact Hid | ].
    unfold putDescriptorsByID. cbn. apply lookup_insert_eq.
  - intros c' outT dst' Htp. unfold granularFlow.
    replace (if negb (flat q) then orPanic (Elem outT) else Return outT)
      with (Return tp) by (destruct (flat q); cbn; [ now subst | now rewrite Htp ]).
    cbn [bind]. now rewrite Hc.
Qed.

(** X14.  When the ids [prepare] returns are already in the descriptor cache,
    [pesimistic] skips [describe]: it writes two batches, a [Prepare] and
    an [Execute] message. *)
Theorem known_ids_skip_describe (w : caches) (c : conn) (dst : rvalue)
    (q : query) (tp : rtype) (c1 : conn) (ids : idPair) (descs : descPair)
    (cdcs : codecPair) (w' : caches) (r : flowResult) :
  appends (codecIn cdcs) ->
  prepare c q = Return (c1, ids, None) ->
  getDescriptorsByID w ids = Some descs ->
  buildCodecs q tp descs = inl cdcs ->
  pesimistic w c dst q tp = Return (w', r) ->
  exists req1 req2,
    newBatches c (r_conn r) = [req1; req2] /\
    batchType req1 = Some message.Prepare /\
    batchType req2 = Some message.Execute.
Proof.
  intros Happ Hp Hid Hb Hr.
  rewrite (pesimistic_builds w c dst q tp c1 c1 ids w descs cdcs Hp
             (or_introl (conj Hid (conj eq_refl eq_refl))) Hb) in Hr.
  destruct (execute c1 dst q tp cdcs) as [ r1 | | ] eqn:He; cbn [bind] in Hr;
    try discriminate.
  injection Hr as _ <-.
  destruct (prepare_sent _ _ _ _ _ Hp) as (req1 & Hreq1 & Hs1).
  destruct (execute_sent _ _ _ _ _ _ He) as (req2 & Hreq2 & Hs2).
  exists req1, req2. split; [ | split ].
  - unfold newBatches. rewrite Hs2, Hs1, <- app_assoc. apply drop_app_length.
  - exact (prepareRequest_type q req1 Hreq1).
  - exact (executeRequest_type q cdcs req2 Happ Hreq2).
Qed.

End Caches.

(** *** The requests on the wire *)

(** X15.  The batch [prepare] writes is two whole frames, the [Prepare] message
    and [Sync]; reading the message back with the pop primitives gives
    its type, the length of all that follows the type byte, no headers,
    the format, the cardinality, an empty statement name and the command
    text. *)
Theorem prepare_request_round_trip (q : query) :
  0 <= fmt q < 256 -> 0 <= expCard q < 256 ->
  Z.of_nat (length (bytes_of_string (cmd q))) + 17 <= 4294967296 ->
  exists msg,
    prepareRequest q = Some (msg ++ syncMsg) /\
    PopMessage (msg ++ syncMsg) = Some (msg, syncMsg) /\
    PopMessage syncMsg = Some (syncMsg, []) /\
    ('(t, b) ← PopUint8 msg;
     '(len, b) ← PopUint32 b;
     '(nh, b) ← PopUint16 b;
     '(f, b) ← PopUint8 b;
     '(cd, b) ← PopUint8 b;
     '(name, b) ← PopBytes b;
     '(text, b) ← PopString b;
     Some (t, len, nh, f, cd, name, text, b)) =
    Some (message.Prepare, Z.of_nat (length msg) - 1, 0, fmt q, expCard q,
          [], cmd q, []).
Proof.
  intros Hf Hc Hlen. unfold prepareRequest.
  unfold PushString, PushBytes, PushUint16, PushUint8.
  remember (encode_u32 (Z.of_nat (length (bytes_of_string (cmd q))))
              ++ bytes_of_string (cmd q)) as cblock eqn:Hcb.
  cbn [app length Z.of_nat].
  match goal with |- context [PutMsgLength (_ :: _ :: _ :: _ :: _ :: ?mid)] =>
    change mid with (0 :: 0 :: uint8 (fmt q) :: uint8 (expCard q)
                       :: 0 :: 0 :: 0 :: 0 :: cblock)
  end.
  set (raw := message.Prepare :: 0 :: 0 :: 0 :: 0 :: 0 :: 0
                :: uint8 (fmt q) :: uint8 (expCard q)
                :: 0 :: 0 :: 0 :: 0 :: cblock).
  assert (Hput : PutMsgLength raw =
                 Some (message.Prepare :: encode_u32 (Z.of_nat (length raw) - 1)
                         ++ 0 :: 0 :: uint8 (fmt q) :: uint8 (expCard q)
                         :: 0 :: 0 :: 0 :: 0 :: cblock))
    by reflexivity.
  assert (Hraw : Z.of_nat (length raw) <= 4294967296).
  { subst raw cblock. cbn [length]. rewrite length_app.
    cbn [length encode_u32]. lia. }
  rewrite Hput. cbn [mbind option_bind]. eexists. split; [ reflexivity | ].
  destruct (scriptflow_more.PutMsgLength_PopMessage raw _ syncMsg Hput Hraw)
    as (Hpop & Hl).
  split; [ exact Hpop | ]. split; [ reflexivity | ].
  cbn [PopUint8 mbind option_bind].
  rewrite scriptflow_more.PopUint32_encode
    by (subst raw; cbn [length] in *; lia).
  cbn [mbind option_bind PopUint16 PopUint8].
  change (decode_u16 0 0) with 0.
  change (PopBytes (0 :: 0 :: 0 :: 0 :: cblock))
    with (PopBytes (encode_u32 (Z.of_nat (length (@nil Z))) ++ [] ++ cblock)).
  rewrite (PopBytes_app [] cblock) by (cbn; lia).
  cbn [mbind option_bind].
  assert (Hs : PopString cblock = Some (cmd q, [])).
  { subst cblock. rewrite <- (app_nil_r (bytes_of_string (cmd q))) at 2.
    apply scriptflow_more.PopString_push. lia. }
  rewrite Hs. cbn [mbind option_bind]. rewrite Hl.
  unfold uint8. rewrite !Z.mod_small by lia. reflexivity.
Qed.

End More.
End granular_more.

(** ** Object decoder: built decoders and whole objects *)

Module codecs_more.
Import protocol protocol_facts codecs codecs_facts.

Section More.
Context `{Memory}.

Lemma elem_present (field : DecoderField) (fields : list DecoderField)
    (p rest : bytes) (out : Z) (m : Mem) :
  Z.of_nat (length p) < 4294967295 ->
  decodeFields (field :: fields) (elemBytes (Some p) ++ rest) out m =
  match Decode (decoder field) p (pAdd out (offset field)) m with
  | None => None
  | Some (_, m', Some e) => Some (rest, m', Some e)
  | Some (_, m', None) => decodeFields fields rest out m'
  end.
Proof.
  intros Hp. unfold elemBytes, encode_u32. cbn [app].
  rewrite <- (decodeFields_present field fields 0 0 0 0
                (uint8 (Z.of_nat (length p) / 16777216))
                (uint8 (Z.of_nat (length p) / 65536))
                (uint8 (Z.of_nat (length p) / 256))
                (uint8 (Z.of_nat (length p))) p rest out m);
    [ reflexivity | | ]; rewrite decode_encode_u32 by lia; lia.
Qed.

Lemma elem_missing (field : DecoderField) (fields : list DecoderField)
    (rest : bytes) (out : Z) (m : Mem) :
  decodeFields (field :: fields) (elemBytes None ++ rest) out m =
  match DecodeMissing (decoder field) with
  | None => None
  | Some missing =>
      decodeFields fields rest out (missing (pAdd out (offset field)) m)
  end.
Proof.
  unfold elemBytes. cbn [app].
  now rewrite <- (decodeFields_missing field fields 0 0 0 0 255 255 255 255
                    rest out m eq_refl).
Qed.

Lemma decodeFields_elems (fields : list DecoderField) :
  forall (elems : list (option bytes)) (rest : bytes) (out : Z) (m : Mem),
  length fields = length elems ->
  Forall (fun e => match e with
                   | Some p => Z.of_nat (length p) < 4294967295
                   | None => True
                   end) elems ->
  forget <$> decodeFields fields (concat (map elemBytes elems) ++ rest) out m =
    decodeElems fields elems out m /\
  forall r' m',
    decodeFields fields (concat (map elemBytes elems) ++ rest) out m =
      Some (r', m', None) -> r' = rest.
Proof.
  induction fields as [ | field fields IH ]; intros elems rest out m Hlen Hfit.
  - destruct elems; [ | discriminate ]. cbn. split; [ reflexivity | ].
    now intros r' m' [= <- _].
  - destruct elems as [ | e elems ]; [ discriminate | ].
    injection Hlen as Hlen. inversion Hfit as [ | ? ? He Hfit' ]; subst.
    cbn [map concat decodeElems]. rewrite <- app_assoc.
    destruct e as [ p | ].
    + rewrite (elem_present field fields p _ out m He).
      destruct (Decode (decoder field) p _ m) as [ [ [r1 m1] [ e1 | ] ] | ];
        cbn [mbind option_bind fmap option_fmap option_map].
      * split; [ reflexivity | discriminate ].
      * apply (IH elems rest out m1 Hlen Hfit').
      * split; [ reflexivity | discriminate ].
    + rewrite (elem_missing field fields _ out m).
      destruct (DecodeMissing (decoder field)) as [ missing | ];
        cbn [mbind option_bind fmap option_fmap option_map].
      * apply (IH elems rest out _ Hlen Hfit').
      * split; [ reflexivity | discriminate ].
Qed.

(** X16.  Decoding a whole object: when the value holds as many elements as the
    decoder has fields, [objectDecoder.Decode] runs the fields' decoders
    and missing-handlers one after the other, each on its own element, in
    the order of the fields, stops at the first error, and on success
    leaves the reader right after the object. *)
Theorem object_decoded_field_by_field (fields : list DecoderField)
    (elems : list (option bytes)) (rest : bytes) (out : Z) (m : Mem) :
  length fields = length elems ->
  fitsElems elems ->
  forget <$> objectDecoder_Decode fields (objectBytes elems ++ rest) out m =
    decodeElems fields elems out m /\
  forall r' m',
    objectDecoder_Decode fields (objectBytes elems ++ rest) out m =
      Some (r', m', None) -> r' = rest.
Proof.
  intros Hlen [Hn Hfit]. unfold objectDecoder_Decode, objectBytes, PopUint32.
  rewrite <- app_assoc.
  unfold encode_u32. cbn [app protocol.PopUint32 mbind option_bind].
  rewrite decode_encode_u32 by lia.
  rewrite <- Hlen, Z.eqb_refl. cbn [negb].
  apply (decodeFields_elems fields elems rest out m Hlen Hfit).
Qed.

(** X17.  A missing element for a field whose decoder has no missing-handler
    makes the decoder panic: the type assertion fails, no error is
    returned. *)
Theorem missing_without_handler_panics (field : DecoderField)
    (fields : list DecoderField) (elems : list (option bytes))
    (rest : bytes) (out : Z) (m : Mem) :
  DecodeMissing (decoder field) = None ->
  length fields = length elems ->
  fitsElems (None :: elems) ->
  objectDecoder_Decode (field :: fields) (objectBytes (None :: elems) ++ rest)
    out m = None.
Proof.
  intros Hm Hlen [Hn Hfit]. unfold objectDecoder_Decode, objectBytes, PopUint32.
  rewrite <- app_assoc.
  unfold encode_u32 at 1. cbn [app protocol.PopUint32 mbind option_bind].
  rewrite decode_encode_u32 by lia.
  cbn [length]. rewrite <- Hlen, Z.eqb_refl. cbn [negb map concat].
  rewrite <- app_assoc, elem_missing. now rewrite Hm.
Qed.

(** X18.  The optional object decoder marks the destination present before it
    reads anything: when decoding then fails on the element count, the
    error is returned with the destination already marked. *)
Theorem optional_object_marked_before_decoding (id : bytes)
    (fields : list DecoderField) (typ : Type_) (c3 c2 c1 c0 : Z)
    (body : bytes) (out : Z) (m : Mem) :
  decode_u32 c3 c2 c1 c0 <> Z.of_nat (length fields) ->
  Decode (optionalObjectDecoderOf id fields typ) ([c3; c2; c1; c0] ++ body)
    out m =
  Some (body, SetMissing typ false out m,
        Some (wrongNumberOfFields (length fields) (decode_u32 c3 c2 c1 c0))).
Proof.
  intros Hne. cbn [Decode optionalObjectDecoderOf].
  unfold optionalObjectDecoder_Decode, objectDecoder_Decode.
  cbn [app PopUint32 protocol.PopUint32 mbind option_bind].
  apply Z.eqb_neq in Hne. now rewrite Hne.
Qed.

Section Built.
Context {builder : Builder}.

(** X19.  What [buildObjectDecoder] returns when it succeeds: the output type is
    a struct; the decoder carries the descriptor's id and one field per
    field of the descriptor, in the same order, with the descriptor's
    name, the offset of the struct field of that name and the decoder
    [BuildDecoder] gave for it; every field the descriptor does not
    require has a missing-handler; and the decoder is the optional object
    decoder exactly when a pointer to the type implements
    [OptionalUnmarshaler]. *)
Theorem built_decoder_shape (desc : Descriptor) (typ : Type_) (path : string)
    (d : Decoder) :
  buildObjectDecoder desc typ path = inl d ->
  kind typ = Struct /\
  exists fields,
    d = (if ptrImplementsOptionalUnmarshaler typ
         then optionalObjectDecoderOf (ID desc) fields typ
         else objectDecoderOf (ID desc) fields) /\
    DescriptorID d = ID desc /\
    Forall2 (fun f df =>
               name df = Name f /\
               (exists sf, StructField typ (Name f) = Some sf /\
                           offset df = sf_Offset sf /\
                           BuildDecoder (Desc f) (sf_Type sf)
                             (AddField path (Name f)) = inl (decoder df)) /\
               (Required f = false -> isOptional (decoder df) = true))
            (Fields desc) fields.
Proof.
  unfold buildObjectDecoder. intros Hb.
  destruct (bool_decide (kind typ = Struct)) eqn:Hk; [ | discriminate ].
  apply bool_decide_eq_true_1 in Hk. split; [ exact Hk | ]. cbn [negb] in Hb.
  destruct (buildFields (Fields desc) typ path) as [ fields | ] eqn:Hf;
    [ | discriminate ].
  exists fields. split; [ | split ].
  - destruct (ptrImplementsOptionalUnmarshaler typ); now injection Hb as <-.
  - destruct (ptrImplementsOptionalUnmarshaler typ); now injection Hb as <-.
  - clear Hb. revert fields Hf.
    induction (Fields desc) as [ | f fs IH ]; intros fields Hf;
      cbn [buildFields] in Hf.
    + injection Hf as <-. constructor.
    + destruct (StructField typ (Name f)) as [ sf | ] eqn:Hsf; [ | discriminate ].
      destruct (BuildDecoder _ _ _) as [ child | e ] eqn:Hc; [ | discriminate ].
      destruct (negb (Required f) && negb (isOptional child)) eqn:Ho;
        [ discriminate | ].
      destruct (buildFields fs typ path) as [ fs' | ]; [ | discriminate ].
      injection Hf as <-. constructor; [ | now apply IH ].
      cbn [name offset decoder]. split; [ reflexivity | ]. split.
      * exists sf. auto.
      * intros Hr. rewrite Hr in Ho. cbn in Ho. now destruct (isOptional child).
Qed.

(** X20.  The builder reports the first field that fails, in the order of the
    descriptor: when the fields before it build and the struct has no
    field of its name, the error names the path and the field, whatever
    the later fields are. *)
Theorem missing_struct_field_reported (desc : Descriptor) (typ : Type_)
    (path : string) (pre post : list Field) (field : Field)
    (done : list DecoderField) :
  kind typ = Struct ->
  Fields desc = pre ++ field :: post ->
  buildFields pre typ path = inl done ->
  StructField typ (Name field) = None ->
  buildObjectDecoder desc typ path =
    inr ("expected " +:+ path +:+ " to have a field named "
         +:+ fmt_q (Name field)).
Proof.
  intros Hk Hf Hpre Hsf. unfold buildObjectDecoder.
  rewrite Hk, bool_decide_eq_true_2 by reflexivity. cbn [negb].
  rewrite Hf, buildFields_app, Hpre. cbn [buildFields]. now rewrite Hsf.
Qed.

Section BuiltV2.
Context {builder2 : BuilderV2}.

Lemma buildFieldsV2_agrees (typ : Type_) (path : string) (fs : list FieldV2) :
  (forall d t p, BuildDecoderV2 d t p = BuildDecoder (toDescriptor d) t p) ->
  buildFieldsV2 fs typ path = buildFields (map toField fs) typ path.
Proof.
  intros Hb. induction fs as [ | [n d r] fs IH ]; [ reflexivity | ].
  cbn [map toField buildFieldsV2 buildFields Name Name2 Desc Desc2 Required
       Required2].
  destruct (StructField typ n) as [ sf | ]; [ | reflexivity ].
  rewrite Hb. destruct (BuildDecoder _ _ _) as [ child | e ]; [ | reflexivity ].
  destruct (negb r && negb (isOptional child)); [ reflexivity | ].
  now rewrite IH.
Qed.

(** X21.  [buildObjectDecoderV2] is [buildObjectDecoder] on the same
    descriptor: when the two child builders agree, the two builders
    return the same decoder or the same error. *)
Theorem builder_versions_agree (desc : V2) (typ : Type_) (path : string) :
  (forall d t p, BuildDecoderV2 d t p = BuildDecoder (toDescriptor d) t p) ->
  buildObjectDecoderV2 desc typ path =
  buildObjectDecoder (toDescriptor desc) typ path.
Proof.
  intros Hb. unfold buildObjectDecoderV2, buildObjectDecoder.
  destruct (negb (bool_decide (kind typ = Struct))); [ reflexivity | ].
  rewrite (buildFieldsV2_agrees typ path (Fields2 desc) Hb).
  destruct desc as [i fs]. reflexivity.
Qed.

End BuiltV2.
End Built.

End More.
End codecs_more.

(** ** The first connection: reading, querying, connecting *)

Module legacy_more.
Import protocol protocol_facts legacy.

Lemma readLoop_chunks (full : list bytes) :
  Forall (fun ch => length ch = 1024%nat) full ->
  forall (fuel : nat) (s : stream) (rcv last : bytes) (more : list (error + bytes)),
  reads s = map inr full ++ inr last :: more ->
  (length last < 1024)%nat ->
  (length full < fuel)%nat ->
  readLoop fuel s rcv =
    Return ({| written := written s; writeError := writeError s;
               reads := more; closed := closed s |},
            rcv ++ concat full ++ last).
Proof.
  induction 1 as [ | ch full Hch _ IH ]; intros fuel s rcv last more Hr Hl Hf.
  - destruct fuel as [ | fuel ]; [ lia | ].
    cbn [readLoop map app concat] in *. unfold Read. rewrite Hr.
    rewrite take_ge by lia.
    replace (length last =? 1024)%nat with false
      by (symmetry; apply Nat.eqb_neq; lia).
    reflexivity.
  - destruct fuel as [ | fuel ]; [ cbn in Hf; lia | ].
    cbn [length] in Hf.
    cbn [readLoop map app concat] in *. unfold Read. rewrite Hr.
    rewrite take_ge by lia. rewrite Hch, Nat.eqb_refl.
    match goal with |- readLoop _ ?x _ = _ =>
      rewrite (IH fuel x (rcv ++ ch) last more eq_refl Hl) by lia end.
    cbn [written writeError closed]. now rewrite <- !app_assoc.
Qed.

Lemma readLoop_fuel (fuel : nat) :
  forall (s : stream) (rcv : bytes),
  (length (reads s) < fuel)%nat -> readLoop fuel s rcv <> OutOfFuel.
Proof.
  induction fuel as [ | fuel IH ]; intros s rcv Hf; [ lia | ].
  cbn [readLoop]. unfold Read.
  destruct (reads s) as [ | [ e | ch ] rest ] eqn:Hr; try discriminate.
  destruct (length (take 1024 ch) =? 1024)%nat; [ | discriminate ].
  apply IH. cbn [reads length] in *. lia.
Qed.

(** [writeAndRead] never stops for lack of fuel. *)
Lemma writeAndRead_total (edb : Conn) (bts : bytes) :
  writeAndRead edb bts <> OutOfFuel.
Proof.
  unfold writeAndRead. destruct (Write (conn edb) bts) as [s [ e | ] ];
    [ discriminate | ].
  pose proof (readLoop_fuel (S (length (reads s))) s [] (Nat.lt_succ_diag_r _)).
  destruct (readLoop _ _ _) as [ [s' rcv] | | ]; cbn [bind]; congruence.
Qed.

(** X22.  [writeAndRead] gathers what [Read] returns up to and including the
    first read of fewer than 1024 bytes, and leaves the later reads on the
    connection: the end of the reply is a short read, not the end of a
    message. *)
Theorem reply_ends_at_short_read (edb : Conn) (bts : bytes)
    (full : list bytes) (last : bytes) (more : list (error + bytes)) :
  writeError (conn edb) = None ->
  Forall (fun ch => length ch = 1024%nat) full ->
  (length last < 1024)%nat ->
  reads (conn edb) = map inr full ++ inr last :: more ->
  writeAndRead edb bts =
    Return ({| conn := afterRead (conn edb) bts more; secret := secret edb |},
            concat full ++ last).
Proof.
  intros Hw Hfull Hl Hr. unfold writeAndRead, Write. rewrite Hw.
  match goal with |- context [readLoop ?f ?x []] =>
    rewrite (readLoop_chunks full Hfull f x [] last more Hr Hl)
  end.
  - reflexivity.
  - cbn [reads]. rewrite Hr, length_app, length_map. cbn [length]. lia.
Qed.

(** X23.  After a read of exactly 1024 bytes [writeAndRead] reads again, also
    when the reply is complete: if that read fails, the call panics and
    the reply is lost. *)
Theorem full_read_reads_again (edb : Conn) (bts : bytes)
    (full : list bytes) (ch : bytes) (e : error) (more : list (error + bytes)) :
  writeError (conn edb) = None ->
  Forall (fun c => length c = 1024%nat) (full ++ [ch]) ->
  reads (conn edb) = map inr (full ++ [ch]) ++ inl e :: more ->
  writeAndRead edb bts = Panic.
Proof.
  intros Hw Hfull Hr. unfold writeAndRead, Write. rewrite Hw. cbn [reads].
  set (s := {| written := written (conn edb) ++ [bts]; writeError := None;
               reads := reads (conn edb); closed := closed (conn edb) |}).
  assert (Hs : reads s = map inr (full ++ [ch]) ++ inl e :: more) by exact Hr.
  assert (Hloop : forall fuel s rcv,
            reads s = map inr (full ++ [ch]) ++ inl e :: more ->
            (length (full ++ [ch]) < fuel)%nat -> readLoop fuel s rcv = Panic).
  { clear s Hs Hr Hw. induction Hfull as [ | c l Hc _ IH ];
      intros fuel s rcv Hr Hf.
    - destruct fuel as [ | fuel ]; [ lia | ].
      cbn [readLoop]. unfold Read. now rewrite Hr.
    - destruct fuel as [ | fuel ]; [ cbn in Hf; lia | ].
      cbn [readLoop]. unfold Read. rewrite Hr.
      cbn [map app]. rewrite take_ge by lia. rewrite Hc, Nat.eqb_refl.
      apply IH; [ reflexivity | cbn in Hf; lia ]. }
  rewrite (Hloop _ s [] Hs); [ reflexivity | ].
  subst s. cbn [reads]. rewrite Hr, !length_app, length_map, length_app.
  cbn [length]. lia.
Qed.

Section Queries.
Context `{Codecs}.

Lemma next_message (t : Z) (p rest : bytes) :
  negb (4 <? Z.of_nat (length (frame t p ++ rest))) = false.
Proof.
  rewrite length_app, frame_length. apply negb_false_iff, Z.ltb_lt. lia.
Qed.

Lemma loop_some (t : Z) (p rest : bytes) :
  negb (0 <? Z.of_nat (length (frame t p ++ rest))) = false.
Proof.
  rewrite length_app, frame_length. apply negb_false_iff, Z.ltb_lt. lia.
Qed.

Lemma prepareLoop_complete (fuel : nat) (h1 h0 card : Z)
    (idin idout extra p a0 r0 : bytes) :
  length idin = 16%nat -> length idout = 16%nat ->
  granular.framed
    [(message.PrepareComplete, h1 :: h0 :: card :: idin ++ idout ++ extra);
     (message.ReadyForCommand, p)] ->
  prepareLoop (S (S fuel))
    (protocol.stream [(message.PrepareComplete, h1 :: h0 :: card :: idin ++ idout ++ extra);
             (message.ReadyForCommand, p)]) a0 r0 =
  Return (idin, idout).
Proof.
  intros Hin Hout Hfr.
  inversion Hfr as [ | m1 l1 Hp1 Hfr1 ]; subst.
  inversion Hfr1 as [ | m2 l2 Hp2 _ ]; subst. cbn [snd] in Hp1, Hp2.
  rewrite !stream_cons. cbn [fst snd protocol.stream map concat].
  cbn [prepareLoop]. rewrite next_message, (PopMessage_frame _ _ _ Hp1).
  cbn [orPanic bind]. rewrite granular_more.PopUint8_frame. cbn [orPanic bind].
  change (message.PrepareComplete =? message.PrepareComplete) with true.
  cbn iota.
  destruct (granular_more.PopUint32_lengthField
              (h1 :: h0 :: card :: idin ++ idout ++ extra)) as [n ->].
  cbn [PopUint16 PopUint8 orPanic bind].
  rewrite (granular_more.PopUUID_app idin _ Hin). cbn [orPanic bind].
  rewrite (granular_more.PopUUID_app idout _ Hout). cbn [orPanic bind].
  cbn [prepareLoop]. rewrite next_message, (PopMessage_frame _ _ _ Hp2).
  cbn [orPanic bind]. rewrite granular_more.PopUint8_frame. cbn [orPanic bind].
  change (message.ReadyForCommand =? message.PrepareComplete) with false.
  change (message.ReadyForCommand =? message.ReadyForCommand) with true.
  cbn iota. destruct fuel; reflexivity.
Qed.

Lemma describeLoop_complete (fuel : nat) (h1 h0 card : Z)
    (uin din uout dout extra p : bytes) (l0 l1 l2 : gmap bytes Codec) :
  length uin = 16%nat -> length uout = 16%nat ->
  granular.framed
    [(message.CommandDataDescription,
      granular.descriptionPayload h1 h0 card uin din uout dout extra);
     (message.ReadyForCommand, p)] ->
  Pop din = Some l1 -> Pop dout = Some l2 ->
  describeLoop (S (S fuel))
    (protocol.stream [(message.CommandDataDescription,
              granular.descriptionPayload h1 h0 card uin din uout dout extra);
             (message.ReadyForCommand, p)]) l0 =
  Return (l2 ∪ (l1 ∪ l0)).
Proof.
  intros Hin Hout Hfr Hl1 Hl2.
  inversion Hfr as [ | m1 k1 Hp1 Hfr1 ]; subst.
  inversion Hfr1 as [ | m2 k2 Hp2 _ ]; subst. cbn [snd] in Hp1, Hp2.
  assert (Hdin : Z.of_nat (length din) < 4294967296).
  { unfold granular.descriptionPayload in Hp1. cbn [length] in Hp1.
    rewrite !length_app in Hp1. lia. }
  assert (Hdout : Z.of_nat (length dout) < 4294967296).
  { unfold granular.descriptionPayload in Hp1. cbn [length] in Hp1.
    rewrite !length_app in Hp1. lia. }
  rewrite !stream_cons. cbn [fst snd protocol.stream map concat].
  cbn [describeLoop]. rewrite next_message, (PopMessage_frame _ _ _ Hp1).
  cbn [orPanic bind]. rewrite granular_more.PopUint8_frame. cbn [orPanic bind].
  change (message.CommandDataDescription =? message.CommandDataDescription)
    with true.
  cbn iota.
  destruct (granular_more.PopUint32_lengthField
              (granular.descriptionPayload h1 h0 card uin din uout dout extra))
    as [n ->].
  unfold granular.descriptionPayload. cbn [PopUint16 PopUint8 orPanic bind].
  rewrite (granular_more.PopUUID_app uin _ Hin). cbn [orPanic bind].
  rewrite (granular_more.PopBytes_app din _ Hdin). cbn [orPanic bind].
  rewrite Hl1. cbn [orPanic bind].
  rewrite (granular_more.PopUUID_app uout _ Hout). cbn [orPanic bind].
  rewrite (granular_more.PopBytes_app dout _ Hdout). cbn [orPanic bind].
  rewrite Hl2. cbn [orPanic bind].
  cbn [describeLoop]. rewrite next_message, (PopMessage_frame _ _ _ Hp2).
  cbn [orPanic bind]. rewrite granular_more.PopUint8_frame. cbn [orPanic bind].
  change (message.ReadyForCommand =? message.CommandDataDescription) with false.
  change (message.ReadyForCommand =? message.ErrorResponse) with false.
  cbn iota. destruct fuel; reflexivity.
Qed.

Lemma dataLoop_rows (rc : Codec) (ms : list (Z * bytes)) :
  granular.framed ms ->
  forall (fuel : nat) (out rows : list V),
  rowsOf rc ms = Some rows ->
  (length ms <= fuel)%nat ->
  dataLoop fuel (protocol.stream ms) (Some rc) out = Return (out ++ rows).
Proof.
  induction 1 as [ | [t p] ms Hp _ IH ]; intros fuel out rows Hrows Hf.
  - injection Hrows as <-. rewrite app_nil_r. destruct fuel; reflexivity.
  - destruct fuel as [ | fuel ]; [ cbn in Hf; lia | ].
    cbn [length] in Hf. cbn [snd] in Hp.
    rewrite stream_cons. cbn [fst snd dataLoop rowsOf] in *.
    rewrite loop_some, (PopMessage_frame _ _ _ Hp).
    cbn [orPanic bind]. rewrite granular_more.PopUint8_frame. cbn [orPanic bind].
    destruct (t =? message.Data).
    + destruct (granular_more.PopUint32_lengthField p) as [n ->].
      cbn [orPanic bind].
      destruct (PopUint16 p) as [ [? v] | ]; [ | discriminate ].
      cbn [mbind option_bind orPanic bind] in *.
      destruct (Decode rc v) as [ row | ]; [ | discriminate ].
      cbn [mbind option_bind orPanic bind] in *.
      destruct (rowsOf rc ms) as [ rows' | ]; [ | discriminate ].
      injection Hrows as <-.
      rewrite (IH fuel (out ++ [row]) rows' eq_refl) by lia.
      now rewrite <- app_assoc.
    + destruct (t =? message.ErrorResponse) eqn:He; [ discriminate | ].
      destruct (t =? message.CommandComplete); [ apply IH; [ exact Hrows | lia ] | ].
      destruct (t =? message.ReadyForCommand); [ apply IH; [ exact Hrows | lia ] | ].
      apply IH; [ exact Hrows | lia ].
Qed.

Lemma two_frames (t1 t2 : Z) (p1 p2 : bytes) :
  exists fuel, length (protocol.stream [(t1, p1); (t2, p2)]) = S (S fuel).
Proof.
  cbn [protocol.stream map concat fst snd]. rewrite !length_app, !frame_length.
  eexists. cbn [length Nat.add]. reflexivity.
Qed.

(** X24.  [QueryWithArgs] on a server that answers each of the three requests
    in turn: it returns, without error, the values of the [Data] messages
    of the last reply, in the order of arrival, each decoded by the codec
    that the descriptors give for the result id of [PrepareComplete];
    messages of a type it does not know are passed over. *)
Theorem query_returns_rows (edb edb1 edb2 edb3 : Conn) (query : string)
    (args : Args) (p1 p2 p3 : bytes) (h1 h0 card g1 g0 gcard : Z)
    (idin idout extra rp1 uin din uout dout dextra rp2 : bytes)
    (l1 l2 : gmap bytes Codec) (ac rc : Codec)
    (ms : list (Z * bytes)) (rows : list V) :
  length idin = 16%nat -> length idout = 16%nat ->
  length uin = 16%nat -> length uout = 16%nat ->
  granular.framed
    [(message.PrepareComplete, h1 :: h0 :: card :: idin ++ idout ++ extra);
     (message.ReadyForCommand, rp1)] ->
  granular.framed
    [(message.CommandDataDescription,
      granular.descriptionPayload g1 g0 gcard uin din uout dout dextra);
     (message.ReadyForCommand, rp2)] ->
  granular.framed ms ->
  prepareMsg query = Some p1 ->
  writeAndRead edb p1 =
    Return (edb1,
            protocol.stream [(message.PrepareComplete,
                     h1 :: h0 :: card :: idin ++ idout ++ extra);
                    (message.ReadyForCommand, rp1)]) ->
  describeMsg = Some p2 ->
  writeAndRead edb1 p2 =
    Return (edb2,
            protocol.stream [(message.CommandDataDescription,
                     granular.descriptionPayload g1 g0 gcard uin din uout dout
                       dextra);
                    (message.ReadyForCommand, rp2)]) ->
  Pop din = Some l1 -> Pop dout = Some l2 ->
  (l2 ∪ (l1 ∪ ∅)) !! idin = Some ac ->
  (l2 ∪ (l1 ∪ ∅)) !! idout = Some rc ->
  executeMsg (Some ac) args = Some p3 ->
  writeAndRead edb2 p3 = Return (edb3, protocol.stream ms) ->
  rowsOf rc ms = Some rows ->
  QueryWithArgs edb query args = Return (edb3, rows, None).
Proof.
  intros Hin Hout Huin Huout Hf1 Hf2 Hf3 Hp1 Hw1 Hp2 Hw2 Hl1 Hl2 Hac Hrc Hp3
         Hw3 Hrows.
  unfold QueryWithArgs. rewrite Hp1. cbn [orPanic bind]. rewrite Hw1.
  cbn [bind].
  destruct (two_frames message.PrepareComplete message.ReadyForCommand
              (h1 :: h0 :: card :: idin ++ idout ++ extra) rp1) as [f1 ->].
  rewrite (prepareLoop_complete f1 h1 h0 card idin idout extra rp1 _ _
             Hin Hout Hf1).
  cbn [bind]. rewrite Hp2. cbn [orPanic bind]. rewrite Hw2. cbn [bind].
  destruct (two_frames message.CommandDataDescription message.ReadyForCommand
              (granular.descriptionPayload g1 g0 gcard uin din uout dout dextra)
              rp2) as [f2 ->].
  rewrite (describeLoop_complete f2 g1 g0 gcard uin din uout dout dextra rp2
             ∅ l1 l2 Huin Huout Hf2 Hl1 Hl2).
  cbn [bind]. rewrite Hac, Hrc, Hp3. cbn [orPanic bind]. rewrite Hw3.
  cbn [bind].
  rewrite (dataLoop_rows rc ms Hf3 _ [] rows Hrows (stream_length ms)).
  reflexivity.
Qed.

(** X25.  The [Prepare] and [DescribeStatement] batches of [QueryWithArgs] are,
    byte for byte, those the later flow writes for a binary query of
    cardinality many. *)
Theorem first_requests_unchanged `{granular.Values} (query : string)
    (a : granular.Args) :
  prepareMsg query =
    granular.prepareRequest
      {| granular.cmd := query; granular.fmt := format.Binary;
         granular.expCard := cardinality.Many; granular.args := a |} /\
  describeMsg = granular.describeRequest.
Proof. split; reflexivity. Qed.

End Queries.

(** *** Connect *)

Lemma goesPast_step (fuel : nat) (t : Z) (p rest : bytes)
    (sec : option bytes) :
  goesPast (t, p) = true ->
  Z.of_nat (length p) + 4 < 4294967296 ->
  connectLoop (S fuel) (frame t p ++ rest) sec =
  connectLoop fuel rest (secretAfter [(t, p)] sec).
Proof.
  intros Hg Hp. cbn [connectLoop]. rewrite loop_some, (PopMessage_frame _ _ _ Hp).
  cbn [orPanic bind]. rewrite granular_more.PopUint8_frame. cbn [orPanic bind].
  unfold goesPast in Hg. cbn [fst snd] in Hg.
  apply andb_true_iff in Hg as [Hg Hkey]. apply andb_true_iff in Hg as [Hr He].
  apply negb_true_iff in Hr, He. cbn [secretAfter].
  destruct (t =? ServerHandshake) eqn:Hh.
  { apply Z.eqb_eq in Hh. subst t. reflexivity. }
  destruct (t =? ServerKeyData) eqn:Hk.
  - cbn [negb orb] in Hkey. apply Z.ltb_lt in Hkey.
    destruct p as [ | b p ]; [ cbn in Hkey; lia | ].
    unfold granular.lengthField, encode_u32. cbn [app].
    assert (Hsplit : split_at 5
              (uint8 ((Z.of_nat (length (b :: p)) + 4) / 16777216)
               :: uint8 ((Z.of_nat (length (b :: p)) + 4) / 65536)
               :: uint8 ((Z.of_nat (length (b :: p)) + 4) / 256)
               :: uint8 (Z.of_nat (length (b :: p)) + 4) :: b :: p) =
            Some ([uint8 ((Z.of_nat (length (b :: p)) + 4) / 16777216);
                   uint8 ((Z.of_nat (length (b :: p)) + 4) / 65536);
                   uint8 ((Z.of_nat (length (b :: p)) + 4) / 256);
                   uint8 (Z.of_nat (length (b :: p)) + 4); b], p)).
    { match goal with |- split_at 5 (?a :: ?b0 :: ?c :: ?d :: ?e :: ?l) = _ =>
        change (a :: b0 :: c :: d :: e :: l) with ([a; b0; c; d; e] ++ l);
        change 5 with (Z.of_nat (length [a; b0; c; d; e]))
      end. apply split_at_app. }
    rewrite Hsplit. reflexivity.
  - now rewrite Hr, He.
Qed.

Lemma secretAfter_app (ms ms' : list (Z * bytes)) (sec : option bytes) :
  secretAfter (ms ++ ms') sec = secretAfter ms' (secretAfter ms sec).
Proof.
  revert sec. induction ms as [ | [t p] ms IH ]; intros sec; [ reflexivity | ].
  cbn [app secretAfter]. destruct (t =? ServerKeyData); apply IH.
Qed.

Lemma connectLoop_past (pre : list (Z * bytes)) :
  Forall (fun m => goesPast m = true) pre ->
  forall (fuel : nat) (tl : bytes) (sec : option bytes),
  granular.framed pre ->
  connectLoop (length pre + fuel) (protocol.stream pre ++ tl) sec =
  connectLoop fuel tl (secretAfter pre sec).
Proof.
  induction 1 as [ | [t p] pre Hg _ IH ]; intros fuel tl sec Hfr; [ reflexivity | ].
  inversion Hfr as [ | ? ? Hp Hfr' ]; subst. cbn [snd] in Hp.
  rewrite stream_cons. cbn [fst snd length Nat.add]. rewrite <- app_assoc.
  rewrite (goesPast_step _ t p _ sec Hg Hp), (IH fuel tl _ Hfr').
  now rewrite <- (secretAfter_app [(t, p)] pre sec).
Qed.

Lemma writeAndRead_secret (edb edb' : Conn) (bts rcv : bytes) :
  writeAndRead edb bts = Return (edb', rcv) -> secret edb' = secret edb.
Proof.
  unfold writeAndRead. destruct (Write (conn edb) bts) as [s [ e | ] ];
    [ discriminate | ].
  destruct (readLoop _ _ _) as [ [s' r] | | ]; cbn [bind]; try discriminate.
  now intros [= <- _].
Qed.

(** X26.  [Connect] returns at the first [ReadyForCommand]: the connection it
    returns carries as secret the last [ServerKeyData] message before it,
    taken from the sixth byte after the type byte on, that is the key
    data without its first byte; messages of other types are passed over
    and what follows [ReadyForCommand] is not looked at. *)
Theorem connect_returns_at_ready (s : stream) (config : ConnConfig)
    (msg : bytes) (edb' : Conn) (pre post : list (Z * bytes)) (p : bytes) :
  handshakeMsg config = Some msg ->
  writeAndRead {| conn := s; secret := None |} msg =
    Return (edb', protocol.stream (pre ++ (message.ReadyForCommand, p) :: post)) ->
  granular.framed (pre ++ [(message.ReadyForCommand, p)]) ->
  Forall (fun m => goesPast m = true) pre ->
  Connect (inr s) config =
    Return (Some {| conn := conn edb'; secret := secretAfter pre None |}, None).
Proof.
  intros Hmsg Hw Hfr Hpre. unfold Connect. rewrite Hmsg. cbn [orPanic bind].
  rewrite Hw. cbn [bind].
  apply Forall_app in Hfr as [Hfpre Hfp].
  inversion Hfp as [ | ? ? Hp _ ]; subst. cbn [snd] in Hp.
  rewrite stream_app, stream_cons. cbn [fst snd].
  replace (length (protocol.stream pre ++
                   frame message.ReadyForCommand p ++ protocol.stream post))
    with (length pre +
          S (length (protocol.stream pre) - length pre + 4 + length p
             + length (protocol.stream post)))%nat
    by (pose proof (stream_length pre); rewrite !length_app, frame_length; lia).
  rewrite (connectLoop_past pre Hpre _ _ None Hfpre).
  cbn [connectLoop]. rewrite loop_some, (PopMessage_frame _ _ _ Hp).
  cbn [orPanic bind]. rewrite granular_more.PopUint8_frame. cbn [orPanic bind].
  change (message.ReadyForCommand =? ServerHandshake) with false.
  change (message.ReadyForCommand =? ServerKeyData) with false.
  change (message.ReadyForCommand =? message.ReadyForCommand) with true.
  reflexivity.
Qed.

(** X27.  When the reply holds no [ReadyForCommand], [Connect] still returns a
    connection and no error, and that connection carries no secret, even
    when a [ServerKeyData] message was read. *)
Theorem connect_without_ready (s : stream) (config : ConnConfig)
    (msg : bytes) (edb' : Conn) (pre : list (Z * bytes)) :
  handshakeMsg config = Some msg ->
  writeAndRead {| conn := s; secret := None |} msg =
    Return (edb', protocol.stream pre) ->
  granular.framed pre ->
  Forall (fun m => goesPast m = true) pre ->
  Connect (inr s) config =
    Return (Some {| conn := conn edb'; secret := None |}, None).
Proof.
  intros Hmsg Hw Hfr Hpre. unfold Connect. rewrite Hmsg. cbn [orPanic bind].
  rewrite Hw. cbn [bind].
  pose proof (writeAndRead_secret _ _ _ _ Hw) as Hsec. cbn [secret] in Hsec.
  replace (length (protocol.stream pre))
    with (length pre + (length (protocol.stream pre) - length pre))%nat
    by (pose proof (stream_length pre); lia).
  rewrite <- (app_nil_r (protocol.stream pre)) at 2.
  rewrite (connectLoop_past pre Hpre _ [] None Hfr).
  destruct edb' as [c' sec']. cbn [secret conn] in *. subst sec'.
  destruct (length (protocol.stream pre) - length pre)%nat; reflexivity.
Qed.

End legacy_more.

(** * Instances of the further properties *)

Module instances_more.

Ltac all_of := repeat (constructor; [ vm_compute; reflexivity | ]); constructor.
Ltac fits :=
  split;
  [ vm_compute; reflexivity
  | repeat (constructor; [ vm_compute; repeat split; congruence | ]);
    constructor ].
Ltac bounds := vm_compute; repeat split; congruence.

Module script.
Import protocol scriptflow examples.script examples_more.script.

Lemma headerList_map : headerList ≡ₚ map_to_list someHeaders.
Proof. vm_compute. reflexivity. Qed.

Lemma headers_round_trip_witness :
  exists block,
    writeHeaders [69; 0; 0; 0; 0] headerList = [69; 0; 0; 0; 0] ++ block /\
    decodeHeaders (block ++ [9]) = Some (someHeaders, [9]).
Proof.
  apply (scriptflow_more.headers_round_trip [69; 0; 0; 0; 0] someHeaders
           headerList [9]).
  - exact headerList_map.
  - fits.
Defined.

Lemma headers_skipped_witness :
  exists block,
    writeHeaders [69; 0; 0; 0; 0] headerList = [69; 0; 0; 0; 0] ++ block /\
    ignoreHeaders (block ++ [9]) = Some [9] /\
    discardHeaders (block ++ [9]) = Some [9].
Proof.
  apply (scriptflow_more.headers_skipped [69; 0; 0; 0; 0] headerList [9]).
  fits.
Defined.

Lemma script_reads_to_ready_witness :
  execScriptFlow idle
    (readerOf ([parameterStatus; (CommandComplete, [])] ++
               (ReadyForCommand, [73]) :: [(7, [])]))
    scriptWithHeaders =
    Return ({| written := written idle ++
                          [default [] (scriptRequest scriptWithHeaders)];
               writeError := None |},
            {| incoming := [(7, [])]; onEnd := "EOF";
               MsgType := ReadyForCommand; Buf := []; Err := None |},
            joined "create type T" [parameterStatus; (CommandComplete, [])]
              None).
Proof.
  apply (scriptflow_more.script_reads_to_ready idle
           (readerOf ([parameterStatus; (CommandComplete, [])] ++
                      (ReadyForCommand, [73]) :: [(7, [])]))
           scriptWithHeaders (default [] (scriptRequest scriptWithHeaders))
           [parameterStatus; (CommandComplete, [])] [(7, [])] [73]).
  - vm_compute. reflexivity.
  - vm_compute. reflexivity.
  - reflexivity.
  - all_of.
  - reflexivity.
  - reflexivity.
Defined.

Lemma script_transport_failure_wins_witness :
  exists r',
    execScriptFlow idle
      (readerOf [(ErrorResponse, [111; 111]); (CommandComplete, [])])
      script =
      Return ({| written := written idle ++ [scriptReq]; writeError := None |},
              r', Some "EOF") /\
    incoming r' = [] /\ Err r' = Some "EOF".
Proof.
  apply (scriptflow_more.script_transport_failure_wins idle
           (readerOf [(ErrorResponse, [111; 111]); (CommandComplete, [])])
           script scriptReq).
  - vm_compute. reflexivity.
  - vm_compute. reflexivity.
  - reflexivity.
  - all_of.
  - reflexivity.
Defined.

Lemma script_unexpected_message_witness :
  execScriptFlow idle
    (readerOf ([(CommandComplete, [])] ++ (7, []) :: [(ReadyForCommand, [73])]))
    script =
    Return ({| written := written idle ++ [scriptReq]; writeError := None |},
            {| incoming := [(ReadyForCommand, [73])]; onEnd := "EOF";
               MsgType := 7; Buf := []; Err := None |},
            Some "unexpected message type").
Proof.
  apply (scriptflow_more.script_unexpected_message idle
           (readerOf ([(CommandComplete, [])] ++ (7, []) ::
                      [(ReadyForCommand, [73])]))
           script scriptReq [(CommandComplete, [])] [(ReadyForCommand, [73])]
           7 [] "unexpected message type").
  - vm_compute. reflexivity.
  - vm_compute. reflexivity.
  - reflexivity.
  - all_of.
  - reflexivity.
  - reflexivity.
  - vm_compute. congruence.
  - vm_compute. congruence.
  - vm_compute. congruence.
  - reflexivity.
Defined.

Lemma script_request_round_trip_witness :
  exists w,
    scriptRequest scriptWithHeaders = Some w /\
    PopMessage (w ++ [1; 2; 3]) = Some (w, [1; 2; 3]) /\
    ('(t, b) ← PopUint8 w;
     '(len, b) ← PopUint32 b;
     '(h, b) ← decodeHeaders b;
     '(c, b) ← PopString b;
     Some (t, len, h, c, b)) =
    Some (ExecuteScript, Z.of_nat (length w) - 1, someHeaders,
          "create type T", []).
Proof.
  apply (scriptflow_more.script_request_round_trip scriptWithHeaders
           someHeaders [1; 2; 3]).
  - exact headerList_map.
  - fits.
  - bounds.
Defined.

End script.

Module flow.
Import protocol granular examples.flow examples_more.flow.

Lemma prepare_returns_ids_witness :
  exists req,
    prepareRequest selectOne = Some req /\
    prepare (connOf [inr (stream [prepareComplete; ready] ++ [1; 2; 3])])
      selectOne =
      Return (afterWrite
                (connOf [inr (stream [prepareComplete; ready] ++ [1; 2; 3])])
                req [],
              {| id_in := argsID; id_out := resultID |}, None).
Proof.
  apply (granular_more.prepare_returns_ids
           (connOf [inr (stream [prepareComplete; ready] ++ [1; 2; 3])])
           selectOne 0 0 109 argsID resultID [] (snd ready) [1; 2; 3] []).
  - reflexivity.
  - reflexivity.
  - unfold framed. all_of.
  - cbn. lia.
  - reflexivity.
Defined.

Lemma describe_returns_descriptors_witness :
  exists req,
    describeRequest = Some req /\
    describe (connOf [inr (stream [dataDescription; ready] ++ [1; 2; 3; 4])]) =
      Return (afterWrite
                (connOf [inr (stream [dataDescription; ready] ++ [1; 2; 3; 4])])
                req [],
              {| desc_in := argsDesc; desc_out := resultDesc |}, None).
Proof.
  apply (granular_more.describe_returns_descriptors
           (connOf [inr (stream [dataDescription; ready] ++ [1; 2; 3; 4])])
           0 0 109 argsID argsDesc resultID resultDesc [] (snd ready)
           [1; 2; 3; 4] []).
  - reflexivity.
  - reflexivity.
  - unfold framed. all_of.
  - cbn. lia.
  - reflexivity.
Defined.

Lemma transport_failure_keeps_destination_witness :
  execute (connOf [inl (OtherError "broken pipe")]) (Slice [int 7]) selectMany
    int32 int32Codecs =
    Return {| r_conn := afterWrite (connOf [inl (OtherError "broken pipe")])
                          (executeReq selectMany) [];
              r_out := Slice [int 7]; r_unread := [];
              r_err := Some (OtherError "broken pipe") |} /\
  optimistic (connOf [inl (OtherError "broken pipe")]) (Slice [int 7])
    selectMany int32 int32Codecs =
    Return {| r_conn := afterWrite (connOf [inl (OtherError "broken pipe")])
                          (optimisticReq selectMany) [];
              r_out := Slice [int 7]; r_unread := [];
              r_err := Some (OtherError "broken pipe") |}.
Proof.
  apply (granular_more.transport_failure_keeps_destination
           (connOf [inl (OtherError "broken pipe")]) (Slice [int 7]) selectMany
           int32 int32Codecs (OtherError "broken pipe") []
           (executeReq selectMany) (optimisticReq selectMany)).
  - reflexivity.
  - reflexivity.
  - reflexivity.
Defined.

Lemma unknown_message_panics_witness :
  execute (connWith ([dataMsg 1] ++ unknownMsg :: [ready])) (int 7) selectOne
    int32 int32Codecs = Panic /\
  optimistic (connWith ([dataMsg 1] ++ unknownMsg :: [ready])) (int 7)
    selectOne int32 int32Codecs = Panic.
Proof.
  apply (granular_more.unknown_message_panics
           (connWith ([dataMsg 1] ++ unknownMsg :: [ready])) (int 7) (int 1)
           selectOne int32 int32Codecs [dataMsg 1] [ready] 127 [] []
           (executeReq selectOne) (optimisticReq selectOne)).
  - vm_compute. congruence.
  - vm_compute. congruence.
  - vm_compute. congruence.
  - vm_compute. congruence.
  - unfold framed. all_of.
  - vm_compute. reflexivity.
  - reflexivity.
  - reflexivity.
  - reflexivity.
Defined.

Lemma execute_optimistic_agree_witness :
  observed (execute (connWith [dataMsg 1; dataMsg 2; complete; ready])
              (Slice [int 7]) selectMany int32 int32Codecs) =
  observed (optimistic (connWith [dataMsg 1; dataMsg 2; complete; ready])
              (Slice [int 7]) selectMany int32 int32Codecs).
Proof.
  apply (granular_more.execute_optimistic_agree
           (connWith [dataMsg 1; dataMsg 2; complete; ready])
           (Slice [int 7]) selectMany int32 int32Codecs
           (inr (stream [dataMsg 1; dataMsg 2; complete; ready])) []
           (executeReq selectMany) (optimisticReq selectMany)).
  - reflexivity.
  - reflexivity.
  - reflexivity.
Defined.

Lemma prepare_error_stops_flow_witness :
  exists req,
    prepareRequest selectOne = Some req /\
    granularFlow noCaches
      (connOf [inr (frame message.ErrorResponse (snd oops) ++ stream [ready]);
               inr (stream [dataDescription; ready])])
      int32 (int 7) selectOne =
      Return (noCaches,
              {| r_conn :=
                   afterWrite
                     (connOf [inr (frame message.ErrorResponse (snd oops) ++
                                   stream [ready]);
                              inr (stream [dataDescription; ready])])
                     req [inr (stream [dataDescription; ready])];
                 r_out := int 7; r_unread := [];
                 r_err := Some (ServerError 120 83886080 "oops") |}).
Proof.
  apply (granular_more.prepare_error_stops_flow noCaches
           (connOf [inr (frame message.ErrorResponse (snd oops) ++ stream [ready]);
                    inr (stream [dataDescription; ready])])
           int32 int32 (int 7) selectOne (snd oops) (stream [ready])
           (ServerError 120 83886080 "oops")
           [inr (stream [dataDescription; ready])]).
  - reflexivity.
  - reflexivity.
  - reflexivity.
  - bounds.
  - vm_compute. reflexivity.
  - reflexivity.
Defined.

Lemma pesimistic_warms_caches_witness :
  execute afterDescribe (int 7) selectOne int32 int32Codecs =
    Return firstResult /\
  getCodecs warmed selectOne int32 = Some int32Codecs /\
  getDescriptors warmed selectOne = Some int32Descs /\
  getDescriptorsByID warmed int32IDs = Some int32Descs /\
  forall c' outT dst',
    (if flat selectOne then outT = int32 else Elem outT = Some int32) ->
    granularFlow warmed c' outT dst' selectOne =
      bind (optimistic c' dst' selectOne int32 int32Codecs)
           (fun r => Return (warmed, r)).
Proof.
  apply (granular_more.pesimistic_warms_caches noCaches firstCall (int 7)
           selectOne int32 afterPrepare afterDescribe int32IDs knownIDs
           int32Descs int32Codecs).
  - vm_compute. reflexivity.
  - right. split; [ reflexivity | ]. split; [ | reflexivity ].
    vm_compute. reflexivity.
  - reflexivity.
  - vm_compute. reflexivity.
Defined.

Lemma known_ids_skip_describe_witness :
  exists req1 req2,
    newBatches secondCall (r_conn secondResult) = [req1; req2] /\
    batchType req1 = Some message.Prepare /\
    batchType req2 = Some message.Execute.
Proof.
  apply (granular_more.known_ids_skip_describe knownIDs secondCall (int 7)
           selectOne int32 secondAfterPrepare int32IDs int32Descs int32Codecs
           (putCodecs (putDescriptors knownIDs selectOne int32Descs) selectOne
              int32 int32Codecs)
           secondResult).
  - exact instances.appends_noArgs.
  - vm_compute. reflexivity.
  - vm_compute. reflexivity.
  - reflexivity.
  - vm_compute. reflexivity.
Defined.

Lemma prepare_request_round_trip_witness :
  exists msg,
    prepareRequest selectOne = Some (msg ++ syncMsg) /\
    PopMessage (msg ++ syncMsg) = Some (msg, syncMsg) /\
    PopMessage syncMsg = Some (syncMsg, []) /\
    ('(t, b) ← PopUint8 msg;
     '(len, b) ← PopUint32 b;
     '(nh, b) ← PopUint16 b;
     '(f, b) ← PopUint8 b;
     '(cd, b) ← PopUint8 b;
     '(name, b) ← PopBytes b;
     '(text, b) ← PopString b;
     Some (t, len, nh, f, cd, name, text, b)) =
    Some (message.Prepare, Z.of_nat (length msg) - 1, 0, format.Binary,
          cardinality.One, [], "select 1", []).
Proof.
  apply (granular_more.prepare_request_round_trip selectOne).
  - bounds.
  - bounds.
  - bounds.
Defined.

End flow.

Module decoders.
Import codecs examples.decoders examples_more.decoders.

Lemma object_decoded_field_by_field_witness :
  forget <$> objectDecoder_Decode [nameField; nickField]
               (objectBytes [Some [104; 105]; None] ++ [9]) 1000 ∅ =
    decodeElems [nameField; nickField] [Some [104; 105]; None] 1000 ∅ /\
  forall r' m',
    objectDecoder_Decode [nameField; nickField]
      (objectBytes [Some [104; 105]; None] ++ [9]) 1000 ∅ =
      Some (r', m', None) -> r' = [9].
Proof.
  apply (codecs_more.object_decoded_field_by_field [nameField; nickField]
           [Some [104; 105]; None] [9] 1000 ∅).
  - reflexivity.
  - split; [ vm_compute; reflexivity | ].
    repeat constructor.
Defined.

Lemma missing_without_handler_panics_witness :
  objectDecoder_Decode (nameField :: [nickField])
    (objectBytes (None :: [Some [120]]) ++ []) 1000 ∅ = None.
Proof.
  apply (codecs_more.missing_without_handler_panics nameField [nickField]
           [Some [120]] [] 1000 ∅).
  - reflexivity.
  - reflexivity.
  - split; [ vm_compute; reflexivity | ].
    repeat constructor.
Defined.

Lemma optional_object_marked_before_decoding_witness :
  Decode (optionalObjectDecoderOf (replicate 15 0 ++ [11]) [nameField]
            optionalUserType)
    ([0; 0; 0; 3] ++ [9; 9]) 1000 ∅ =
  Some ([9; 9], SetMissing optionalUserType false 1000 ∅,
        Some (wrongNumberOfFields (length [nameField]) (protocol.decode_u32 0 0 0 3))).
Proof.
  apply (codecs_more.optional_object_marked_before_decoding
           (replicate 15 0 ++ [11]) [nameField] optionalUserType 0 0 0 3
           [9; 9] 1000 ∅).
  vm_compute. congruence.
Defined.

Lemma built_decoder_shape_witness :
  kind userType = Struct /\
  exists fields,
    objectDecoderOf (ID userDesc) [nameField; nickField] =
      (if ptrImplementsOptionalUnmarshaler userType
       then optionalObjectDecoderOf (ID userDesc) fields userType
       else objectDecoderOf (ID userDesc) fields) /\
    DescriptorID (objectDecoderOf (ID userDesc) [nameField; nickField]) =
      ID userDesc /\
    Forall2 (fun f df =>
               name df = Name f /\
               (exists sf, StructField userType (Name f) = Some sf /\
                           offset df = sf_Offset sf /\
                           BuildDecoder (Desc f) (sf_Type sf)
                             (AddField "" (Name f)) = inl (decoder df)) /\
               (Required f = false -> isOptional (decoder df) = true))
            (Fields userDesc) fields.
Proof.
  apply (codecs_more.built_decoder_shape userDesc userType ""
           (objectDecoderOf (ID userDesc) [nameField; nickField])).
  reflexivity.
Defined.

Lemma missing_struct_field_reported_witness :
  buildObjectDecoder ageDesc userType "" =
    inr ("expected " +:+ "" +:+ " to have a field named "
         +:+ fmt_q (Name (mkField "age" strDesc true))).
Proof.
  apply (codecs_more.missing_struct_field_reported ageDesc userType ""
           [mkField "name" strDesc true] [] (mkField "age" strDesc true)
           [nameField]).
  - reflexivity.
  - reflexivity.
  - vm_compute. reflexivity.
  - reflexivity.
Defined.

Lemma builder_versions_agree_witness :
  buildObjectDecoderV2 userDescV2 userType "" =
  buildObjectDecoder (toDescriptor userDescV2) userType "".
Proof.
  apply (codecs_more.builder_versions_agree userDescV2 userType "").
  intros d t p. reflexivity.
Defined.

End decoders.

Module first.
Import protocol legacy examples_more.first.

Lemma reply_ends_at_short_read_witness :
  writeAndRead
    {| conn := fresh (map inr [replicate 1024 7] ++ inr [1; 2; 3] :: [inr [4]]);
       secret := None |} [83; 0; 0; 0; 4] =
    Return ({| conn := afterRead
                         (fresh (map inr [replicate 1024 7] ++
                                 inr [1; 2; 3] :: [inr [4]]))
                         [83; 0; 0; 0; 4] [inr [4]];
               secret := None |},
            concat [replicate 1024 7] ++ [1; 2; 3]).
Proof.
  apply (legacy_more.reply_ends_at_short_read
           {| conn := fresh (map inr [replicate 1024 7] ++
                             inr [1; 2; 3] :: [inr [4]]);
              secret := None |}
           [83; 0; 0; 0; 4] [replicate 1024 7] [1; 2; 3] [inr [4]]).
  - reflexivity.
  - all_of.
  - cbn. lia.
  - reflexivity.
Defined.

Lemma full_read_reads_again_witness :
  writeAndRead
    {| conn := fresh (map inr ([] ++ [replicate 1024 7]) ++ inl "EOF" :: []);
       secret := None |} [83; 0; 0; 0; 4] = Panic.
Proof.
  apply (legacy_more.full_read_reads_again
           {| conn := fresh (map inr ([] ++ [replicate 1024 7]) ++
                             inl "EOF" :: []);
              secret := None |}
           [83; 0; 0; 0; 4] [] (replicate 1024 7) "EOF" []).
  - reflexivity.
  - all_of.
  - reflexivity.
Defined.

Lemma query_returns_rows_witness :
  @QueryWithArgs intCodecs start "select {1, 2}" [] =
    Return (after 3, [1; 2], None).
Proof.
  apply (@legacy_more.query_returns_rows intCodecs start (after 1) (after 2) (after 3)
           "select {1, 2}" [] p1 p2 p3 0 0 109 0 0 109
           examples_more.flow.argsID examples_more.flow.resultID []
           (snd examples.flow.ready)
           examples_more.flow.argsID argsDesc examples_more.flow.resultID
           resultDesc [] (snd examples.flow.ready)
           {[ replicate 15 0 ++ argsDesc := tt ]}
           {[ replicate 15 0 ++ resultDesc := tt ]} tt tt rows3 [1; 2]).
  - reflexivity.
  - reflexivity.
  - reflexivity.
  - reflexivity.
  - unfold granular.framed. all_of.
  - unfold granular.framed. all_of.
  - unfold granular.framed. all_of.
  - reflexivity.
  - vm_compute. reflexivity.
  - reflexivity.
  - vm_compute. reflexivity.
  - reflexivity.
  - reflexivity.
  - vm_compute. reflexivity.
  - vm_compute. reflexivity.
  - reflexivity.
  - vm_compute. reflexivity.
  - vm_compute. reflexivity.
Defined.

Lemma connect_returns_at_ready_witness :
  Connect (inr (fresh [inr (protocol.stream (greeting ++
                                   examples.flow.ready :: [logMessage]))]))
    config =
    Return (Some {| conn := conn greeted; secret := Some [8; 9] |}, None).
Proof.
  apply (legacy_more.connect_returns_at_ready
           (fresh [inr (protocol.stream (greeting ++
                               examples.flow.ready :: [logMessage]))])
           config hello greeted greeting [logMessage]
           (snd examples.flow.ready)).
  - reflexivity.
  - vm_compute. reflexivity.
  - unfold granular.framed. all_of.
  - all_of.
Defined.

Lemma connect_without_ready_witness :
  Connect (inr (fresh [inr (protocol.stream greeting)])) config =
    Return (Some {| conn := conn greeted; secret := None |}, None).
Proof.
  apply (legacy_more.connect_without_ready
           (fresh [inr (protocol.stream greeting)]) config hello greeted greeting).
  - reflexivity.
  - vm_compute. reflexivity.
  - unfold granular.framed. all_of.
  - all_of.
Defined.

End first.
End instances_more.
